(** * The Scryfall fetch client of mtg-commander-app

    A shallow embedding of [backend/app/services/scryfall.py]: the class
    [ScryfallService] with its two caches, its one-permit semaphore and its
    coroutines, and the asyncio event loop that runs them.

    The coroutines are written once, as resumptions: a coroutine is a tree
    whose nodes are the operations it performs on the service object and
    the points where it awaits.  Two interpreters run the trees: [exec]
    runs one coroutine alone to its end (a caller awaiting it with nothing
    else scheduled), and [sys_step] runs a set of tasks under an arbitrary
    scheduler. *)

From Stdlib Require Import ZArith QArith.
From stdpp Require Import gmap strings list pretty.

Local Open Scope Z_scope.
Local Open Scope string_scope.
Local Open Scope list_scope.
Set Warnings "-register-all".

(** ** Values decoded from JSON *)

(** What [response.json()] yields.  A float is carried by its exact
    rational value (JSON has neither NaN nor infinities); the code never
    computes with numbers.  [JNull] is Python's [None]. *)
Inductive json : Type :=
| JNull
| JBool (b : bool)
| JInt (z : Z)
| JFloat (q : Q)
| JStr (s : string)
| JArr (items : list json)
| JObj (members : list (string * json)).

(** ** Exceptions *)

Inductive exn : Type :=
| CardFetchError (msg : string)   (* class CardFetchError(Exception) *)
| TransportError                  (* raised by client.get: time-out, network failure *)
| JSONDecodeError                 (* response.json() on a body that is not JSON *)
| AttributeError                  (* .get on a value that is not a dict *)
| TypeError.                      (* iterating a non-iterable, hashing a list or dict *)

Abbreviation result A := (exn + A)%type.

Global Instance result_ret : MRet (sum exn) := λ A, inr.
Global Instance result_bind : MBind (sum exn) := λ A B f r,
  match r with
  | inl e => inl e
  | inr a => f a
  end.

(** ** Python primitives used by the service *)

Fixpoint assoc (key : string) (members : list (string * json)) : option json :=
  match members with
  | [] => None
  | (k, v) :: rest => if String.eqb k key then Some v else assoc key rest
  end.

(** [d.get(key, default)]: only a dict has the method. *)
Definition py_get (d : json) (key : string) (default : json) : result json :=
  match d with
  | JObj members =>
      inr (match assoc key members with Some v => v | None => default end)
  | _ => inl AttributeError
  end.

(** [for x in v]: the elements of a list, the keys of a dict, the characters
    of a string; anything else is not iterable. *)
Definition py_iter (v : json) : result (list json) :=
  match v with
  | JArr items => inr items
  | JObj members => inr (map (λ kv, JStr kv.1) members)
  | JStr s => inr (map (λ c, JStr (String c EmptyString)) (String.list_ascii_of_string s))
  | _ => inl TypeError
  end.

(** A dict key.  Python hashes [True], [1] and [1.0] to one key, so numbers
    are keyed by their reduced fraction; lists and dicts cannot be keys. *)
Inductive pykey : Type :=
| KNone
| KNum (num : Z) (den : positive)
| KStr (s : string).

Definition py_hash (v : json) : result pykey :=
  match v with
  | JNull => inr KNone
  | JBool b => inr (KNum (if b then 1 else 0) 1)
  | JInt z => inr (KNum z 1)
  | JFloat q => inr (KNum (Qnum (Qred q)) (Qden (Qred q)))
  | JStr s => inr (KStr s)
  | JArr _ | JObj _ => inl TypeError
  end.

Global Instance pykey_eq_dec : EqDecision pykey.
Proof. solve_decision. Defined.

Global Instance pykey_countable : Countable pykey.
Proof.
  refine (inj_countable'
    (λ k, match k with
          | KNone => inl ()
          | KNum n d => inr (inl (n, d))
          | KStr s => inr (inr s)
          end)
    (λ x, match x with
          | inl _ => KNone
          | inr (inl (n, d)) => KNum n d
          | inr (inr s) => KStr s
          end) _).
  by intros [].
Defined.

(** ** The HTTP exchange *)

Record request : Type := Request {
  url : string;
  params : list (string * string)
}.

Global Instance request_eq_dec : EqDecision request.
Proof. solve_decision. Defined.

(** [body] is [None] when the body does not parse as JSON. *)
Record response : Type := Response {
  status_code : Z;
  body : option json
}.

(** What [await client.get(...)] produces: a response, or an exception of
    the transport (the client has a 10 second time-out). *)
Inductive reply : Type :=
| Answer (r : response)
| Failure (e : exn).

(** ** Card dictionaries and the service's memory *)

Record image_url : Type := ImageUrl {
  img_normal : json;
  img_border_crop : json;
  img_small : json
}.

(** The dict built by [fetch_card_data].  Its keys are fixed; the key
    ["rulings"] is missing ([None]) until [fetch_full_card] assigns it. *)
Record card_metadata : Type := CardMetadata {
  c_name : json;
  c_id : json;
  c_image_url : image_url;
  c_mana_cost : json;
  c_cmc : json;
  c_type : json;
  c_colors : json;
  c_oracle_text : json;
  c_keywords : json;
  c_legality : json;
  c_rulings : option (list string)
}.

(** A dict is an object: the cache and the caller hold references to it.
    [loc] is the reference, [heap] holds the objects. *)
Abbreviation loc := nat (only parsing).

Record memory : Type := Memory {
  _card_cache : gmap string loc;
  _rulings_cache : gmap pykey (list string);
  heap : list card_metadata
}.

Definition set_rulings (rulings : list string) (c : card_metadata) : card_metadata :=
  CardMetadata (c_name c) (c_id c) (c_image_url c) (c_mana_cost c) (c_cmc c)
    (c_type c) (c_colors c) (c_oracle_text c) (c_keywords c) (c_legality c)
    (Some rulings).

(** [d = {...}]: a new object. *)
Definition alloc (c : card_metadata) (m : memory) : memory :=
  Memory (_card_cache m) (_rulings_cache m) (heap m ++ [c]).

(** [self._card_cache[card] = d] *)
Definition store_card (card : string) (l : loc) (m : memory) : memory :=
  Memory (<[card := l]> (_card_cache m)) (_rulings_cache m) (heap m).

(** [self._rulings_cache[card_id] = clean_rulings] *)
Definition store_rulings (key : pykey) (rulings : list string) (m : memory) : memory :=
  Memory (_card_cache m) (<[key := rulings]> (_rulings_cache m)) (heap m).

(** [d["rulings"] = rulings] on the object at [l]. *)
Definition assign_rulings (l : loc) (rulings : list string) (m : memory) : memory :=
  Memory (_card_cache m) (_rulings_cache m)
    (alter (set_rulings rulings) l (heap m)).

(** The blank dict stands for an object that does not exist.  References
    held by the service are never dangling ([wf_memory] below), so it is
    never read. *)
Global Instance card_metadata_inhabited : Inhabited card_metadata :=
  populate (CardMetadata JNull JNull (ImageUrl JNull JNull JNull)
              JNull JNull JNull JNull JNull JNull JNull None).

(** ** Coroutines *)

(** A coroutine of the service, as the tree of what it does next.  [Read]
    and [Modify] touch the service's memory and do not suspend.  [Acquire]
    awaits the semaphore, [Sleep] awaits [asyncio.sleep], [Get] awaits
    [client.get]; [Release] gives the permit back and does not suspend. *)
Inductive prog (A : Type) : Type :=
| Return (a : A)
| Raise (e : exn)
| Read (k : memory → prog A)
| Modify (f : memory → memory) (k : prog A)
| Acquire (k : prog A)
| Release (k : prog A)
| Sleep (ms : Z) (k : prog A)
| Get (req : request) (k : reply → prog A).

Arguments Return {A} a.
Arguments Raise {A} e.
Arguments Read {A} k.
Arguments Modify {A} f k.
Arguments Acquire {A} k.
Arguments Release {A} k.
Arguments Sleep {A} ms k.
Arguments Get {A} req k.

Fixpoint bind {A B} (p : prog A) (f : A → prog B) : prog B :=
  match p with
  | Return a => f a
  | Raise e => Raise e
  | Read k => Read (λ m, bind (k m) f)
  | Modify g k => Modify g (bind k f)
  | Acquire k => Acquire (bind k f)
  | Release k => Release (bind k f)
  | Sleep ms k => Sleep ms (bind k f)
  | Get req k => Get req (λ r, bind (k r) f)
  end.

Global Instance prog_ret : MRet prog := @Return.
Global Instance prog_bind : MBind prog := λ A B f p, bind p f.
Global Instance prog_fmap : FMap prog := λ A B f p, bind p (λ a, Return (f a)).

Definition read : prog memory := Read Return.
Definition modify (f : memory → memory) : prog unit := Modify f (Return ()).
Definition raise {A} (e : exn) : prog A := Raise e.
Definition sleep (ms : Z) : prog unit := Sleep ms (Return ()).

(** A pure step that may raise. *)
Definition lift {A} (r : result A) : prog A :=
  match r with
  | inl e => Raise e
  | inr a => Return a
  end.

(** A dict literal creates an object; the expression is the reference. *)
Definition new_dict (c : card_metadata) : prog loc :=
  m ← read;
  modify (alloc c);;
  mret (length (heap m)).

(** [await self.client.get(url, params=params)] *)
Definition client_get (u : string) (ps : list (string * string)) : prog response :=
  Get (Request u ps) (λ r, match r with
                          | Answer resp => Return resp
                          | Failure e => Raise e
                          end).

(** Leaving an [async with self.rate_limit_lock] block, by its end or by an
    exception, releases the permit. *)
Fixpoint releasing {A} (body : prog A) : prog A :=
  match body with
  | Return a => Release (Return a)
  | Raise e => Release (Raise e)
  | Read k => Read (λ m, releasing (k m))
  | Modify f k => Modify f (releasing k)
  | Acquire k => Acquire (releasing k)
  | Release k => Release (releasing k)
  | Sleep ms k => Sleep ms (releasing k)
  | Get req k => Get req (λ r, releasing (k r))
  end.

(** [async with self.rate_limit_lock: body] *)
Definition async_with_lock {A} (body : prog A) : prog A :=
  Acquire (releasing body).

(** ** class ScryfallService *)

Section ScryfallService.
(** [self.rate_limit_ms], set by the constructor (100 by default) and
    never assigned again. *)
Variable rate_limit_ms : Z.

(** [str] of a float, a list or a dict, which the service only pastes
    into strings; kept abstract. *)
Variable py_repr : json → string.

(** How an f-string renders a value. *)
Definition py_str (v : json) : string :=
  match v with
  | JStr s => s
  | JNull => "None"
  | JBool true => "True"
  | JBool false => "False"
  | JInt z => pretty z
  | JFloat _ | JArr _ | JObj _ => py_repr v
  end.

Definition base_card_url : string := "https://api.scryfall.com/cards/named".

(** [response.json()] *)
Definition response_json (r : response) : prog json :=
  match body r with
  | Some v => Return v
  | None => Raise JSONDecodeError
  end.

(** The dict literal of [fetch_card_data], evaluated key by key. *)
Definition card_metadata_literal (data : json) : result card_metadata :=
  name ← py_get data "name" JNull;
  id ← py_get data "id" JNull;
  normal ← py_get data "image_uris" (JObj []) ≫= λ uris, py_get uris "normal" JNull;
  border_crop ← py_get data "image_uris" (JObj []) ≫= λ uris, py_get uris "border_crop" JNull;
  small ← py_get data "image_uris" (JObj []) ≫= λ uris, py_get uris "small" JNull;
  mana_cost ← py_get data "mana_cost" JNull;
  cmc ← py_get data "cmc" JNull;
  type ← py_get data "type_line" JNull;
  colors ← py_get data "colors" JNull;
  oracle_text ← py_get data "oracle_text" JNull;
  keywords ← py_get data "keywords" JNull;
  legality ← py_get data "legalities" (JObj []) ≫= λ ls, py_get ls "commander" JNull;
  mret (CardMetadata name id (ImageUrl normal border_crop small)
          mana_cost cmc type colors oracle_text keywords legality None).

Definition fetch_card_data (card : string) : prog loc :=
  m ← read;
  match _card_cache m !! card with
  | Some cached => mret cached
  | None =>
      card_metadata ← async_with_lock (
        sleep rate_limit_ms;;
        response ← client_get base_card_url [("fuzzy", card)];
        if decide (status_code response ≠ 200) then
          raise (CardFetchError
                   ("Card '" +:+ card +:+ "' not found in Scryfall database."))
        else
          data ← response_json response;
          lift (card_metadata_literal data) ≫= new_dict);
      modify (store_card card card_metadata);;
      mret card_metadata
  end.

(** The loop [for ruling in data: ... clean_rulings.append(rule)]. *)
Fixpoint append_rulings (data : list json) (clean_rulings : list string)
  : result (list string) :=
  match data with
  | [] => inr clean_rulings
  | ruling :: rest =>
      match py_get ruling "published_at" JNull with
      | inl e => inl e
      | inr published_at =>
          match py_get ruling "comment" JNull with
          | inl e => inl e
          | inr comment =>
              let rule := "[" +:+ py_str published_at +:+ "] " +:+ py_str comment in
              append_rulings rest (clean_rulings ++ [rule])
          end
      end
  end.

(** [card_id] is whatever the caller passes; [fetch_full_card] passes the
    ["id"] member of the payload.  Looking it up in the cache hashes it. *)
Definition fetch_rulings (card_id : json) : prog (list string) :=
  key ← lift (py_hash card_id);
  m ← read;
  match _rulings_cache m !! key with
  | Some cached => mret cached
  | None =>
      clean_rulings ← async_with_lock (
        sleep rate_limit_ms;;
        response ← client_get
          ("https://api.scryfall.com/cards/" +:+ py_str card_id +:+ "/rulings") [];
        if decide (status_code response ≠ 200) then
          raise (CardFetchError
                   ("Card ID '" +:+ py_str card_id +:+ "' not found in Scryfall database."))
        else
          payload ← response_json response;
          data ← lift (py_get payload "data" (JArr []));
          items ← lift (py_iter data);
          lift (append_rulings items []));
      modify (store_rulings key clean_rulings);;
      mret clean_rulings
  end.

Definition fetch_full_card (card : string) : prog loc :=
  card_data ← fetch_card_data card;
  m ← read;
  card_rulings ← fetch_rulings (c_id (heap m !!! card_data));
  modify (assign_rulings card_data card_rulings);;
  mret card_data.

End ScryfallService.

(** ** Running coroutines *)

(** The service object together with what surrounds it: the semaphore
    ([locked] when its one permit is taken), the event loop's clock in
    milliseconds, and the requests sent so far, oldest first. *)
Record runtime : Type := Runtime {
  mem : memory;
  locked : bool;
  clock : Z;
  sent : list request
}.

(** [ScryfallService()]: empty caches, a free permit. *)
Definition new_service : runtime := Runtime (Memory ∅ ∅ []) false 0 [].

Definition with_mem (f : memory → memory) (rt : runtime) : runtime :=
  Runtime (f (mem rt)) (locked rt) (clock rt) (sent rt).
Definition with_locked (b : bool) (rt : runtime) : runtime :=
  Runtime (mem rt) b (clock rt) (sent rt).
Definition advance (ms : Z) (rt : runtime) : runtime :=
  Runtime (mem rt) (locked rt) (clock rt + Z.max 0 ms) (sent rt).
Definition send (req : request) (rt : runtime) : runtime :=
  Runtime (mem rt) (locked rt) (clock rt) (sent rt ++ [req]).

Inductive outcome (A : Type) : Type :=
| Returned (a : A)
| Raised (e : exn)
| Blocked.   (* awaits a permit that nobody will give back *)

Arguments Returned {A} a.
Arguments Raised {A} e.
Arguments Blocked {A}.

(** How such a coroutine ends as a task, when it ends. *)
Definition ended {A} (o : outcome A) : option (result A) :=
  match o with
  | Returned a => Some (inr a)
  | Raised e => Some (inl e)
  | Blocked => None
  end.

(** ** The event loop *)

(** A task wraps a coroutine.  Between two turns it is in one of these
    states. *)
Inductive task (A : Type) : Type :=
| Ready (p : prog A)                           (* created, not yet started *)
| Waiting (k : prog A)                         (* queued on the semaphore *)
| Sleeping (wake : Z) (k : prog A)             (* in asyncio.sleep until [wake] *)
| Requesting (r : reply) (k : reply → prog A)  (* in client.get; [r] is on its way *)
| Done (r : result A).

Arguments Ready {A} p.
Arguments Waiting {A} k.
Arguments Sleeping {A} wake k.
Arguments Requesting {A} r k.
Arguments Done {A} r.

(** The loop with its tasks, and the indices of the finished tasks in the
    order in which they finished. *)
Record sys (A : Type) : Type := Sys {
  rt : runtime;
  tasks : list (task A);
  completed : list nat
}.

Arguments Sys {A} rt tasks completed.
Arguments rt {A} s.
Arguments tasks {A} s.
Arguments completed {A} s.

(** What the loop does next is not fixed by the program: a task gets a
    turn, or time passes.  Whether a task that asks for a free permit takes
    it at once or queues behind tasks already waiting differs between
    versions of asyncio; [queue] says which happens in this turn. *)
Inductive action : Type :=
| Turn (i : nat) (queue : bool)
| Tick (ms : Z).

Definition is_done {A} (t : task A) : bool :=
  match t with Done _ => true | _ => false end.

Section Interpreters.
(** The remote card database: its reply to a request, given how many
    requests were sent before it. *)
Variable upstream : nat → request → reply.

(** One coroutine awaited on its own: every await resumes at once, the
    sleep taking exactly its delay. *)
Fixpoint exec {A} (p : prog A) (rt : runtime) : outcome A * runtime :=
  match p with
  | Return a => (Returned a, rt)
  | Raise e => (Raised e, rt)
  | Read k => exec (k (mem rt)) rt
  | Modify f k => exec k (with_mem f rt)
  | Acquire k => if locked rt then (Blocked, rt) else exec k (with_locked true rt)
  | Release k => exec k (with_locked false rt)
  | Sleep ms k => exec k (advance ms rt)
  | Get req k => exec (k (upstream (length (sent rt)) req)) (send req rt)
  end.

(** One turn of a coroutine: it runs until it has to wait.  The reply to
    a request is fixed when the request is sent. *)
Fixpoint run {A} (queue : bool) (p : prog A) (rt : runtime) : task A * runtime :=
  match p with
  | Return a => (Done (inr a), rt)
  | Raise e => (Done (inl e), rt)
  | Read k => run queue (k (mem rt)) rt
  | Modify f k => run queue k (with_mem f rt)
  | Acquire k => if locked rt || queue then (Waiting k, rt)
                 else run queue k (with_locked true rt)
  | Release k => run queue k (with_locked false rt)
  | Sleep ms k => (Sleeping (clock rt + Z.max 0 ms) k, rt)
  | Get req k => (Requesting (upstream (length (sent rt)) req) k, send req rt)
  end.

(** Giving a turn to a task; [None] when the task cannot take one. *)
Definition resume {A} (queue : bool) (t : task A) (rt : runtime)
  : option (task A * runtime) :=
  match t with
  | Ready p => Some (run queue p rt)
  | Waiting k =>
      if locked rt then None else Some (run queue k (with_locked true rt))
  | Sleeping wake k =>
      if decide (wake ≤ clock rt)%Z then Some (run queue k rt) else None
  | Requesting r k => Some (run queue (k r) rt)
  | Done _ => None
  end.

Definition sys_step {A} (s : sys A) (a : action) : sys A :=
  match a with
  | Tick ms => Sys (advance ms (rt s)) (tasks s) (completed s)
  | Turn i queue =>
      match tasks s !! i with
      | None => s
      | Some t =>
          match resume queue t (rt s) with
          | None => s
          | Some (t', rt') =>
              Sys rt' (<[i := t']> (tasks s))
                (if is_done t' then completed s ++ [i] else completed s)
          end
      end
  end.

Definition sys_run {A} (s : sys A) (schedule : list action) : sys A :=
  foldl sys_step s schedule.

End Interpreters.

(** ** batch_fetch_card_data *)

(** [asyncio.gather] and [asyncio.as_completed] belong to the standard
    library; they are modelled from its documentation.  Both look at the
    tasks only through which of them are done, with what, and in which
    order they finished. *)
Section Batch.
Context {A : Type}.

(** The exception of the first task, in order of completion, that raised. *)
Fixpoint first_exception (ts : list (task A)) (order : list nat) : option exn :=
  match order with
  | [] => None
  | i :: rest =>
      match ts !! i with
      | Some (Done (inl e)) => Some e
      | _ => first_exception ts rest
      end
  end.

Definition value_of (t : task A) : option A :=
  match t with
  | Done (inr a) => Some a
  | _ => None
  end.

(** [await asyncio.gather] on the tasks, with [return_exceptions] left at its
    default: the first exception is raised as soon as it occurs, the other
    tasks are left running; otherwise, once every task is done, the values
    in the order of the arguments.  [None]: still waiting. *)
Definition gather (s : sys A) : option (result (list A)) :=
  match first_exception (tasks s) (completed s) with
  | Some e => Some (inl e)
  | None => inr <$> mapM value_of (tasks s)
  end.

(** [for task in asyncio.as_completed(tasks): result = await task;
    data.append(result)]: the values in order of completion; awaiting a
    task that raised raises. *)
Definition as_completed (s : sys A) : option (result (list A)) :=
  match first_exception (tasks s) (completed s) with
  | Some e => Some (inl e)
  | None =>
      if forallb is_done (tasks s)
      then inr <$> mapM (λ i, tasks s !! i ≫= value_of) (completed s)
      else None
  end.

End Batch.

Section BatchFetch.
Variable rate_limit_ms : Z.
Variable py_repr : json → string.
Variable upstream : nat → request → reply.

(** [tasks = [asyncio.create_task(self.fetch_full_card(card)) for card in cards]] *)
Definition create_tasks (cards : list string) : list (task loc) :=
  map (λ card, Ready (fetch_full_card rate_limit_ms py_repr card)) cards.

(** The call on a loop that runs nothing else, under a schedule: what the
    call has produced by the end of the schedule ([None] while it is still
    waiting), and the loop's state then. *)
Definition batch_fetch_card_data (cards : list string) (progress : bool)
    (service : runtime) (schedule : list action)
  : option (result (list loc)) * sys loc :=
  let s := sys_run upstream (Sys service (create_tasks cards) []) schedule in
  (if progress then as_completed s else gather s, s).

End BatchFetch.

(** ** Vocabulary of the statements *)

(** What [fetch_card_data] makes of the reply to its request. *)
Definition card_of_reply (card : string) (r : reply) : result card_metadata :=
  match r with
  | Failure e => inl e
  | Answer resp =>
      if decide (status_code resp ≠ 200)
      then inl (CardFetchError ("Card '" +:+ card +:+ "' not found in Scryfall database."))
      else match body resp with
           | None => inl JSONDecodeError
           | Some data => card_metadata_literal data
           end
  end.

Definition card_request (card : string) : request :=
  Request base_card_url [("fuzzy", card)].

Section RulingsVocabulary.
Variable py_repr : json → string.

Definition rulings_request (card_id : json) : request :=
  Request ("https://api.scryfall.com/cards/" +:+ py_str py_repr card_id +:+ "/rulings") [].

(** What [fetch_rulings] makes of the reply to its request. *)
Definition rulings_of_reply (card_id : json) (r : reply) : result (list string) :=
  match r with
  | Failure e => inl e
  | Answer resp =>
      if decide (status_code resp ≠ 200)
      then inl (CardFetchError
                  ("Card ID '" +:+ py_str py_repr card_id +:+ "' not found in Scryfall database."))
      else match body resp with
           | None => inl JSONDecodeError
           | Some payload =>
               data ← py_get payload "data" (JArr []);
               items ← py_iter data;
               append_rulings py_repr items []
           end
  end.

End RulingsVocabulary.

(** An upstream ruling entry that carries the date [d] and the comment [c],
    among other members. *)
Definition ruling_entry (ruling : json) (dc : string * string) : Prop :=
  ∃ members, ruling = JObj members
    ∧ assoc "published_at" members = Some (JStr dc.1)
    ∧ assoc "comment" members = Some (JStr dc.2).

(** [[date] comment] *)
Definition formatted (dc : string * string) : string :=
  "[" +:+ dc.1 +:+ "] " +:+ dc.2.

(** Every reference kept in the name cache points to an object. *)
Definition wf_memory (m : memory) : Prop :=
  ∀ card l, _card_cache m !! card = Some l → (l < length (heap m))%nat.

(** ** A small upstream for examples *)

Definition lightning_bolt : json :=
  JObj [("object", JStr "card");
        ("id", JStr "77c6fa74");
        ("name", JStr "Lightning Bolt");
        ("image_uris", JObj [("small", JStr "https://cards.scryfall.io/small/bolt.jpg");
                             ("normal", JStr "https://cards.scryfall.io/normal/bolt.jpg")]);
        ("mana_cost", JStr "{R}");
        ("cmc", JFloat 1);
        ("type_line", JStr "Instant");
        ("oracle_text", JStr "Lightning Bolt deals 3 damage to any target.");
        ("colors", JArr [JStr "R"]);
        ("keywords", JArr []);
        ("legalities", JObj [("standard", JStr "not_legal"); ("commander", JStr "legal")])].

Definition lightning_bolt_ruling_entries : list json :=
  [JObj [("object", JStr "ruling");
         ("published_at", JStr "2004-10-04");
         ("comment", JStr "The target is chosen on cast.")];
   JObj [("published_at", JStr "2020-08-07");
         ("source", JStr "wotc");
         ("comment", JStr "It can target a planeswalker.")]].

Definition lightning_bolt_rulings : json :=
  JObj [("object", JStr "list"); ("data", JArr lightning_bolt_ruling_entries)].

(** A two-faced card: the payload has no ["image_uris"], ["mana_cost"] or
    ["oracle_text"] of its own, and its name is not the name queried. *)
Definition delver_members : list (string * json) :=
  [("object", JStr "card");
   ("id", JStr "11bf83bb");
   ("name", JStr "Delver of Secrets // Insectile Aberration");
   ("cmc", JFloat 1);
   ("type_line", JStr "Creature - Human Wizard // Creature - Human Insect");
   ("colors", JArr [JStr "U"]);
   ("keywords", JArr [JStr "Flying"; JStr "Transform"]);
   ("legalities", JObj [("commander", JStr "legal")])].

(** Knows two cards, the second one without rulings; answers 404 to
    everything else. *)
Definition example_upstream (n : nat) (req : request) : reply :=
  if decide (req = card_request "Lightning Bolt")
  then Answer (Response 200 (Some lightning_bolt))
  else if decide (req = card_request "delver of secrets")
  then Answer (Response 200 (Some (JObj delver_members)))
  else if decide (req = Request "https://api.scryfall.com/cards/77c6fa74/rulings" [])
  then Answer (Response 200 (Some lightning_bolt_rulings))
  else if decide (req = Request "https://api.scryfall.com/cards/11bf83bb/rulings" [])
  then Answer (Response 200 (Some (JObj [("object", JStr "list"); ("data", JArr [])])))
  else Answer (Response 404 (Some (JObj [("object", JStr "error"); ("status", JInt 404)]))).

(** [str] of floats and containers does not matter in the examples. *)
Definition example_repr (v : json) : string := "?".

(** The member [key] of a payload, [None] when the payload has none. *)
Definition member (key : string) (members : list (string * json)) : json :=
  default JNull (assoc key members).

(** The member [inner] of the object under [outer]. *)
Definition submember (outer inner : string) (members : list (string * json)) : json :=
  match assoc outer members with
  | Some (JObj nested) => member inner nested
  | _ => JNull
  end.

Definition object_or_absent (key : string) (members : list (string * json)) : Prop :=
  match assoc key members with
  | None | Some (JObj _) => True
  | Some _ => False
  end.

(** The record that corresponds to a card payload. *)
Definition extracted (members : list (string * json)) : card_metadata :=
  CardMetadata (member "name" members) (member "id" members)
    (ImageUrl (submember "image_uris" "normal" members)
              (submember "image_uris" "border_crop" members)
              (submember "image_uris" "small" members))
    (member "mana_cost" members) (member "cmc" members)
    (member "type_line" members) (member "colors" members)
    (member "oracle_text" members) (member "keywords" members)
    (submember "legalities" "commander" members)
    None.

(** An upstream that answers every request with 200 and one payload. *)
Definition always_answers (payload : json) (n : nat) (req : request) : reply :=
  Answer (Response 200 (Some payload)).

(** ** Sequences of calls *)

Inductive call : Type :=
| FetchCardData (card : string)
| FetchRulings (card_id : json)
| FetchFullCard (card : string).

Section Calls.
Variable rate_limit_ms : Z.
Variable py_repr : json → string.
Variable upstream : nat → request → reply.

(** The service after a call has been awaited, however the call ended. *)
Definition after_call (rt : runtime) (c : call) : runtime :=
  match c with
  | FetchCardData card => (exec upstream (fetch_card_data rate_limit_ms card) rt).2
  | FetchRulings card_id => (exec upstream (fetch_rulings rate_limit_ms py_repr card_id) rt).2
  | FetchFullCard card => (exec upstream (fetch_full_card rate_limit_ms py_repr card) rt).2
  end.

Definition after_calls (rt : runtime) (calls : list call) : runtime :=
  foldl after_call rt calls.

(** The coroutine of a call, for a task made of it. *)
Definition coroutine (c : call) : prog (loc + list string) :=
  match c with
  | FetchCardData card => inl <$> fetch_card_data rate_limit_ms card
  | FetchRulings card_id => inr <$> fetch_rulings rate_limit_ms py_repr card_id
  | FetchFullCard card => inl <$> fetch_full_card rate_limit_ms py_repr card
  end.

End Calls.

(** The record the name cache holds for a name. *)
Definition cached_record (m : memory) (card : string) : option card_metadata :=
  _card_cache m !! card ≫= λ l, heap m !! l.

(** [d'] is [d], possibly with rulings assigned since. *)
Definition same_card (d d' : card_metadata) : Prop :=
  d' = d ∨ ∃ rulings, d' = set_rulings rulings d.

(** Every binding of the two caches is still there, and every object is
    still the same card. *)
Definition persists (m m' : memory) : Prop :=
  (∀ card l, _card_cache m !! card = Some l → _card_cache m' !! card = Some l)
  ∧ (∀ key rulings, _rulings_cache m !! key = Some rulings →
       _rulings_cache m' !! key = Some rulings)
  ∧ (∀ l d, heap m !! l = Some d → ∃ d', heap m' !! l = Some d' ∧ same_card d d').

(** ** Vocabulary of the statements about the loop *)

(** The finished tasks are exactly the ones listed in [completed], each
    listed once. *)
Definition completed_ok {A} (s : sys A) : Prop :=
  NoDup (completed s)
  ∧ ∀ i, i ∈ completed s ↔ ∃ r, tasks s !! i = Some (Done r).

(** The tasks an action leaves alone. *)
Definition untouched (a : action) (j : nat) : Prop :=
  match a with
  | Turn i _ => j ≠ i
  | Tick _ => True
  end.

(** A run of two tasks as asyncio orders it when waiters are served first
    come, first served. *)
Definition two_task_schedule : list action :=
  [Turn 0 false;   (* task 0 starts, takes the permit, sleeps *)
   Turn 1 false;   (* task 1 starts, finds the permit taken, waits *)
   Tick 100;
   Turn 0 false;   (* task 0 wakes up and sends its card request *)
   Turn 0 true;    (* the card arrives; task 0 asks for the permit again
                      and queues behind task 1 *)
   Turn 1 false;   (* task 1 takes the permit, sleeps *)
   Tick 100;
   Turn 1 false;   (* task 1 sends its card request *)
   Turn 1 false].  (* the reply arrives; task 1 is done *)

(** The rest of that run: task 0 fetches its rulings. *)
Definition two_task_schedule_end : list action :=
  [Turn 0 false; Tick 100; Turn 0 false; Turn 0 false].

(** A run of two tasks in which the second task is served first and is
    done before the first one has sent anything. *)
Definition second_first_schedule : list action :=
  [Turn 1 false; Turn 0 false;
   Tick 100; Turn 1 false; Turn 1 false;
   Tick 100; Turn 1 false; Turn 1 false;
   Turn 0 false;
   Tick 100; Turn 0 false; Turn 0 false;
   Tick 100; Turn 0 false; Turn 0 false].

(** ** The discipline of the permit *)

(** Where a coroutine stands with respect to the permit. *)
Inductive phase : Type :=
| Outside    (* does not have it *)
| Holding    (* has it and has not slept yet *)
| Paced      (* has it and has slept: goes on to send *)
| Served.    (* has it and has its reply: goes on to release *)

(** [gated delay ph p]: from phase [ph] on, [p] sleeps and sends only with
    the permit; each time it has the permit it sleeps [delay], then sends
    one request, then gives the permit back; it ends without the permit. *)
Inductive gated {A} (delay : Z) : phase → prog A → Prop :=
| gated_return a : gated delay Outside (Return a)
| gated_raise e : gated delay Outside (Raise e)
| gated_read ph k : (∀ m, gated delay ph (k m)) → gated delay ph (Read k)
| gated_modify ph f k : gated delay ph k → gated delay ph (Modify f k)
| gated_acquire k : gated delay Holding k → gated delay Outside (Acquire k)
| gated_sleep k : gated delay Paced k → gated delay Holding (Sleep delay k)
| gated_get req k : (∀ r, gated delay Served (k r)) → gated delay Paced (Get req k)
| gated_release k : gated delay Outside k → gated delay Served (Release k).

(** The body of an [async with] block, which ends with the permit. *)
Inductive inside {A} (delay : Z) : phase → prog A → Prop :=
| inside_return a : inside delay Served (Return a)
| inside_raise e : inside delay Served (Raise e)
| inside_read ph k : (∀ m, inside delay ph (k m)) → inside delay ph (Read k)
| inside_modify ph f k : inside delay ph k → inside delay ph (Modify f k)
| inside_sleep k : inside delay Paced k → inside delay Holding (Sleep delay k)
| inside_get req k : (∀ r, inside delay Served (k r)) → inside delay Paced (Get req k).

(** A task that is pacing or has a request in flight. *)
Definition in_gate {A} (t : task A) : bool :=
  match t with
  | Sleeping _ _ | Requesting _ _ => true
  | _ => false
  end.

Definition task_gated {A} (delay : Z) (t : task A) : Prop :=
  match t with
  | Ready p => gated delay Outside p
  | Waiting k => gated delay Holding k
  | Sleeping _ k => gated delay Paced k
  | Requesting r k => gated delay Served (k r)
  | Done _ => True
  end.

(** At most one task is in the gate, and the permit is taken exactly when
    one is. *)
Definition exclusive {A} (s : sys A) : Prop :=
  (∀ i j ti tj, tasks s !! i = Some ti → tasks s !! j = Some tj →
     in_gate ti = true → in_gate tj = true → i = j)
  ∧ (∀ i t, tasks s !! i = Some t → in_gate t = true → locked (rt s) = true)
  ∧ (locked (rt s) = true → ∃ i t, tasks s !! i = Some t ∧ in_gate t = true).

(** Every request sent since the clock showed [start] and [before]
    requests had been sent has had its [delay]; so has, ahead of time, the
    request of the task that sleeps. *)
Definition paced {A} (delay start : Z) (before : nat) (s : sys A) : Prop :=
  (start + delay * (Z.of_nat (length (sent (rt s))) - Z.of_nat before) ≤ clock (rt s))%Z
  ∧ ∀ i wake k, tasks s !! i = Some (Sleeping wake k) →
      (start + delay * (Z.of_nat (length (sent (rt s))) - Z.of_nat before + 1) ≤ wake)%Z.

(** What one turn from phase [ph] does to the loop: the clock stands
    still; from [Paced] the task sends one request and is then in flight;
    from any other phase nothing is sent, and a task that ends the turn in
    the gate has just taken the permit and sleeps its full delay. *)
Definition turn_summary {A} (delay : Z) (ph : phase)
    (rt : runtime) (t : task A) (rt' : runtime) : Prop :=
  task_gated delay t
  ∧ clock rt' = clock rt
  ∧ match ph with
    | Paced =>
        (∃ r k, t = Requesting r k)
        ∧ length (sent rt') = S (length (sent rt))
        ∧ locked rt' = locked rt
    | _ =>
        sent rt' = sent rt
        ∧ (in_gate t = true →
             locked rt' = true
             ∧ (ph = Outside → locked rt = false)
             ∧ ∃ k, t = Sleeping (clock rt + Z.max 0 delay) k)
        ∧ (in_gate t = false →
             locked rt' = match ph with Outside => locked rt | _ => false end)
    end.

(** The phase in which a task takes its next turn. *)
Definition phase_of {A} (t : task A) : phase :=
  match t with
  | Ready _ | Done _ => Outside
  | Waiting _ => Holding
  | Sleeping _ _ => Paced
  | Requesting _ _ => Served
  end.

Definition is_sleeping {A} (t : task A) : bool :=
  match t with
  | Sleeping _ _ => true
  | _ => false
  end.

(** The invariant of the loop behind the rate limit. *)
Definition gate_inv {A} (delay start : Z) (before : nat) (s : sys A) : Prop :=
  (∀ i t, tasks s !! i = Some t → task_gated delay t)
  ∧ exclusive s
  ∧ paced delay start before s.

(** ** Coherence of the caches with a steady upstream *)

Section Coherence.
Variable py_repr : json → string.

(** An upstream whose answers do not change with time. *)
Variable up : request → reply.

(** What upstream has for a name, and for an id. *)
Definition card_of (card : string) : result card_metadata :=
  card_of_reply card (up (card_request card)).

Definition rulings_of (card_id : json) : result (list string) :=
  rulings_of_reply py_repr card_id (up (rulings_request py_repr card_id)).

(** Every card upstream knows has a string for its id. *)
Definition string_ids : Prop :=
  ∀ card d0, card_of card = inr d0 → ∃ s, c_id d0 = JStr s.

(** The complete record of a name: the card's members and its rulings. *)
Definition full_record (card : string) (d : card_metadata) : Prop :=
  ∃ d0 rulings, card_of card = inr d0
    ∧ rulings_of (c_id d0) = inr rulings
    ∧ d = set_rulings rulings d0.

(** [d'] is [d], possibly with the rulings of its id assigned since. *)
Definition grows (d d' : card_metadata) : Prop :=
  d' = d ∨ ∃ rulings, rulings_of (c_id d) = inr rulings ∧ d' = set_rulings rulings d.

(** What the other tasks may have done to the memory meanwhile. *)
Definition evolves (m m' : memory) : Prop :=
  ∀ l d, heap m !! l = Some d → ∃ d', heap m' !! l = Some d' ∧ grows d d'.

Definition is_card (card : string) (d : card_metadata) : Prop :=
  ∃ d0, card_of card = inr d0 ∧ grows d0 d.

(** The caches hold what upstream has. *)
Definition coherent (m : memory) : Prop :=
  (∀ card l, _card_cache m !! card = Some l →
     ∃ d, heap m !! l = Some d ∧ is_card card d)
  ∧ (∀ s rulings, _rulings_cache m !! KStr s = Some rulings →
       rulings_of (JStr s) = inr rulings).

(** [safe Q m p]: the coroutine [p], at work on the memory [m], keeps the
    caches coherent whatever the other tasks do while it waits, and if it
    returns [a] then [Q a] holds of the memory at that moment. *)
Inductive safe {A} (Q : A → memory → Prop) : memory → prog A → Prop :=
| safe_return m a : Q a m → safe Q m (Return a)
| safe_raise m e : safe Q m (Raise e)
| safe_read m k : safe Q m (k m) → safe Q m (Read k)
| safe_modify m f k :
    coherent (f m) → evolves m (f m) → safe Q (f m) k → safe Q m (Modify f k)
| safe_acquire m k :
    (∀ m', coherent m' → evolves m m' → safe Q m' k) → safe Q m (Acquire k)
| safe_release m k : safe Q m k → safe Q m (Release k)
| safe_sleep m ms k :
    (∀ m', coherent m' → evolves m m' → safe Q m' k) → safe Q m (Sleep ms k)
| safe_get m req k :
    (∀ m', coherent m' → evolves m m' → safe Q m' (k (up req))) →
    safe Q m (Get req k).

(** A property of the memory that the other tasks cannot undo. *)
Definition stable (F : memory → Prop) : Prop :=
  ∀ m m', F m → evolves m m' → F m'.

Definition task_safe {A} (Q : A → memory → Prop) (m : memory) (t : task A) : Prop :=
  match t with
  | Ready p | Waiting p | Sleeping _ p =>
      ∀ m', coherent m' → evolves m m' → safe Q m' p
  | Requesting r k => ∀ m', coherent m' → evolves m m' → safe Q m' (k r)
  | Done (inr a) => Q a m
  | Done (inl _) => True
  end.

(** The object at [l] is the complete record of [card]. *)
Definition holds_full_record (card : string) (l : loc) (m : memory) : Prop :=
  ∃ d, heap m !! l = Some d ∧ full_record card d.

End Coherence.

(** The invariant of a batch on a steady upstream: the caches are
    coherent, and task [i] is on its way to the complete record of name
    [i]. *)
Definition batch_inv (py_repr : json → string) (up : request → reply)
    (cards : list string) (s : sys loc) : Prop :=
  coherent py_repr up (mem (rt s))
  ∧ length (tasks s) = length cards
  ∧ ∀ i card t, cards !! i = Some card → tasks s !! i = Some t →
      task_safe py_repr up (holds_full_record py_repr up card) (mem (rt s)) t.

(** ** Vocabulary of the statements about payloads and records *)

Definition is_object (v : json) : bool :=
  match v with
  | JObj _ => true
  | _ => false
  end.

Section Rendering.
Variable py_repr : json → string.

(** The string that the loop of [fetch_rulings] makes of a ruling entry:
    a member that the entry lacks shows as [None]. *)
Definition rendered (ruling : json) : string :=
  match ruling with
  | JObj members =>
      "[" +:+ py_str py_repr (member "published_at" members)
        +:+ "] " +:+ py_str py_repr (member "comment" members)
  | _ => ""
  end.

End Rendering.

(** References are valid, and no two names refer to one object. *)
Definition separate (m : memory) : Prop :=
  wf_memory m
  ∧ ∀ c1 c2 l, _card_cache m !! c1 = Some l → _card_cache m !! c2 = Some l → c1 = c2.

(** The name a call looks up, when it looks up a name. *)
Definition name_of (c : call) : option string :=
  match c with
  | FetchCardData card | FetchFullCard card => Some card
  | FetchRulings _ => None
  end.

(** ** What a coroutine may do to the service *)

(** [within R P n p]: every write of [p] to the memory is a step of [R],
    every request that [p] sends satisfies [P], and [p] sends at most [n]
    requests. *)
Inductive within {A} (R : memory → memory → Prop) (P : request → Prop)
  : nat → prog A → Prop :=
| within_return n a : within R P n (Return a)
| within_raise n e : within R P n (Raise e)
| within_read n k : (∀ m, within R P n (k m)) → within R P n (Read k)
| within_modify n f k :
    (∀ m, R m (f m)) → within R P n k → within R P n (Modify f k)
| within_acquire n k : within R P n k → within R P n (Acquire k)
| within_release n k : within R P n k → within R P n (Release k)
| within_sleep n ms k : within R P n k → within R P n (Sleep ms k)
| within_get n req k :
    P req → (∀ r, within R P n (k r)) → within R P (S n) (Get req k).

Definition task_within {A} (R : memory → memory → Prop) (P : request → Prop)
    (n : nat) (t : task A) : Prop :=
  match t with
  | Ready p | Waiting p | Sleeping _ p => within R P n p
  | Requesting r k => within R P n (k r)
  | Done _ => True
  end.

(** The invariant of a loop whose tasks stay within [R] and [P]: since
    the loop was the service [service], the memory has made steps of [R],
    the requests sent all satisfy [P], and these requests together with
    the ones the tasks may still send are at most [total]. *)
Definition footprint_inv {A} (R : memory → memory → Prop) (P : request → Prop)
    (service : runtime) (total : nat) (s : sys A) : Prop :=
  R (mem service) (mem (rt s))
  ∧ ∃ extra budgets,
      sent (rt s) = sent service ++ extra
      ∧ Forall P extra
      ∧ Forall2 (task_within R P) budgets (tasks s)
      ∧ (length extra + sum_list budgets ≤ total)%nat.

(** Nothing is evicted: every key of either cache is still a key, every
    object is still there and is still the same card. *)
Definition keeps (m m' : memory) : Prop :=
  (∀ card, is_Some (_card_cache m !! card) → is_Some (_card_cache m' !! card))
  ∧ (∀ key, is_Some (_rulings_cache m !! key) → is_Some (_rulings_cache m' !! key))
  ∧ (∀ l d, heap m !! l = Some d → ∃ d', heap m' !! l = Some d' ∧ same_card d d').

(** The requests a batch for [cards] may send. *)
Definition batch_request (py_repr : json → string) (cards : list string)
    (req : request) : Prop :=
  (∃ card, card ∈ cards ∧ req = card_request card)
  ∨ (∃ card_id, req = rulings_request py_repr card_id).

(** The number of requests a call may send. *)
Definition request_budget (c : call) : nat :=
  match c with
  | FetchCardData _ | FetchRulings _ => 1
  | FetchFullCard _ => 2
  end.

(** ** What a coroutine is bound to do *)

(** [owes req p]: however [p] goes on, it sends [req] before it ends. *)
Inductive owes {A} (req : request) : prog A → Prop :=
| owes_read k : (∀ m, owes req (k m)) → owes req (Read k)
| owes_modify f k : owes req k → owes req (Modify f k)
| owes_acquire k : owes req k → owes req (Acquire k)
| owes_release k : owes req k → owes req (Release k)
| owes_sleep ms k : owes req k → owes req (Sleep ms k)
| owes_get k : owes req (Get req k)
| owes_get_other req' k : (∀ r, owes req (k r)) → owes req (Get req' k).

Definition task_owes {A} (req : request) (t : task A) : Prop :=
  match t with
  | Ready p | Waiting p | Sleeping _ p => owes req p
  | Requesting r k => owes req (k r)
  | Done _ => False
  end.

(** How often [req] occurs among [reqs]. *)
Definition times_sent (req : request) (reqs : list request) : nat :=
  length (filter (eq req) reqs).

(** Since the loop was the service [service], [req] has been sent, or is
    still owed by a task among [among], at least [n] times in all. *)
Definition owing_inv {A} (req : request) (service : runtime) (n : nat)
    (among : gset nat) (s : sys A) : Prop :=
  ∃ extra (owing : gset nat),
    sent (rt s) = sent service ++ extra
    ∧ owing ⊆ among
    ∧ (∀ k, k ∈ owing → ∃ t, tasks s !! k = Some t ∧ task_owes req t)
    ∧ (n ≤ times_sent req extra + size owing)%nat.

(** The name [card] is cached at [l] with the rulings of its id cached
    too: a full fetch has nothing to ask upstream. *)
Definition warm (card : string) (l : loc) (m : memory) : Prop :=
  _card_cache m !! card = Some l
  ∧ ∃ d key rulings,
      heap m !! l = Some d
      ∧ py_hash (c_id d) = inr key
      ∧ _rulings_cache m !! key = Some rulings.

(** ** What holds of the memory whatever the tasks do *)

Section Sound.
(** An invariant of the memory, and what any task may do to the memory
    while another one waits. *)
Variable I : memory → Prop.
Variable G : memory → memory → Prop.

(** [sound Q m p]: the coroutine [p], at work on the memory [m], keeps
    [I] and makes only steps of [G], whatever upstream replies and
    whatever the other tasks do while it waits; and if it returns [a]
    then [Q a] holds of the memory at that moment. *)
Inductive sound {A} (Q : A → memory → Prop) : memory → prog A → Prop :=
| sound_return m a : Q a m → sound Q m (Return a)
| sound_raise m e : sound Q m (Raise e)
| sound_read m k : sound Q m (k m) → sound Q m (Read k)
| sound_modify m f k :
    I (f m) → G m (f m) → sound Q (f m) k → sound Q m (Modify f k)
| sound_acquire m k :
    (∀ m', I m' → G m m' → sound Q m' k) → sound Q m (Acquire k)
| sound_release m k : sound Q m k → sound Q m (Release k)
| sound_sleep m ms k :
    (∀ m', I m' → G m m' → sound Q m' k) → sound Q m (Sleep ms k)
| sound_get m req k :
    (∀ r m', I m' → G m m' → sound Q m' (k r)) → sound Q m (Get req k).

Definition task_sound {A} (Q : A → memory → Prop) (m : memory) (t : task A) : Prop :=
  match t with
  | Ready p | Waiting p | Sleeping _ p => ∀ m', I m' → G m m' → sound Q m' p
  | Requesting r k => ∀ m', I m' → G m m' → sound Q m' (k r)
  | Done (inr a) => Q a m
  | Done (inl _) => True
  end.

(** The invariant of a loop all of whose tasks are sound. *)
Definition sound_inv {A} (Q : A → memory → Prop) (s : sys A) : Prop :=
  I (mem (rt s))
  ∧ ∀ i t, tasks s !! i = Some t → task_sound Q (mem (rt s)) t.

End Sound.

(** Every object is still there and is still the same card. *)
Definition outlives (m m' : memory) : Prop :=
  ∀ l d, heap m !! l = Some d → ∃ d', heap m' !! l = Some d' ∧ same_card d d'.

(** The object at [l] has its rulings. *)
Definition has_rulings (l : loc) (m : memory) : Prop :=
  ∃ d rulings, heap m !! l = Some d ∧ c_rulings d = Some rulings.

(** * Properties *)

(** ** One coroutine on its own *)

Section Sequential.
Variable rate_limit_ms : Z.
Variable py_repr : json → string.
Variable upstream : nat → request → reply.

Local Abbreviation exec := (exec upstream).
Local Abbreviation fetch_card_data := (fetch_card_data rate_limit_ms).
Local Abbreviation fetch_rulings := (fetch_rulings rate_limit_ms py_repr).
Local Abbreviation fetch_full_card := (fetch_full_card rate_limit_ms py_repr).

Lemma exec_bind {A B} (p : prog A) (f : A → prog B) rt :
  exec (p ≫= f) rt =
  match exec p rt with
  | (Returned a, rt') => exec (f a) rt'
  | (Raised e, rt') => (Raised e, rt')
  | (Blocked, rt') => (Blocked, rt')
  end.
Proof.
  unfold mbind, prog_bind.
  revert rt; induction p as [a|e|k IH|g k IH|k IH|k IH|ms k IH|req k IH];
    intros rt; simpl; auto.
  destruct (locked rt); auto.
Qed.

Lemma exec_releasing {A} (body : prog A) rt :
  exec (releasing body) rt =
  match exec body rt with
  | (Blocked, rt') => (Blocked, rt')
  | (o, rt') => (o, with_locked false rt')
  end.
Proof.
  revert rt; induction body as [a|e|k IH|g k IH|k IH|k IH|ms k IH|req k IH];
    intros rt; simpl; auto.
  destruct (locked rt); auto.
Qed.

Lemma exec_lift {A} (r : result A) rt :
  exec (lift r) rt = (match r with inl e => Raised e | inr a => Returned a end, rt).
Proof. by destruct r. Qed.

Lemma fetch_card_data_hit card rt cached :
  _card_cache (mem rt) !! card = Some cached →
  exec (fetch_card_data card) rt = (Returned cached, rt).
Proof. intros H. simpl. by rewrite H. Qed.

Lemma fetch_card_data_blocked card rt :
  _card_cache (mem rt) !! card = None →
  locked rt = true →
  exec (fetch_card_data card) rt = (Blocked, rt).
Proof. intros H L. simpl. by rewrite H; simpl; rewrite L. Qed.

Lemma fetch_card_data_miss card rt :
  _card_cache (mem rt) !! card = None →
  locked rt = false →
  exec (fetch_card_data card) rt =
  match card_of_reply card (upstream (length (sent rt)) (card_request card)) with
  | inl e =>
      (Raised e,
       Runtime (mem rt) false (clock rt + Z.max 0 rate_limit_ms)
         (sent rt ++ [card_request card]))
  | inr c =>
      (Returned (length (heap (mem rt))),
       Runtime (Memory (<[card := length (heap (mem rt))]> (_card_cache (mem rt)))
                  (_rulings_cache (mem rt)) (heap (mem rt) ++ [c]))
         false (clock rt + Z.max 0 rate_limit_ms)
         (sent rt ++ [card_request card]))
  end.
Proof.
  intros H L. simpl. rewrite H. simpl. rewrite L. simpl.
  unfold card_of_reply, card_request.
  destruct (upstream _ _) as [resp|e]; simpl; [|done].
  destruct (decide (status_code resp ≠ 200)); simpl; [done|].
  unfold response_json. destruct (body resp) as [data|]; simpl; [|done].
  destruct (card_metadata_literal data) as [e|c]; simpl; done.
Qed.

Lemma fetch_rulings_unhashable card_id rt e :
  py_hash card_id = inl e →
  exec (fetch_rulings card_id) rt = (Raised e, rt).
Proof. intros H. unfold fetch_rulings. rewrite exec_bind, exec_lift, H. done. Qed.

Lemma fetch_rulings_hit card_id key rt cached :
  py_hash card_id = inr key →
  _rulings_cache (mem rt) !! key = Some cached →
  exec (fetch_rulings card_id) rt = (Returned cached, rt).
Proof.
  intros H C. unfold fetch_rulings. rewrite exec_bind, exec_lift, H.
  simpl. by rewrite C.
Qed.

Lemma fetch_rulings_blocked card_id key rt :
  py_hash card_id = inr key →
  _rulings_cache (mem rt) !! key = None →
  locked rt = true →
  exec (fetch_rulings card_id) rt = (Blocked, rt).
Proof.
  intros H C L. unfold fetch_rulings. rewrite exec_bind, exec_lift, H.
  simpl. rewrite C. simpl. by rewrite L.
Qed.

Lemma fetch_rulings_miss card_id key rt :
  py_hash card_id = inr key →
  _rulings_cache (mem rt) !! key = None →
  locked rt = false →
  exec (fetch_rulings card_id) rt =
  match rulings_of_reply py_repr card_id
          (upstream (length (sent rt)) (rulings_request py_repr card_id)) with
  | inl e =>
      (Raised e,
       Runtime (mem rt) false (clock rt + Z.max 0 rate_limit_ms)
         (sent rt ++ [rulings_request py_repr card_id]))
  | inr clean_rulings =>
      (Returned clean_rulings,
       Runtime (Memory (_card_cache (mem rt))
                  (<[key := clean_rulings]> (_rulings_cache (mem rt)))
                  (heap (mem rt)))
         false (clock rt + Z.max 0 rate_limit_ms)
         (sent rt ++ [rulings_request py_repr card_id]))
  end.
Proof.
  intros H C L. unfold fetch_rulings. rewrite exec_bind, exec_lift, H.
  simpl. rewrite C. simpl. rewrite L. simpl.
  unfold rulings_of_reply, rulings_request.
  destruct (upstream _ _) as [resp|e]; simpl; [|done].
  destruct (decide (status_code resp ≠ 200)); simpl; [done|].
  unfold response_json. destruct (body resp) as [payload|]; simpl; [|done].
  destruct (py_get payload "data" (JArr [])) as [e|data]; simpl; [done|].
  destruct (py_iter data) as [e|items]; simpl; [done|].
  destruct (append_rulings py_repr items []) as [e|rs]; simpl; done.
Qed.

Lemma fetch_full_card_unfold card rt :
  exec (fetch_full_card card) rt =
  match exec (fetch_card_data card) rt with
  | (Returned card_data, rt1) =>
      match exec (fetch_rulings (c_id (heap (mem rt1) !!! card_data))) rt1 with
      | (Returned card_rulings, rt2) =>
          (Returned card_data, with_mem (assign_rulings card_data card_rulings) rt2)
      | (Raised e, rt2) => (Raised e, rt2)
      | (Blocked, rt2) => (Blocked, rt2)
      end
  | (Raised e, rt1) => (Raised e, rt1)
  | (Blocked, rt1) => (Blocked, rt1)
  end.
Proof.
  unfold fetch_full_card at 1. rewrite exec_bind.
  destruct (exec (fetch_card_data card) rt) as [[l|e|] rt1]; try done.
  change (exec (read ≫= ?f) rt1) with (exec (f (mem rt1)) rt1).
  cbv beta. rewrite exec_bind.
  destruct (exec (fetch_rulings _) rt1) as [[rs|e|] rt2]; done.
Qed.

(** The four ways a call of [fetch_card_data] can go. *)
Lemma fetch_card_data_cases card rt o rt1 :
  exec (fetch_card_data card) rt = (o, rt1) →
  (∃ cached, _card_cache (mem rt) !! card = Some cached
     ∧ o = Returned cached ∧ rt1 = rt)
  ∨ (_card_cache (mem rt) !! card = None ∧ locked rt = true
     ∧ o = Blocked ∧ rt1 = rt)
  ∨ (_card_cache (mem rt) !! card = None ∧ locked rt = false
     ∧ ∃ e, card_of_reply card (upstream (length (sent rt)) (card_request card)) = inl e
       ∧ o = Raised e
       ∧ rt1 = Runtime (mem rt) false (clock rt + Z.max 0 rate_limit_ms)
                 (sent rt ++ [card_request card]))
  ∨ (_card_cache (mem rt) !! card = None ∧ locked rt = false
     ∧ ∃ c, card_of_reply card (upstream (length (sent rt)) (card_request card)) = inr c
       ∧ o = Returned (length (heap (mem rt)))
       ∧ rt1 = Runtime (Memory (<[card := length (heap (mem rt))]> (_card_cache (mem rt)))
                          (_rulings_cache (mem rt)) (heap (mem rt) ++ [c]))
                 false (clock rt + Z.max 0 rate_limit_ms)
                 (sent rt ++ [card_request card])).
Proof.
  intros H.
  destruct (_card_cache (mem rt) !! card) as [l|] eqn:C.
  { rewrite (fetch_card_data_hit _ _ _ C) in H. simplify_eq. left. eauto. }
  destruct (locked rt) eqn:L.
  { rewrite fetch_card_data_blocked in H by done. simplify_eq. right; left. eauto. }
  rewrite fetch_card_data_miss in H by done.
  destruct (card_of_reply _ _) as [e|c] eqn:R; simplify_eq.
  - right; right; left. eauto 10.
  - right; right; right. eauto 10.
Qed.

(** The five ways a call of [fetch_rulings] can go. *)
Lemma fetch_rulings_cases card_id rt o rt1 :
  exec (fetch_rulings card_id) rt = (o, rt1) →
  (py_hash card_id = inl TypeError ∧ o = Raised TypeError ∧ rt1 = rt)
  ∨ ∃ key, py_hash card_id = inr key ∧
    ((∃ cached, _rulings_cache (mem rt) !! key = Some cached
        ∧ o = Returned cached ∧ rt1 = rt)
     ∨ (_rulings_cache (mem rt) !! key = None ∧ locked rt = true
        ∧ o = Blocked ∧ rt1 = rt)
     ∨ (_rulings_cache (mem rt) !! key = None ∧ locked rt = false
        ∧ ∃ e, rulings_of_reply py_repr card_id
                 (upstream (length (sent rt)) (rulings_request py_repr card_id)) = inl e
          ∧ o = Raised e
          ∧ rt1 = Runtime (mem rt) false (clock rt + Z.max 0 rate_limit_ms)
                    (sent rt ++ [rulings_request py_repr card_id]))
     ∨ (_rulings_cache (mem rt) !! key = None ∧ locked rt = false
        ∧ ∃ rs, rulings_of_reply py_repr card_id
                  (upstream (length (sent rt)) (rulings_request py_repr card_id)) = inr rs
          ∧ o = Returned rs
          ∧ rt1 = Runtime (Memory (_card_cache (mem rt))
                             (<[key := rs]> (_rulings_cache (mem rt)))
                             (heap (mem rt)))
                    false (clock rt + Z.max 0 rate_limit_ms)
                    (sent rt ++ [rulings_request py_repr card_id]))).
Proof.
  intros H.
  destruct (py_hash card_id) as [e|key] eqn:K.
  { assert (e = TypeError) as -> by (destruct card_id; simpl in K; congruence).
    rewrite (fetch_rulings_unhashable _ _ _ K) in H. simplify_eq. by left. }
  right. exists key. split; [done|].
  destruct (_rulings_cache (mem rt) !! key) as [cached|] eqn:C.
  { rewrite (fetch_rulings_hit _ _ _ _ K C) in H. simplify_eq. left. eauto. }
  destruct (locked rt) eqn:L.
  { rewrite (fetch_rulings_blocked _ _ _ K C L) in H. simplify_eq.
    right; left. eauto. }
  rewrite (fetch_rulings_miss _ _ _ K C L) in H.
  destruct (rulings_of_reply _ _ _) as [e|rs] eqn:R; simplify_eq.
  - right; right; left. eauto 10.
  - right; right; right. eauto 10.
Qed.

(** *** References stay valid *)

Lemma fetch_card_data_wf card rt o rt1 :
  wf_memory (mem rt) →
  exec (fetch_card_data card) rt = (o, rt1) →
  wf_memory (mem rt1)
  ∧ ∀ l, o = Returned l →
      (l < length (heap (mem rt1)))%nat ∧ _card_cache (mem rt1) !! card = Some l.
Proof.
  intros W H.
  destruct (fetch_card_data_cases _ _ _ _ H)
    as [(l & C & -> & ->)|[(C & L & -> & ->)|[(C & L & e & R & -> & ->)
       |(C & L & c & R & -> & ->)]]]; simpl.
  - split; [done|]. intros ? [= <-]. eauto.
  - done.
  - done.
  - split.
    + intros card' l'. simpl. rewrite length_app. simpl.
      destruct (decide (card = card')) as [->|Hne].
      * rewrite lookup_insert_eq. intros [= <-]. lia.
      * rewrite lookup_insert_ne by done. intros Hl. apply W in Hl. lia.
    + intros ? [= <-]. rewrite length_app, lookup_insert_eq. simpl. split; [lia|done].
Qed.

Lemma fetch_rulings_mem card_id rt o rt1 :
  exec (fetch_rulings card_id) rt = (o, rt1) →
  heap (mem rt1) = heap (mem rt) ∧ _card_cache (mem rt1) = _card_cache (mem rt).
Proof.
  intros H.
  destruct (fetch_rulings_cases _ _ _ _ H)
    as [(_ & _ & ->)|(key & _ & [(? & _ & _ & ->)|[(_ & _ & _ & ->)
       |[(_ & _ & ? & _ & _ & ->)|(_ & _ & ? & _ & _ & ->)]]])]; done.
Qed.

Lemma fetch_full_card_wf card rt o rt1 :
  wf_memory (mem rt) →
  exec (fetch_full_card card) rt = (o, rt1) →
  wf_memory (mem rt1).
Proof.
  intros W H. rewrite fetch_full_card_unfold in H.
  destruct (exec (fetch_card_data card) rt) as [o1 rt2] eqn:H1.
  destruct (fetch_card_data_wf _ _ _ _ W H1) as [W2 _].
  destruct o1 as [l|e|]; simplify_eq; try done.
  destruct (exec (fetch_rulings _) rt2) as [o2 rt3] eqn:H2.
  destruct (fetch_rulings_mem _ _ _ _ H2) as [Hh Hc].
  assert (wf_memory (mem rt3)) as W3.
  { intros c' l'. rewrite Hh, Hc. apply W2. }
  destruct o2 as [rs|e|]; simplify_eq; try done.
  intros c' l'. simpl. rewrite length_alter. apply W3.
Qed.

(** *** Cache hits *)

(** C3. After a successful [fetch_card_data] for a name, a second call with
    the same name returns the same cached object and leaves the service as
    it is: it sends nothing.  The two calls together send at most one
    request. *)
Theorem fetch_card_data_twice card rt cached rt1 :
  exec (fetch_card_data card) rt = (Returned cached, rt1) →
  exec (fetch_card_data card) rt1 = (Returned cached, rt1)
  ∧ sent (exec (fetch_card_data card) rt1).2 = sent rt1
  ∧ (length (sent rt1) ≤ length (sent rt) + 1)%nat.
Proof.
  intros H.
  destruct (_card_cache (mem rt) !! card) as [l|] eqn:C.
  - rewrite (fetch_card_data_hit _ _ _ C) in H. simplify_eq.
    rewrite (fetch_card_data_hit _ _ _ C). split; [done|]. split; [done|lia].
  - destruct (locked rt) eqn:L.
    + by rewrite fetch_card_data_blocked in H.
    + rewrite fetch_card_data_miss in H by done.
      destruct (card_of_reply _ _) as [e|c]; simplify_eq.
      rewrite (fetch_card_data_hit _ _ (length (heap (mem rt))))
        by (simpl; by rewrite lookup_insert_eq).
      split; [done|]. split; [done|].
      simpl. rewrite length_app. simpl. lia.
Qed.

(** *** Rulings *)

Lemma append_rulings_entries items entries clean_rulings :
  Forall2 ruling_entry items entries →
  append_rulings py_repr items clean_rulings
    = inr (clean_rulings ++ map formatted entries)%list.
Proof.
  intros H. revert clean_rulings.
  induction H as [|ruling [d c] items entries (members & -> & Hd & Hc) _ IH];
    intros clean_rulings; simpl.
  - by rewrite app_nil_r.
  - simpl in Hd, Hc. rewrite Hd, Hc. simpl.
    rewrite IH, <- app_assoc. done.
Qed.

(** C4. When the id is not cached and upstream answers 200 with a list of
    ruling entries, [fetch_rulings] returns one string per entry, each
    [[date] comment], in upstream order.  With no entries (an empty
    ["data"] list, or no ["data"] member at all) [entries] is empty and
    the call returns the empty list. *)
Theorem fetch_rulings_formats card_id key rt resp payload items entries :
  py_hash card_id = inr key →
  _rulings_cache (mem rt) !! key = None →
  locked rt = false →
  upstream (length (sent rt)) (rulings_request py_repr card_id) = Answer resp →
  status_code resp = 200 →
  body resp = Some payload →
  py_get payload "data" (JArr []) = inr (JArr items) →
  Forall2 ruling_entry items entries →
  (exec (fetch_rulings card_id) rt).1 = Returned (map formatted entries)
  ∧ length (map formatted entries) = length items.
Proof.
  intros Hk C L Hr Hs Hb Hd He.
  rewrite (fetch_rulings_miss _ _ _ Hk C L), Hr.
  unfold rulings_of_reply. rewrite decide_False by (rewrite Hs; auto).
  rewrite Hb. simpl. rewrite Hd. simpl.
  rewrite (append_rulings_entries _ _ _ He). simpl.
  split; [done|]. rewrite length_map. symmetry. by eapply Forall2_length.
Qed.

(** *** The full fetch *)

(** What a returning [fetch_full_card] leaves behind. *)
Lemma fetch_full_card_returned card rt l rt' :
  wf_memory (mem rt) →
  exec (fetch_full_card card) rt = (Returned l, rt') →
  _card_cache (mem rt') !! card = Some l
  ∧ ∃ d rulings, heap (mem rt') !! l = Some d ∧ c_rulings d = Some rulings.
Proof.
  intros W H. rewrite fetch_full_card_unfold in H.
  destruct (exec (fetch_card_data card) rt) as [o1 rt1] eqn:H1.
  destruct (fetch_card_data_wf _ _ _ _ W H1) as [_ Hl].
  destruct o1 as [l1|e|]; simplify_eq.
  destruct (Hl l1 eq_refl) as [Hlt Hc].
  destruct (exec (fetch_rulings _) rt1) as [o2 rt2] eqn:H2.
  destruct (fetch_rulings_mem _ _ _ _ H2) as [Hh Hc'].
  destruct o2 as [rs|e|]; simplify_eq. simpl.
  split; [by rewrite Hc'|].
  rewrite <- Hh in Hlt. apply lookup_lt_is_Some_2 in Hlt as [d Hd].
  exists (set_rulings rs d), rs. split; [|done].
  by rewrite list_lookup_alter_eq, Hd.
Qed.

(** C5. When the card lookup fails, [fetch_full_card] fails with the same
    error in the same state: the one request sent is the card request, the
    rulings endpoint is not called.  And whenever [fetch_full_card]
    returns, the object it returns has its rulings attached: the caller
    gets a complete record or an exception. *)
Theorem fetch_full_card_all_or_nothing card rt :
  wf_memory (mem rt) →
  (∀ e rt1, exec (fetch_card_data card) rt = (Raised e, rt1) →
     exec (fetch_full_card card) rt = (Raised e, rt1)
     ∧ sent rt1 = sent rt ++ [card_request card])
  ∧ (∀ l rt', exec (fetch_full_card card) rt = (Returned l, rt') →
       ∃ d rulings, heap (mem rt') !! l = Some d ∧ c_rulings d = Some rulings).
Proof.
  intros W. split.
  - intros e rt1 H. rewrite fetch_full_card_unfold, H. split; [done|].
    destruct (fetch_card_data_cases _ _ _ _ H)
      as [(? & _ & ? & _)|[(_ & _ & ? & _)|[(_ & _ & ? & _ & _ & ->)
         |(_ & _ & ? & _ & ? & _)]]]; done.
  - intros l rt' H.
    destruct (fetch_full_card_returned _ _ _ _ W H) as (_ & d & rs & Hd & Hr).
    eauto.
Qed.

(** *** Failures *)

(** C10. Failed lookups are not cached, each lookup on its own.  A card
    lookup that fails on a non-200 status leaves the service's memory, both
    caches included, as it was; the name is still absent, so the next call
    with the same name sends a fresh request (to which upstream, which sees
    one more request behind it, may answer otherwise).  The same holds of a
    rulings lookup and its id.  Neither half assumes anything about the
    other lookup. *)
Theorem failed_lookups_are_not_cached :
  (∀ card rt resp,
     locked rt = false →
     _card_cache (mem rt) !! card = None →
     upstream (length (sent rt)) (card_request card) = Answer resp →
     status_code resp ≠ 200 →
     let (o1, rt1) := exec (fetch_card_data card) rt in
     o1 = Raised (CardFetchError ("Card '" +:+ card +:+ "' not found in Scryfall database."))
     ∧ mem rt1 = mem rt
     ∧ _card_cache (mem rt1) !! card = None
     ∧ sent (exec (fetch_card_data card) rt1).2
         = sent rt1 ++ [card_request card])
  ∧ (∀ card_id key rt resp,
       locked rt = false →
       py_hash card_id = inr key →
       _rulings_cache (mem rt) !! key = None →
       upstream (length (sent rt)) (rulings_request py_repr card_id) = Answer resp →
       status_code resp ≠ 200 →
       let (o2, rt2) := exec (fetch_rulings card_id) rt in
       o2 = Raised (CardFetchError
                      ("Card ID '" +:+ py_str py_repr card_id
                         +:+ "' not found in Scryfall database."))
       ∧ mem rt2 = mem rt
       ∧ _rulings_cache (mem rt2) !! key = None
       ∧ sent (exec (fetch_rulings card_id) rt2).2
           = sent rt2 ++ [rulings_request py_repr card_id]).
Proof.
  split.
  - intros card rt resp L C R S.
    rewrite (fetch_card_data_miss _ _ C L), R.
    unfold card_of_reply. rewrite decide_True by done.
    repeat split; [done|].
    rewrite fetch_card_data_miss by done.
    by destruct (card_of_reply _ _).
  - intros card_id key rt resp L K C R S.
    rewrite (fetch_rulings_miss _ _ _ K C L), R.
    unfold rulings_of_reply. rewrite decide_True by done.
    repeat split; [done|].
    rewrite (fetch_rulings_miss _ key) by done.
    by destruct (rulings_of_reply _ _ _).
Qed.

(** C6, as the code has it.  Nothing is checked before the request: with
    any name, the empty one included, and with any id string, a call that
    misses the cache sends its request, and the reply alone decides how
    the call ends. *)
Theorem input_is_not_validated (card card_id : string) rt :
  locked rt = false →
  _card_cache (mem rt) !! card = None →
  _rulings_cache (mem rt) !! KStr card_id = None →
  let (o1, rt1) := exec (fetch_card_data card) rt in
  let (o2, rt2) := exec (fetch_rulings (JStr card_id)) rt in
  (sent rt1 = sent rt ++ [card_request card]
   ∧ o1 = match card_of_reply card (upstream (length (sent rt)) (card_request card)) with
          | inl e => Raised e
          | inr _ => Returned (length (heap (mem rt)))
          end)
  ∧ (sent rt2 = sent rt ++ [rulings_request py_repr (JStr card_id)]
     ∧ o2 = match rulings_of_reply py_repr (JStr card_id)
                  (upstream (length (sent rt)) (rulings_request py_repr (JStr card_id))) with
            | inl e => Raised e
            | inr rulings => Returned rulings
            end).
Proof.
  intros L C C'.
  rewrite (fetch_card_data_miss _ _ C L).
  rewrite (fetch_rulings_miss (JStr card_id) (KStr card_id) _ eq_refl C' L).
  destruct (card_of_reply _ _), (rulings_of_reply _ _ _); done.
Qed.

(** *** Extraction *)

Lemma card_metadata_literal_object members :
  object_or_absent "image_uris" members →
  object_or_absent "legalities" members →
  card_metadata_literal (JObj members) = inr (extracted members).
Proof.
  unfold object_or_absent, card_metadata_literal, extracted, submember, member.
  intros Hi Hl. simpl.
  destruct (assoc "image_uris" members) as [[]|];
    destruct (assoc "legalities" members) as [[]|]; done.
Qed.

(** C7, as the code has it.  From a 200 payload that is an object whose
    ["image_uris"] and ["legalities"] members are objects when present,
    [fetch_card_data] builds the record [extracted]: each member that the
    payload lacks is [None].  Without ["image_uris"] the record still has
    its image-URL dict, all three variants [None]. *)
Theorem fetch_card_data_extracts card rt resp members :
  _card_cache (mem rt) !! card = None →
  locked rt = false →
  upstream (length (sent rt)) (card_request card) = Answer resp →
  status_code resp = 200 →
  body resp = Some (JObj members) →
  object_or_absent "image_uris" members →
  object_or_absent "legalities" members →
  ∃ l rt', exec (fetch_card_data card) rt = (Returned l, rt')
    ∧ heap (mem rt') !! l = Some (extracted members)
    ∧ (∀ key, assoc key members = None → member key members = JNull)
    ∧ (assoc "image_uris" members = None →
       c_image_url (extracted members) = ImageUrl JNull JNull JNull).
Proof.
  intros C L R S B Hi Hl.
  rewrite (fetch_card_data_miss _ _ C L), R.
  unfold card_of_reply. rewrite decide_False by (rewrite S; auto).
  rewrite B, card_metadata_literal_object by done.
  eexists _, _. split; [done|]. simpl. split; [|split].
  - by rewrite lookup_app_r, Nat.sub_diag.
  - intros key Hk. unfold member. by rewrite Hk.
  - intros Hk. unfold extracted, submember. by rewrite Hk.
Qed.

(** *** The caches only grow *)

Lemma same_card_trans d1 d2 d3 : same_card d1 d2 → same_card d2 d3 → same_card d1 d3.
Proof.
  intros [->|[rs ->]] [->|[rs' ->]]; [by left|right; eauto..].
Qed.

Lemma persists_refl m : persists m m.
Proof. repeat split; eauto. intros l d H. exists d. split; [done|by left]. Qed.

Lemma persists_trans m1 m2 m3 : persists m1 m2 → persists m2 m3 → persists m1 m3.
Proof.
  intros (A1 & B1 & C1) (A2 & B2 & C2). repeat split; eauto.
  intros l d H. destruct (C1 _ _ H) as (d' & H' & S').
  destruct (C2 _ _ H') as (d'' & H'' & S''). eauto using same_card_trans.
Qed.

Lemma fetch_card_data_persists card rt o rt1 :
  wf_memory (mem rt) →
  exec (fetch_card_data card) rt = (o, rt1) → persists (mem rt) (mem rt1).
Proof.
  intros W H.
  destruct (fetch_card_data_cases _ _ _ _ H)
    as [(l & C & -> & ->)|[(C & L & -> & ->)|[(C & L & e & R & -> & ->)
       |(C & L & c & R & -> & ->)]]]; try apply persists_refl.
  repeat split; simpl; [|done|].
  - intros card' l' Hl. rewrite lookup_insert_ne; [done|]. congruence.
  - intros l d Hl. exists d. split; [|by left].
    by apply lookup_app_l_Some.
Qed.

Lemma fetch_rulings_persists card_id rt o rt1 :
  exec (fetch_rulings card_id) rt = (o, rt1) → persists (mem rt) (mem rt1).
Proof.
  intros H.
  destruct (fetch_rulings_cases _ _ _ _ H)
    as [(_ & _ & ->)|(key & _ & [(? & _ & _ & ->)|[(_ & _ & _ & ->)
       |[(_ & _ & ? & _ & _ & ->)|(C & _ & ? & _ & _ & ->)]]])];
    try apply persists_refl.
  repeat split; simpl; [done| |].
  - intros key' rs' Hl. rewrite lookup_insert_ne; [done|]. congruence.
  - intros l d Hl. exists d. split; [done|by left].
Qed.

Lemma assign_rulings_persists l rs m : persists m (assign_rulings l rs m).
Proof.
  repeat split; simpl; [done..|].
  intros l' d Hl. destruct (decide (l = l')) as [->|Hne].
  - exists (set_rulings rs d). rewrite list_lookup_alter_eq, Hl. split; [done|].
    right. eauto.
  - exists d. rewrite list_lookup_alter_ne by done. split; [done|by left].
Qed.

Lemma fetch_full_card_persists card rt o rt1 :
  wf_memory (mem rt) →
  exec (fetch_full_card card) rt = (o, rt1) → persists (mem rt) (mem rt1).
Proof.
  intros W H. rewrite fetch_full_card_unfold in H.
  destruct (exec (fetch_card_data card) rt) as [o1 rt2] eqn:H1.
  pose proof (fetch_card_data_persists _ _ _ _ W H1) as P1.
  destruct o1 as [l|e|]; simplify_eq; try done.
  destruct (exec (fetch_rulings _) rt2) as [o2 rt3] eqn:H2.
  pose proof (fetch_rulings_persists _ _ _ _ H2) as P2.
  destruct o2 as [rs|e|]; simplify_eq; eauto using persists_trans.
  eapply persists_trans; [done|]. eapply persists_trans; [done|].
  apply assign_rulings_persists.
Qed.

Lemma after_call_persists rt c :
  wf_memory (mem rt) →
  wf_memory (mem (after_call rate_limit_ms py_repr upstream rt c))
  ∧ persists (mem rt) (mem (after_call rate_limit_ms py_repr upstream rt c)).
Proof.
  intros W. destruct c as [card|card_id|card]; unfold after_call.
  - destruct (exec (fetch_card_data card) rt) as [o rt1] eqn:H. cbn [snd].
    split; [exact (proj1 (fetch_card_data_wf _ _ _ _ W H))
           |exact (fetch_card_data_persists _ _ _ _ W H)].
  - destruct (exec (fetch_rulings card_id) rt) as [o rt1] eqn:H. cbn [snd].
    split; [|by eapply fetch_rulings_persists].
    destruct (fetch_rulings_mem _ _ _ _ H) as [Hh Hc].
    intros c l. rewrite Hh, Hc. apply W.
  - destruct (exec (fetch_full_card card) rt) as [o rt1] eqn:H. cbn [snd].
    split; [exact (fetch_full_card_wf _ _ _ _ W H)
           |exact (fetch_full_card_persists _ _ _ _ W H)].
Qed.

Lemma after_calls_persists rt calls :
  wf_memory (mem rt) →
  wf_memory (mem (after_calls rate_limit_ms py_repr upstream rt calls))
  ∧ persists (mem rt) (mem (after_calls rate_limit_ms py_repr upstream rt calls)).
Proof.
  revert rt. induction calls as [|c calls IH]; intros rt W; cbn [after_calls foldl].
  - split; [done|apply persists_refl].
  - destruct (after_call_persists rt c W) as [W1 P1].
    destruct (IH _ W1) as [W2 P2]. split; [done|]. by eapply persists_trans.
Qed.

(** C8, as the code has it.  A successful [fetch_card_data] leaves the
    object it returns in the name cache, under the name it was called
    with.  Through any later calls awaited one after the other, a binding
    of either cache is never removed or rebound, and a cached object keeps
    all its members but ["rulings"].  The name cache holds the very object
    that is handed out: after a successful [fetch_full_card] the cached
    record carries the rulings. *)
Theorem cache_entries_persist card rt calls :
  wf_memory (mem rt) →
  (∀ l rt1, exec (fetch_card_data card) rt = (Returned l, rt1) →
     _card_cache (mem rt1) !! card = Some l)
  ∧ persists (mem rt) (mem (after_calls rate_limit_ms py_repr upstream rt calls))
  ∧ (∀ l rt1, exec (fetch_full_card card) rt = (Returned l, rt1) →
       _card_cache (mem rt1) !! card = Some l
       ∧ ∃ d rulings, cached_record (mem rt1) card = Some d
           ∧ c_rulings d = Some rulings).
Proof.
  intros W. split; [|split].
  - intros l rt1 H. by apply (fetch_card_data_wf _ _ _ _ W H).
  - by apply after_calls_persists.
  - intros l rt1 H.
    destruct (fetch_full_card_returned _ _ _ _ W H) as (Hc & d & rs & Hd & Hr).
    split; [done|]. exists d, rs. split; [|done].
    unfold cached_record. by rewrite Hc.
Qed.

End Sequential.

(** ** Tasks on the loop *)

Section Loop.
Variable upstream : nat → request → reply.
Context {A : Type}.
Implicit Types (s : sys A) (a : action) (t : task A).

Lemma sys_run_snoc s schedule a :
  sys_run upstream s (schedule ++ [a]) = sys_step upstream (sys_run upstream s schedule) a.
Proof. unfold sys_run. by rewrite foldl_app. Qed.

Local Abbreviation sys_step := (sys_step upstream).
Local Abbreviation sys_run := (sys_run upstream).

(** An invariant of the steps holds after every schedule. *)
Lemma sys_run_ind (P : sys A → Prop) s schedule :
  P s → (∀ s' a, P s' → P (sys_step s' a)) → P (sys_run s schedule).
Proof.
  intros H0 Hstep. induction schedule as [|a schedule IH] using rev_ind.
  - done.
  - rewrite sys_run_snoc. by apply Hstep.
Qed.

Lemma sys_step_length s a : length (tasks (sys_step s a)) = length (tasks s).
Proof.
  destruct a as [i q|ms]; simpl; [|done].
  destruct (tasks s !! i) as [t|]; [|done].
  destruct (resume upstream q t (rt s)) as [[t' rt']|]; [|done].
  simpl. by rewrite length_insert.
Qed.

Lemma sys_run_length s schedule : length (tasks (sys_run s schedule)) = length (tasks s).
Proof.
  apply (sys_run_ind (λ s', length (tasks s') = length (tasks s))); [done|].
  intros s' a IH. by rewrite sys_step_length.
Qed.

(** A turn of one task leaves every other task as it is: nothing in the
    loop cancels a task. *)
Lemma sys_step_untouched s a j :
  untouched a j → tasks (sys_step s a) !! j = tasks s !! j.
Proof.
  destruct a as [i q|ms]; simpl; [|done]. intros Hne.
  destruct (tasks s !! i) as [t|]; [|done].
  destruct (resume upstream q t (rt s)) as [[t' rt']|]; [|done].
  simpl. by rewrite list_lookup_insert_ne.
Qed.

(** A finished task stays as it is. *)
Lemma sys_step_done s a i r :
  tasks s !! i = Some (Done r) → tasks (sys_step s a) !! i = Some (Done r).
Proof.
  intros H. destruct a as [j q|ms]; simpl; [|done].
  destruct (decide (j = i)) as [->|Hne].
  - by rewrite H.
  - destruct (tasks s !! j) as [t|]; [|done].
    destruct (resume upstream q t (rt s)) as [[t' rt']|]; [|done].
    simpl. by rewrite list_lookup_insert_ne.
Qed.

Lemma is_done_true t : is_done t = true ↔ ∃ r, t = Done r.
Proof. destruct t; simpl; split; try done; eauto; by intros [? ?]. Qed.

Lemma sys_step_completed_ok s a : completed_ok s → completed_ok (sys_step s a).
Proof.
  intros [Hnd Hc]. destruct a as [i q|ms]; simpl; [|done].
  destruct (tasks s !! i) as [t|] eqn:Ht; [|done].
  destruct (resume upstream q t (rt s)) as [[t' rt']|] eqn:Hr; [|done].
  assert (i ∉ completed s) as Hi.
  { intros [r Hd]%Hc. rewrite Ht in Hd. simplify_eq. }
  assert (i < length (tasks s))%nat as Hlt by by eapply lookup_lt_Some.
  split; simpl.
  - destruct (is_done t'); [|done].
    apply NoDup_app. repeat split; [done| |apply NoDup_singleton].
    intros x Hx ->%list_elem_of_singleton. done.
  - intros j. destruct (decide (j = i)) as [->|Hne].
    + rewrite list_lookup_insert_eq by done.
      destruct (is_done t') eqn:Hd.
      * apply is_done_true in Hd as [r ->]. split; [eauto|].
        intros _. apply elem_of_app. right. by apply list_elem_of_singleton.
      * split; [done|]. intros [r [= ->]]. done.
    + rewrite list_lookup_insert_ne by done. rewrite <- Hc.
      destruct (is_done t'); [|done].
      rewrite elem_of_app, list_elem_of_singleton. tauto.
Qed.

Lemma sys_run_completed_ok s schedule :
  completed_ok s → completed_ok (sys_run s schedule).
Proof. intros H. apply sys_run_ind; [done|]. intros. by apply sys_step_completed_ok. Qed.

End Loop.

(** ** The permit *)

Section Discipline.
Variable rate_limit_ms : Z.
Variable py_repr : json → string.

Local Abbreviation gated := (gated rate_limit_ms).
Local Abbreviation inside := (inside rate_limit_ms).

Lemma gated_bind {A B} ph (p : prog A) (f : A → prog B) :
  gated ph p → (∀ a, gated Outside (f a)) → gated ph (p ≫= f).
Proof.
  intros Hp Hf. unfold mbind, prog_bind.
  induction Hp; simpl; try (constructor; by eauto). apply Hf.
Qed.

Lemma inside_bind {A B} ph (p : prog A) (f : A → prog B) :
  inside ph p → (∀ a, inside Served (f a)) → inside ph (p ≫= f).
Proof.
  intros Hp Hf. unfold mbind, prog_bind.
  induction Hp; simpl; try (constructor; by eauto). apply Hf.
Qed.

Lemma gated_releasing {A} ph (body : prog A) :
  inside ph body → gated ph (releasing body).
Proof. induction 1; simpl; repeat (constructor; eauto). Qed.

Lemma gated_async_with_lock {A} (body : prog A) :
  inside Holding body → gated Outside (async_with_lock body).
Proof. intros H. constructor. by apply gated_releasing. Qed.

Lemma inside_lift {A} (r : result A) : inside Served (lift r).
Proof. destruct r; constructor. Qed.

Lemma inside_client_get {A} u ps (f : response → prog A) :
  (∀ resp, inside Served (f resp)) → inside Paced (client_get u ps ≫= f).
Proof.
  intros Hf. unfold client_get, mbind, prog_bind. simpl. constructor.
  intros [resp|e]; simpl; [apply Hf|constructor].
Qed.

Lemma inside_sleep_then {A} (p : prog A) :
  inside Paced p → inside Holding (sleep rate_limit_ms ≫= λ _, p).
Proof. intros H. unfold sleep, mbind, prog_bind. simpl. by constructor. Qed.

Lemma inside_response_json {A} resp (f : json → prog A) :
  (∀ v, inside Served (f v)) → inside Served (response_json resp ≫= f).
Proof.
  intros Hf. unfold response_json. destruct (body resp); [apply Hf|constructor].
Qed.

Lemma fetch_card_data_gated card :
  gated Outside (fetch_card_data rate_limit_ms card).
Proof.
  unfold fetch_card_data. constructor. intros m.
  destruct (_card_cache m !! card); [constructor|].
  apply gated_bind.
  - apply gated_async_with_lock, inside_sleep_then, inside_client_get.
    intros resp. destruct (decide _); [constructor|].
    apply inside_response_json. intros data.
    apply inside_bind; [apply inside_lift|].
    intros c. repeat constructor.
  - intros l. repeat constructor.
Qed.

Lemma fetch_rulings_gated card_id :
  gated Outside (fetch_rulings rate_limit_ms py_repr card_id).
Proof.
  unfold fetch_rulings. destruct (py_hash card_id) as [e|key]; [constructor|].
  constructor. intros m.
  destruct (_rulings_cache m !! key); [constructor|].
  apply gated_bind.
  - apply gated_async_with_lock, inside_sleep_then, inside_client_get.
    intros resp. destruct (decide _); [constructor|].
    apply inside_response_json. intros payload.
    apply inside_bind; [apply inside_lift|]. intros data.
    apply inside_bind; [apply inside_lift|]. intros items.
    apply inside_lift.
  - intros rs. repeat constructor.
Qed.

Lemma fetch_full_card_gated card :
  gated Outside (fetch_full_card rate_limit_ms py_repr card).
Proof.
  unfold fetch_full_card. apply gated_bind; [apply fetch_card_data_gated|].
  intros l. constructor. intros m.
  apply gated_bind; [apply fetch_rulings_gated|].
  intros rs. repeat constructor.
Qed.

End Discipline.

Section Pacing.
Variable delay : Z.
Variable upstream : nat → request → reply.
Context {A : Type}.
Implicit Types (s : sys A) (t : task A) (p : prog A).

Lemma run_gated queue ph p rt t rt' :
  gated delay ph p →
  (ph ≠ Outside → locked rt = true) →
  run upstream queue p rt = (t, rt') →
  turn_summary delay ph rt t rt'.
Proof.
  intros Hp. revert rt.
  induction Hp as [a|e|ph k _ IH|ph f k _ IH|k Hk IH|k Hk _|req k Hk _|k _ IH];
    intros rt Hl Hrun; simpl in Hrun.
  - simplify_eq. repeat split; done.
  - simplify_eq. repeat split; done.
  - by apply (IH (mem rt)).
  - specialize (IH (with_mem f rt) Hl Hrun).
    destruct IH as (? & ? & ?). repeat split; done.
  - destruct (locked rt) eqn:L; simpl in Hrun.
    { simplify_eq. repeat split; done. }
    destruct queue; simpl in Hrun.
    { simplify_eq. repeat split; done. }
    destruct (IH (with_locked true rt) (λ _, eq_refl) Hrun) as (? & ? & ? & Hin & Hout).
    repeat split; try done.
    + by apply Hin.
    + by apply Hin.
    + intros Hf. by rewrite (Hout Hf).
  - simplify_eq. split; [done|]. split; [done|]. split; [done|].
    split; [|done]. intros _. split; [by apply Hl|]. split; [done|]. eauto.
  - simplify_eq. split; [apply Hk|]. split; [done|].
    split; [eauto|]. split; [|done]. simpl. rewrite length_app. simpl. lia.
  - destruct (IH (with_locked false rt) (λ H, False_ind _ (H eq_refl)) Hrun)
      as (? & ? & ? & Hin & Hout).
    repeat split; try done.
    + by apply Hin.
    + by apply Hin.
Qed.

(** One turn of a task, summed up. *)
Lemma resume_gated queue t rt t' rt' :
  task_gated delay t →
  (in_gate t = true → locked rt = true) →
  resume upstream queue t rt = Some (t', rt') →
  turn_summary delay (phase_of t) rt t' rt'
  ∧ (∀ k, t = Waiting k → locked rt = false)
  ∧ (∀ wake k, t = Sleeping wake k → (wake ≤ clock rt)%Z).
Proof.
  intros Hg Hl Hr. destruct t as [p|k|wake k|r k|r]; simpl in *.
  - injection Hr as Hr. split; [|done]. by eapply run_gated.
  - destruct (locked rt) eqn:L; [done|]. injection Hr as Hr.
    split; [|done].
    destruct (run_gated queue Holding k (with_locked true rt) t' rt' Hg (λ _, eq_refl) Hr)
      as (Hg' & Hc & Hs & Hin & Hout).
    split; [done|]. split; [done|]. split; [done|]. split; [|done].
    intros Hi. destruct (Hin Hi) as (? & _ & ?). done.
  - destruct (decide (wake ≤ clock rt)%Z); [|done]. injection Hr as Hr.
    split; [|split; [done|by intros ?? [= <- _]]].
    eapply run_gated; [done| |done]. auto.
  - injection Hr as Hr. split; [|done]. eapply run_gated; [done| |done]. auto.
  - done.
Qed.

(** The same, in the form the invariant needs. *)
Lemma turn_facts queue t rt t' rt' :
  task_gated delay t →
  (in_gate t = true → locked rt = true) →
  resume upstream queue t rt = Some (t', rt') →
  task_gated delay t'
  ∧ clock rt' = clock rt
  ∧ length (sent rt') = (length (sent rt) + if is_sleeping t then 1 else 0)%nat
  ∧ (in_gate t' = true → locked rt' = true)
  ∧ (in_gate t' = true → in_gate t = false → locked rt = false)
  ∧ (in_gate t = false → in_gate t' = false → locked rt' = locked rt)
  ∧ (∀ wake k, t' = Sleeping wake k →
       is_sleeping t = false ∧ wake = (clock rt + Z.max 0 delay)%Z)
  ∧ (∀ wake k, t = Sleeping wake k → (wake ≤ clock rt)%Z)
  ∧ (in_gate t = true → in_gate t' = false → locked rt' = false).
Proof.
  intros Hg Hl Hr.
  destruct (resume_gated queue t rt t' rt' Hg Hl Hr) as ((Hg' & Hc & Hph) & Hw & Hs).
  split; [done|]. split; [done|].
  destruct t as [p|k|wake k|r k|r]; simpl in *; try done.
  - destruct Hph as (Hsent & Hin & Hout).
    rewrite Hsent, Nat.add_0_r. split_and!; try done.
    + intros Hi. by apply Hin.
    + intros Hi _. by apply Hin.
    + intros wake k ->. destruct (Hin eq_refl) as (_ & _ & k' & ?). by simplify_eq.
  - destruct Hph as (Hsent & Hin & Hout).
    rewrite Hsent, Nat.add_0_r. split_and!; try done.
    + intros Hi. by apply Hin.
    + intros _ _. by eapply Hw.
    + intros _ Hi. rewrite (Hout Hi). symmetry. by eapply Hw.
    + intros wake k' ->. destruct (Hin eq_refl) as (_ & _ & k'' & ?). by simplify_eq.
  - destruct Hph as ((r & k' & ->) & Hsent & Hlock).
    rewrite Hsent. split_and!; try done.
    + lia.
    + intros _. rewrite Hlock. by apply Hl.
  - destruct Hph as (Hsent & Hin & Hout).
    rewrite Hsent, Nat.add_0_r. split_and!; try done.
    + intros Hi. by apply Hin.
    + intros wake k' ->. destruct (Hin eq_refl) as (_ & _ & k'' & ?). by simplify_eq.
Qed.

Lemma sys_step_gate_inv start before s a :
  gate_inv delay start before s →
  gate_inv delay start before (sys_step upstream s a).
Proof.
  intros (Hg & (Hu & Hl & Hh) & [Ht1 Ht2]). destruct a as [i queue|ms]; simpl.
  - destruct (tasks s !! i) as [t|] eqn:Hi; [|done].
    destruct (resume upstream queue t (rt s)) as [[t' rt']|] eqn:Hr; [|done].
    destruct (turn_facts queue t (rt s) t' rt' (Hg _ _ Hi) (Hl _ _ Hi) Hr)
      as (Hg' & Hc & Hsent & F2 & F3 & F4 & F5 & F6 & F7).
    assert (i < length (tasks s))%nat as Hlt by by eapply lookup_lt_Some.
    assert (∀ j tj, <[i:=t']> (tasks s) !! j = Some tj →
              (j = i ∧ tj = t') ∨ (j ≠ i ∧ tasks s !! j = Some tj)) as Hcase.
    { intros j tj Hj. destruct (decide (j = i)) as [->|Hne].
      - rewrite list_lookup_insert_eq in Hj by done. left. by simplify_eq.
      - rewrite list_lookup_insert_ne in Hj by done. by right. }
    assert (∀ j tj, j ≠ i → tasks s !! j = Some tj → in_gate tj = true →
              in_gate t = false ∧ in_gate t' = false) as Hother.
    { intros j tj Hne Hj Hin. pose proof (Hl _ _ Hj Hin) as Hlocked.
      destruct (in_gate t) eqn:Hit.
      { destruct Hne. symmetry. by eapply Hu. }
      split; [done|]. destruct (in_gate t') eqn:Hit'; [|done].
      rewrite F3 in Hlocked by done. done. }
    split; [|split; [split; [|split]|split]]; simpl.
    + intros j tj [[-> ->]|[_ Hj]]%Hcase; eauto.
    + intros j1 j2 t1 t2 [[-> ->]|[Hn1 H1]]%Hcase [[-> ->]|[Hn2 H2]]%Hcase Hi1 Hi2;
        try done.
      * destruct (Hother _ _ Hn2 H2 Hi2) as [_ ?]. congruence.
      * destruct (Hother _ _ Hn1 H1 Hi1) as [_ ?]. congruence.
      * by eapply Hu.
    + intros j tj [[-> ->]|[Hn Hj]]%Hcase Hin; [by apply F2|].
      destruct (Hother _ _ Hn Hj Hin) as [? ?].
      rewrite F4 by done. by eapply Hl.
    + intros Hlocked. destruct (in_gate t') eqn:Hit'.
      { exists i, t'. by rewrite list_lookup_insert_eq. }
      destruct (in_gate t) eqn:Hit.
      { rewrite F7 in Hlocked by done. done. }
      rewrite F4 in Hlocked by done.
      destruct (Hh Hlocked) as (j & tj & Hj & Hin).
      assert (j ≠ i) as Hne by (intros ->; congruence).
      exists j, tj. by rewrite list_lookup_insert_ne.
    + rewrite Hc, Hsent. destruct t as [p|k|wake k|r k|r]; simpl;
        rewrite ?Nat.add_0_r; try done.
      specialize (Ht2 _ _ _ Hi). specialize (F6 _ _ eq_refl).
      replace (Z.of_nat (length (sent (rt s)) + 1) - Z.of_nat before)%Z
        with (Z.of_nat (length (sent (rt s))) - Z.of_nat before + 1)%Z by lia.
      lia.
    + intros j wake k [[-> <-]|[Hn Hj]]%Hcase.
      * destruct (F5 _ _ eq_refl) as [Hns ->].
        rewrite Hsent, Hns, Nat.add_0_r.
        rewrite Z.mul_add_distr_l, Z.mul_1_r. lia.
      * destruct (Hother _ _ Hn Hj eq_refl) as [Hit _].
        rewrite Hsent. destruct t; simpl in *; try done;
          rewrite Nat.add_0_r; by eapply Ht2.
  - split; [done|]. split; [done|]. split; simpl; [lia|done].
Qed.

Lemma sys_step_sent start before s a :
  gate_inv delay start before s →
  (length (sent (rt s)) ≤ length (sent (rt (sys_step upstream s a))))%nat.
Proof.
  intros (Hg & (Hu & Hl & _) & _). destruct a as [i queue|ms]; simpl; [|done].
  destruct (tasks s !! i) as [t|] eqn:Hi; [|done].
  destruct (resume upstream queue t (rt s)) as [[t' rt']|] eqn:Hr; [|done].
  destruct (turn_facts queue t (rt s) t' rt' (Hg _ _ Hi) (Hl _ _ Hi) Hr)
    as (_ & _ & Hsent & _).
  simpl. lia.
Qed.

Lemma sys_run_gate_inv start before s schedule :
  gate_inv delay start before s →
  gate_inv delay start before (sys_run upstream s schedule)
  ∧ (length (sent (rt s)) ≤ length (sent (rt (sys_run upstream s schedule))))%nat.
Proof.
  intros H. apply (sys_run_ind upstream (λ s',
    gate_inv delay start before s'
    ∧ (length (sent (rt s)) ≤ length (sent (rt s')))%nat)); [done|].
  intros s' a [Hinv Hle]. split; [by apply sys_step_gate_inv|].
  etrans; [exact Hle|]. by eapply sys_step_sent.
Qed.

(** Tasks that have not started yet, on a loop whose permit is free. *)
Lemma gate_inv_init service (ts : list (task A)) :
  locked service = false →
  Forall (λ t, ∃ p, t = Ready p ∧ gated delay Outside p) ts →
  gate_inv delay (clock service) (length (sent service)) (Sys service ts []).
Proof.
  intros L Hts. rewrite Forall_lookup in Hts.
  split; [|split; [split; [|split]|split]]; simpl.
  - intros i t Hi. by destruct (Hts _ _ Hi) as (p & -> & Hp).
  - intros i j ti tj Hi _ Hin. by destruct (Hts _ _ Hi) as (p & -> & Hp).
  - intros i t Hi Hin. by destruct (Hts _ _ Hi) as (p & -> & Hp).
  - by rewrite L.
  - lia.
  - intros i wake k Hi. by destruct (Hts _ _ Hi) as (p & ? & Hp).
Qed.

(** *** The two interpreters agree *)

Lemma sys_step_turn s i queue t t' rt' :
  tasks s !! i = Some t →
  resume upstream queue t (rt s) = Some (t', rt') →
  sys_step upstream s (Turn i queue)
  = Sys rt' (<[i:=t']> (tasks s)) (if is_done t' then completed s ++ [i] else completed s).
Proof. intros Hi Hr. simpl. by rewrite Hi, Hr. Qed.

Lemma exec_mid_turn p :
  ∀ st o st' r t st1,
    exec upstream p st = (o, st') →
    ended o = Some r →
    run upstream false p st = (t, st1) →
    ∃ schedule,
      sys_run upstream (Sys st1 [t] (if is_done t then [0%nat] else [])) schedule
      = Sys st' [Done r] [0%nat].
Proof.
  induction p as [a|e|k IH|f k IH|k IH|k IH|ms k IH|req k IH];
    intros st o st' r t st1 Hexec Hend Hrun; simpl in Hexec, Hrun.
  - injection Hexec as <- <-. injection Hrun as <- <-. injection Hend as <-.
    by exists [].
  - injection Hexec as <- <-. injection Hrun as <- <-. injection Hend as <-.
    by exists [].
  - by eapply (IH (mem st)).
  - by eapply IH.
  - destruct (locked st); simpl in Hrun.
    + injection Hexec as <- <-. done.
    + by eapply IH.
  - by eapply IH.
  - injection Hrun as <- <-.
    destruct (run upstream false k (advance ms st)) as [t2 st2] eqn:Hrun2.
    destruct (IH _ _ _ _ _ _ Hexec Hend Hrun2) as [schedule Hs].
    exists (Tick ms :: Turn 0 false :: schedule).
    unfold sys_run. cbn [foldl].
    erewrite (sys_step_turn _ 0 false (Sleeping (clock st + Z.max 0 ms) k) t2 st2);
      [exact Hs|done|].
    simpl. rewrite decide_True by lia. by rewrite Hrun2.
  - injection Hrun as <- <-.
    destruct (run upstream false (k (upstream (length (sent st)) req)) (send req st))
      as [t2 st2] eqn:Hrun2.
    destruct (IH _ _ _ _ _ _ _ Hexec Hend Hrun2) as [schedule Hs].
    exists (Turn 0 false :: schedule).
    unfold sys_run. cbn [foldl].
    erewrite (sys_step_turn _ 0 false (Requesting _ k) t2 st2); [exact Hs|done|].
    simpl. by rewrite Hrun2.
Qed.

(** What [exec] computes is one of the runs of the loop: the run of a
    single task that is resumed as soon as it can be. *)
Lemma exec_is_a_run p st o st' r :
  exec upstream p st = (o, st') →
  ended o = Some r →
  ∃ schedule,
    sys_run upstream (Sys st [Ready p] []) schedule = Sys st' [Done r] [0%nat].
Proof.
  intros Hexec Hend.
  destruct (run upstream false p st) as [t st1] eqn:Hrun.
  destruct (exec_mid_turn p _ _ _ _ _ _ Hexec Hend Hrun) as [schedule Hs].
  exists (Turn 0 false :: schedule). unfold sys_run. cbn [foldl].
  erewrite (sys_step_turn _ 0 false (Ready p) t st1); [exact Hs|done|].
  simpl. by rewrite Hrun.
Qed.

(** *** No deadlock *)

Lemma sys_run_app s schedule more :
  sys_run upstream s (schedule ++ more)
  = sys_run upstream (sys_run upstream s schedule) more.
Proof. unfold sys_run. apply foldl_app. Qed.

(** A task in the middle of a turn, alone at work, can be taken to its
    end: it is given the time to sleep and every turn it needs. *)
Lemma drive i ph p :
  gated delay ph p →
  ∀ st ts cs t st1,
    (i < length ts)%nat →
    (ph ≠ Outside → locked st = true) →
    (ph = Outside → locked st = false) →
    run upstream false p st = (t, st1) →
    ∃ schedule,
      let s' := sys_run upstream
                  (Sys st1 (<[i:=t]> ts) (if is_done t then cs ++ [i] else cs))
                  schedule in
      (∃ r, tasks s' !! i = Some (Done r))
      ∧ (∀ j, j ≠ i → tasks s' !! j = ts !! j)
      ∧ locked (rt s') = false.
Proof.
  induction 1 as [a|e|ph k _ IH|ph f k _ IH|k _ IH|k _ IH|req k _ IH|k _ IH];
    intros st ts cs t st1 Hlt Hin Hout Hrun; simpl in Hrun.
  - injection Hrun as <- <-. exists []. simpl. split_and!.
    + rewrite list_lookup_insert_eq by done. eauto.
    + intros j Hj. by rewrite list_lookup_insert_ne.
    + by apply Hout.
  - injection Hrun as <- <-. exists []. simpl. split_and!.
    + rewrite list_lookup_insert_eq by done. eauto.
    + intros j Hj. by rewrite list_lookup_insert_ne.
    + by apply Hout.
  - by eapply (IH (mem st)).
  - by eapply (IH (with_mem f st)).
  - rewrite Hout in Hrun by done. simpl in Hrun.
    by eapply (IH (with_locked true st)).
  - injection Hrun as <- <-. simpl.
    destruct (run upstream false k (advance delay st)) as [t2 st2] eqn:Hrun2.
    destruct (IH (advance delay st) (<[i:=Sleeping (clock st + Z.max 0 delay) k]> ts)
                cs t2 st2) as (schedule & Hd & Ho & Hl); try done.
    { by rewrite length_insert. }
    { intros _. simpl. apply Hin. done. }
    exists (Tick delay :: Turn i false :: schedule).
    unfold sys_run. cbn [foldl].
    change (foldl (sys_step upstream) ?x schedule) with (sys_run upstream x schedule).
    erewrite (sys_step_turn _ i false (Sleeping (clock st + Z.max 0 delay) k) t2 st2).
    + cbn [tasks completed sys_step rt]. split_and!; [done| |done].
      intros j Hj. rewrite Ho by done. by rewrite list_lookup_insert_ne.
    + cbn [tasks sys_step]. by rewrite list_lookup_insert_eq.
    + cbn [rt sys_step resume]. rewrite decide_True; [by rewrite Hrun2|]. simpl. lia.
  - injection Hrun as <- <-. simpl.
    destruct (run upstream false (k (upstream (length (sent st)) req)) (send req st))
      as [t2 st2] eqn:Hrun2.
    destruct (IH (upstream (length (sent st)) req) (send req st)
                (<[i:=Requesting (upstream (length (sent st)) req) k]> ts) cs t2 st2)
      as (schedule & Hd & Ho & Hl); try done.
    { by rewrite length_insert. }
    { intros _. simpl. apply Hin. done. }
    exists (Turn i false :: schedule).
    unfold sys_run. cbn [foldl].
    change (foldl (sys_step upstream) ?x schedule) with (sys_run upstream x schedule).
    erewrite (sys_step_turn _ i false (Requesting _ k) t2 st2).
    + cbn [tasks completed rt]. split_and!; [done| |done].
      intros j Hj. rewrite Ho by done. by rewrite list_lookup_insert_ne.
    + cbn [tasks]. by rewrite list_lookup_insert_eq.
    + cbn [rt resume]. by rewrite Hrun2.
  - by eapply (IH (with_locked false st)).
Qed.

(** Any task can be taken to its end, once the gate is empty or the task
    itself is the one in the gate. *)
Lemma drive_task start before s i t :
  gate_inv delay start before s →
  tasks s !! i = Some t →
  (in_gate t = false → locked (rt s) = false) →
  ∃ schedule,
    let s' := sys_run upstream s schedule in
    (∃ r, tasks s' !! i = Some (Done r))
    ∧ (∀ j, j ≠ i → tasks s' !! j = tasks s !! j)
    ∧ locked (rt s') = false.
Proof.
  intros (Hg & (_ & Hl & _) & _) Hi Hfree.
  pose proof (Hg _ _ Hi) as Hgt. pose proof (Hl _ _ Hi) as Hlt.
  assert (i < length (tasks s))%nat as Hlen by by eapply lookup_lt_Some.
  destruct s as [st ts cs]. simpl in *.
  destruct t as [p|k|wake k|r k|r]; simpl in *.
  - destruct (run upstream false p st) as [t1 st1] eqn:Hrun.
    destruct (drive i Outside p Hgt st ts cs t1 st1) as (schedule & H); try done.
    { auto. }
    exists (Turn i false :: schedule). unfold sys_run. cbn [foldl].
    erewrite (sys_step_turn _ i false (Ready p) t1 st1); [exact H|done|].
    simpl. by rewrite Hrun.
  - destruct (run upstream false k (with_locked true st)) as [t1 st1] eqn:Hrun.
    destruct (drive i Holding k Hgt (with_locked true st) ts cs t1 st1)
      as (schedule & H); try done.
    exists (Turn i false :: schedule). unfold sys_run. cbn [foldl].
    erewrite (sys_step_turn _ i false (Waiting k) t1 st1); [exact H|done|].
    simpl. by rewrite Hfree, Hrun.
  - destruct (run upstream false k (advance (wake - clock st) st)) as [t1 st1] eqn:Hrun.
    destruct (drive i Paced k Hgt (advance (wake - clock st) st) ts cs t1 st1)
      as (schedule & H); try done.
    { intros _. simpl. by apply Hlt. }
    exists (Tick (wake - clock st) :: Turn i false :: schedule).
    unfold sys_run. cbn [foldl].
    erewrite (sys_step_turn _ i false (Sleeping wake k) t1 st1); [exact H|done|].
    simpl. rewrite decide_True by lia. by rewrite Hrun.
  - destruct (run upstream false (k r) st) as [t1 st1] eqn:Hrun.
    destruct (drive i Served (k r) Hgt st ts cs t1 st1) as (schedule & H); try done.
    { intros _. by apply Hlt. }
    exists (Turn i false :: schedule). unfold sys_run. cbn [foldl].
    erewrite (sys_step_turn _ i false (Requesting r k) t1 st1); [exact H|done|].
    simpl. by rewrite Hrun.
  - exists []. simpl. split_and!; eauto.
Qed.

(** From any state of the loop, some schedule takes every task to its
    end: the tasks cannot block each other for good. *)
Lemma can_finish start before s :
  gate_inv delay start before s →
  ∃ schedule, forallb is_done (tasks (sys_run upstream s schedule)) = true.
Proof.
  intros Hinv.
  (* first the task in the gate, if there is one *)
  assert (∃ schedule, locked (rt (sys_run upstream s schedule)) = false)
    as [first Hfree].
  { destruct (locked (rt s)) eqn:L; [|by exists []].
    pose proof Hinv as (Hg & (Hu & Hl & Hh) & Hp).
    destruct (Hh L) as (i & t & Hi & Hin).
    destruct (drive_task start before s i t Hinv Hi) as (schedule & _ & _ & H).
    { intros ?. congruence. }
    by exists schedule. }
  (* then the others, one after the other *)
  assert (∀ n s1, gate_inv delay start before s1 → locked (rt s1) = false →
            ∃ schedule,
              let s' := sys_run upstream s1 schedule in
              locked (rt s') = false
              ∧ ∀ j t, (j < n)%nat → tasks s' !! j = Some t → is_done t = true)
    as Hrest.
  { induction n as [|n IH]; intros s1 Hinv1 Hfree1.
    { exists []. simpl. split; [done|]. intros; lia. }
    destruct (IH s1 Hinv1 Hfree1) as (schedule & Hfree2 & Hdone).
    set (s2 := sys_run upstream s1 schedule) in *.
    assert (gate_inv delay start before s2) as Hinv2
      by by apply sys_run_gate_inv.
    destruct (tasks s2 !! n) as [t|] eqn:Hn.
    - destruct (drive_task start before s2 n t Hinv2 Hn (λ _, Hfree2))
        as (more & [r Hr] & Ho & Hfree3).
      exists (schedule ++ more). rewrite sys_run_app. fold s2.
      split; [done|]. intros j tj Hj Htj.
      destruct (decide (j = n)) as [->|Hne].
      + rewrite Hr in Htj. by simplify_eq.
      + rewrite Ho in Htj by done. eapply Hdone; [|done]. lia.
    - exists schedule. split; [done|]. intros j tj Hj Htj.
      destruct (decide (j = n)) as [->|Hne]; [unfold s2 in Hn; congruence|].
      eapply Hdone; [|done]. lia. }
  destruct (Hrest (length (tasks s)) (sys_run upstream s first)) as (rest & _ & Hall);
    [by apply sys_run_gate_inv|done|].
  exists (first ++ rest). rewrite sys_run_app.
  apply forallb_forall. intros t [j Hj]%list_elem_of_In%list_elem_of_lookup_1.
  eapply Hall; [|done].
  apply lookup_lt_Some in Hj. by rewrite !sys_run_length in Hj.
Qed.

(** Tasks that keep the discipline of the permit serialise on it. *)
Lemma gated_tasks_serialise service (ts : list (task A)) schedule :
  locked service = false →
  Forall (λ t, ∃ p, t = Ready p ∧ gated delay Outside p) ts →
  let s := sys_run upstream (Sys service ts []) schedule in
  exclusive s
  ∧ (length (sent service) ≤ length (sent (rt s)))%nat
  ∧ (delay * Z.of_nat (length (sent (rt s)) - length (sent service))
     ≤ clock (rt s) - clock service)%Z.
Proof.
  intros L Hts s.
  destruct (sys_run_gate_inv _ _ _ schedule (gate_inv_init service ts L Hts))
    as ((_ & Hex & [Ht1 _]) & Hmono).
  fold s in Ht1, Hmono, Hex. simpl in Hmono.
  split; [done|]. split; [done|].
  rewrite Nat2Z.inj_sub by done. lia.
Qed.

End Pacing.

Section RateLimit.
Variable rate_limit_ms : Z.
Variable py_repr : json → string.
Variable upstream : nat → request → reply.

Lemma coroutine_gated c :
  gated rate_limit_ms Outside (coroutine rate_limit_ms py_repr c).
Proof.
  assert (∀ A B (f : A → B) (p : prog A),
            gated rate_limit_ms Outside p → gated rate_limit_ms Outside (f <$> p))
    as Hfmap.
  { intros A B f p Hp. apply (gated_bind _ Outside p (λ a, Return (f a))); [done|].
    intros a. constructor. }
  destruct c as [card|card_id|card]; unfold coroutine; apply Hfmap.
  - apply fetch_card_data_gated.
  - apply fetch_rulings_gated.
  - apply fetch_full_card_gated.
Qed.

(** C9. Any number of calls of the service's coroutines run as tasks on a
    loop whose permit is free.  Each coroutine keeps the discipline of the
    permit: it sends a request only with the permit, after having slept
    [rate_limit_ms] with it.  Whatever the schedule: at any moment at most
    one task is pacing or has a request in flight, and the permit is taken
    exactly then; and the time that has passed is at least [rate_limit_ms]
    times the number of requests sent, one by each fetch that missed its
    cache. *)
Theorem rate_limit_serialises service (calls : list call) schedule :
  locked service = false →
  let s := sys_run upstream
             (Sys service (map (λ c, Ready (coroutine rate_limit_ms py_repr c)) calls) [])
             schedule in
  Forall (λ c, gated rate_limit_ms Outside (coroutine rate_limit_ms py_repr c)) calls
  ∧ exclusive s
  ∧ (length (sent service) ≤ length (sent (rt s)))%nat
  ∧ (rate_limit_ms * Z.of_nat (length (sent (rt s)) - length (sent service))
     ≤ clock (rt s) - clock service)%Z.
Proof.
  intros L s. split.
  { apply Forall_forall. intros c _. apply coroutine_gated. }
  apply gated_tasks_serialise; [done|].
  apply Forall_map, Forall_forall. intros c _. eexists. split; [done|].
  apply coroutine_gated.
Qed.

End RateLimit.

(** ** Coherence under concurrency *)

Section CoherenceProofs.
Variable rate_limit_ms : Z.
Variable py_repr : json → string.
Variable up : request → reply.

Local Abbreviation rulings_of := (rulings_of py_repr up).
Local Abbreviation card_of := (card_of up).
Local Abbreviation grows := (grows py_repr up).
Local Abbreviation evolves := (evolves py_repr up).
Local Abbreviation is_card := (is_card py_repr up).
Local Abbreviation coherent := (coherent py_repr up).
Local Abbreviation safe := (safe py_repr up).
Local Abbreviation stable := (stable py_repr up).
Local Abbreviation task_safe := (task_safe py_repr up).

Lemma grows_trans d1 d2 d3 : grows d1 d2 → grows d2 d3 → grows d1 d3.
Proof.
  intros [->|(rs & Hrs & ->)] [->|(rs' & Hrs' & ->)].
  - by left.
  - right. eauto.
  - right. eauto.
  - right. exists rs'. split; [done|]. by destruct d1.
Qed.

Lemma evolves_refl m : evolves m m.
Proof. intros l d H. exists d. split; [done|by left]. Qed.

Lemma evolves_trans m1 m2 m3 : evolves m1 m2 → evolves m2 m3 → evolves m1 m3.
Proof.
  intros H12 H23 l d H. destruct (H12 _ _ H) as (d' & H' & G').
  destruct (H23 _ _ H') as (d'' & H'' & G''). eauto using grows_trans.
Qed.

Lemma evolves_heap m m' : heap m' = heap m → evolves m m'.
Proof. intros Hh l d H. exists d. rewrite Hh. split; [done|by left]. Qed.

Lemma is_card_grows card d d' : is_card card d → grows d d' → is_card card d'.
Proof. intros (d0 & H0 & G) G'. exists d0. eauto using grows_trans. Qed.

Lemma safe_mono {A} (Q Q' : A → memory → Prop) m (p : prog A) :
  (∀ a m', Q a m' → Q' a m') → safe Q m p → safe Q' m p.
Proof. intros HQ. induction 1; econstructor; eauto. Qed.

Lemma safe_bind {A B} (Q1 : A → memory → Prop) (Q2 : B → memory → Prop)
    m (p : prog A) (f : A → prog B) :
  safe Q1 m p →
  (∀ a m', Q1 a m' → safe Q2 m' (f a)) →
  safe Q2 m (p ≫= f).
Proof.
  intros Hp Hf. unfold mbind, prog_bind.
  induction Hp; simpl; try (econstructor; by eauto). by apply Hf.
Qed.

Lemma safe_releasing {A} (Q : A → memory → Prop) m (p : prog A) :
  safe Q m p → safe Q m (releasing p).
Proof. induction 1; simpl; repeat (econstructor; eauto). Qed.

(** A stable property can be carried along. *)
Lemma safe_frame {A} (Q : A → memory → Prop) (F : memory → Prop) m (p : prog A) :
  stable F → safe Q m p → F m → safe (λ a m', Q a m' ∧ F m') m p.
Proof.
  intros HF. induction 1; intros Hm; econstructor; eauto.
Qed.

(** *** The writes of the service keep the caches coherent *)

Lemma alloc_coherent c m : coherent m → coherent (alloc c m) ∧ evolves m (alloc c m).
Proof.
  intros [H1 H2]. split; [split|]; simpl.
  - intros card l Hl. destruct (H1 _ _ Hl) as (d & Hd & Hc).
    exists d. split; [by apply lookup_app_l_Some|done].
  - done.
  - intros l d Hd. exists d. split; [by apply lookup_app_l_Some|by left].
Qed.

Lemma store_card_coherent card l d m :
  coherent m → heap m !! l = Some d → is_card card d →
  coherent (store_card card l m) ∧ evolves m (store_card card l m).
Proof.
  intros [H1 H2] Hd Hc. split; [split|by apply evolves_heap]; simpl; [|done].
  intros card' l'. destruct (decide (card = card')) as [<-|Hne].
  - rewrite lookup_insert_eq. intros [= <-]. eauto.
  - rewrite lookup_insert_ne by done. apply H1.
Qed.

Lemma store_rulings_coherent s rulings m :
  coherent m → rulings_of (JStr s) = inr rulings →
  coherent (store_rulings (KStr s) rulings m)
  ∧ evolves m (store_rulings (KStr s) rulings m).
Proof.
  intros [H1 H2] Hr. split; [split|by apply evolves_heap]; simpl; [done|].
  intros s' rulings'. destruct (decide (s = s')) as [<-|Hne].
  - rewrite lookup_insert_eq. by intros [= <-].
  - rewrite lookup_insert_ne by congruence. apply H2.
Qed.

Lemma assign_rulings_coherent l d rulings m :
  coherent m → heap m !! l = Some d → rulings_of (c_id d) = inr rulings →
  coherent (assign_rulings l rulings m) ∧ evolves m (assign_rulings l rulings m).
Proof.
  intros [H1 H2] Hd Hr.
  assert (evolves m (assign_rulings l rulings m)) as He.
  { intros l' d' Hd'. simpl. destruct (decide (l = l')) as [<-|Hne].
    - rewrite list_lookup_alter_eq, Hd'. simpl. eexists. split; [done|].
      right. exists rulings. by simplify_eq.
    - rewrite list_lookup_alter_ne by done. exists d'. split; [done|by left]. }
  split; [split|done]; simpl; [|done].
  intros card l' Hl'. destruct (H1 _ _ Hl') as (d' & Hd' & Hc').
  destruct (He _ _ Hd') as (d'' & Hd'' & G). eauto using is_card_grows.
Qed.

(** *** The coroutines are safe *)

Lemma fetch_card_data_safe card m :
  coherent m →
  safe (λ l m', coherent m' ∧ ∃ d, heap m' !! l = Some d ∧ is_card card d) m
    (fetch_card_data rate_limit_ms card).
Proof.
  intros Hm. unfold fetch_card_data. apply safe_read.
  destruct (_card_cache m !! card) as [l|] eqn:Hl.
  { apply safe_return. split; [done|]. by apply Hm. }
  eapply safe_bind.
  - apply safe_acquire. intros m1 _ _. apply safe_releasing.
    apply safe_sleep. intros m2 _ _. apply safe_get. intros m3 Hm3 _.
    fold (card_request card).
    destruct (up (card_request card)) as [resp|e] eqn:Hup; simpl; [|apply safe_raise].
    destruct (decide (status_code resp ≠ 200)) as [Hs|Hs]; [apply safe_raise|].
    unfold response_json.
    destruct (body resp) as [data|] eqn:Hb; simpl; [|apply safe_raise].
    destruct (card_metadata_literal data) as [e|c] eqn:Hc; simpl; [apply safe_raise|].
    apply safe_read.
    destruct (alloc_coherent c m3 Hm3) as [Hm4 He4].
    apply safe_modify; [done..|].
    apply (safe_return _ _ (λ l m', coherent m' ∧ ∃ d, heap m' !! l = Some d ∧ is_card card d)).
    split; [done|]. exists c. split.
    + simpl. by rewrite lookup_app_r, Nat.sub_diag.
    + exists c. split; [|by left].
      unfold card_of, card_of_reply. rewrite Hup.
      rewrite decide_False by done. by rewrite Hb.
  - intros l m' (Hm' & d & Hd & Hc). simpl.
    destruct (store_card_coherent card l d m' Hm' Hd Hc) as [Hm'' He''].
    apply safe_modify; [done..|]. apply safe_return. split; [done|].
    exists d. split; [done|done].
Qed.

Lemma fetch_rulings_safe s m :
  coherent m →
  safe (λ rulings m', coherent m' ∧ rulings_of (JStr s) = inr rulings) m
    (fetch_rulings rate_limit_ms py_repr (JStr s)).
Proof.
  intros Hm. unfold fetch_rulings.
  change (lift (py_hash (JStr s)) ≫= ?f) with (f (KStr s)). cbv beta.
  apply safe_read.
  destruct (_rulings_cache m !! KStr s) as [rulings|] eqn:Hl.
  { apply safe_return. split; [done|]. by apply Hm. }
  eapply (safe_bind (λ rulings m', coherent m' ∧ rulings_of (JStr s) = inr rulings)).
  - apply safe_acquire. intros m1 _ _. apply safe_releasing.
    apply safe_sleep. intros m2 _ _. apply safe_get. intros m3 Hm3 _.
    fold (rulings_request py_repr (JStr s)).
    unfold rulings_of, rulings_of_reply.
    destruct (up (rulings_request py_repr (JStr s))) as [resp|e]; simpl;
      [|apply safe_raise].
    destruct (decide (status_code resp ≠ 200)) as [Hs|Hs]; [apply safe_raise|].
    unfold response_json.
    destruct (body resp) as [payload|]; simpl; [|apply safe_raise].
    destruct (py_get payload "data" (JArr [])) as [e|data]; simpl; [apply safe_raise|].
    destruct (py_iter data) as [e|items]; simpl; [apply safe_raise|].
    destruct (append_rulings py_repr items []) as [e|rulings]; simpl;
      [apply safe_raise|].
    by apply safe_return.
  - intros rulings m' (Hm' & Hr). simpl.
    destruct (store_rulings_coherent s rulings m' Hm' Hr) as [Hm'' He''].
    apply safe_modify; [done..|]. by apply safe_return.
Qed.

Lemma holds_is_card_stable card l :
  stable (λ m, ∃ d, heap m !! l = Some d ∧ is_card card d).
Proof.
  intros m m' (d & Hd & Hc) He. destruct (He _ _ Hd) as (d' & Hd' & G).
  eauto using is_card_grows.
Qed.

Lemma fetch_full_card_safe card m :
  string_ids up →
  coherent m →
  safe (holds_full_record py_repr up card) m (fetch_full_card rate_limit_ms py_repr card).
Proof.
  intros Hids Hm. unfold fetch_full_card.
  eapply safe_bind; [by apply fetch_card_data_safe|].
  intros l m1 (Hm1 & d & Hd & d0 & Hd0 & G). simpl. apply safe_read.
  destruct (Hids _ _ Hd0) as [s Hs].
  assert (c_id d = JStr s) as Hid.
  { destruct G as [->|(rs & _ & ->)]; by rewrite <- Hs. }
  rewrite (list_lookup_total_correct _ _ _ Hd), Hid.
  eapply (safe_bind (λ rulings m',
            (coherent m' ∧ rulings_of (JStr s) = inr rulings)
            ∧ ∃ d', heap m' !! l = Some d' ∧ is_card card d')).
  - apply (safe_frame (λ rulings m', coherent m' ∧ rulings_of (JStr s) = inr rulings)
             (λ m', ∃ d', heap m' !! l = Some d' ∧ is_card card d'));
      [apply holds_is_card_stable|by apply fetch_rulings_safe|].
    exists d. split; [done|]. by exists d0.
  - intros rulings m2 ((Hm2 & Hr) & d2 & Hd2 & d0' & Hd0' & G2). simpl.
    assert (d0' = d0) as -> by congruence.
    assert (c_id d2 = JStr s) as Hid2.
    { destruct G2 as [->|(rs & _ & ->)]; by rewrite <- Hs. }
    destruct (assign_rulings_coherent l d2 rulings m2 Hm2 Hd2) as [Hm3 He3];
      [by rewrite Hid2|].
    apply safe_modify; [done..|]. apply safe_return.
    exists (set_rulings rulings d2). split.
    + simpl. by rewrite list_lookup_alter_eq, Hd2.
    + exists d0, rulings. split; [done|]. split; [by rewrite Hs|].
      destruct G2 as [->|(rs & _ & ->)]; [done|by destruct d0].
Qed.

(** *** On the loop *)

Variable upstream : nat → request → reply.
Hypothesis steady : ∀ n req, upstream n req = up req.

Lemma run_safe {A} (Q : A → memory → Prop) queue m (p : prog A) :
  safe Q m p →
  ∀ st t st', mem st = m → coherent m →
    run upstream queue p st = (t, st') →
    coherent (mem st') ∧ evolves m (mem st') ∧ task_safe Q (mem st') t.
Proof.
  induction 1 as [m a Ha|m e|m k _ IH|m f k Hc He _ IH|m k Hk IH|m k _ IH
                  |m ms k Hk _|m req k Hk _];
    intros st t st' Hm Hcoh Hrun; simpl in Hrun.
  - injection Hrun as <- <-. subst m. split_and!; [done|apply evolves_refl|done].
  - injection Hrun as <- <-. subst m. split_and!; [done|apply evolves_refl|done].
  - subst m. by eapply IH.
  - subst m. destruct (IH (with_mem f st) t st' eq_refl Hc Hrun) as (? & ? & ?).
    split_and!; [done| |done]. by eapply evolves_trans.
  - destruct (locked st || queue).
    + injection Hrun as <- <-. subst m.
      split_and!; [done|apply evolves_refl|]. exact Hk.
    + by eapply (IH m Hcoh (evolves_refl m) (with_locked true st)).
  - by eapply (IH (with_locked false st)).
  - injection Hrun as <- <-. subst m.
    split_and!; [done|apply evolves_refl|]. exact Hk.
  - injection Hrun as <- <-. subst m. rewrite steady.
    split_and!; [done|apply evolves_refl|]. exact Hk.
Qed.

Lemma resume_safe {A} (Q : A → memory → Prop) queue (t : task A) st t' st' :
  task_safe Q (mem st) t → coherent (mem st) →
  resume upstream queue t st = Some (t', st') →
  coherent (mem st') ∧ evolves (mem st) (mem st') ∧ task_safe Q (mem st') t'.
Proof.
  intros Ht Hc Hr. destruct t as [p|k|wake k|r k|r]; simpl in *.
  - injection Hr as Hr.
    by eapply (run_safe Q queue (mem st) p (Ht _ Hc (evolves_refl _)) st).
  - destruct (locked st); [done|]. injection Hr as Hr.
    by eapply (run_safe Q queue (mem st) k (Ht _ Hc (evolves_refl _)) (with_locked true st)).
  - destruct (decide _); [|done]. injection Hr as Hr.
    by eapply (run_safe Q queue (mem st) k (Ht _ Hc (evolves_refl _)) st).
  - injection Hr as Hr.
    by eapply (run_safe Q queue (mem st) (k r) (Ht _ Hc (evolves_refl _)) st).
  - done.
Qed.

Lemma task_safe_evolves {A} (Q : A → memory → Prop) m m' (t : task A) :
  (∀ a, stable (Q a)) → task_safe Q m t → evolves m m' → task_safe Q m' t.
Proof.
  intros HQ Ht He. destruct t as [p|k|wake k|r k|[e|a]]; simpl in *;
    try (intros m'' ? ?; apply Ht; [done|by eapply evolves_trans]); [done|].
  by eapply HQ.
Qed.

Lemma holds_full_record_stable card l : stable (holds_full_record py_repr up card l).
Proof.
  intros m m' (d & Hd & d0 & rulings & H0 & Hr & ->) He.
  destruct (He _ _ Hd) as (d' & Hd' & [->|(rs & Hrs & ->)]).
  - exists (set_rulings rulings d0). split; [done|]. by exists d0, rulings.
  - exists (set_rulings rulings d0). split; [|by exists d0, rulings].
    rewrite Hd'. f_equal. simpl in Hrs.
    assert (rs = rulings) as -> by congruence. done.
Qed.

Lemma sys_step_batch_inv cards s a :
  batch_inv py_repr up cards s → batch_inv py_repr up cards (sys_step upstream s a).
Proof.
  intros (Hc & Hlen & Ht). destruct a as [i queue|ms]; simpl; [|done].
  destruct (tasks s !! i) as [t|] eqn:Hi; [|done].
  destruct (resume upstream queue t (rt s)) as [[t' st']|] eqn:Hr; [|done].
  assert (i < length cards)%nat as Hlt.
  { rewrite <- Hlen. by eapply lookup_lt_Some. }
  destruct (lookup_lt_is_Some_2 _ _ Hlt) as [card Hcard].
  destruct (resume_safe _ queue t (rt s) t' st' (Ht _ _ _ Hcard Hi) Hc Hr)
    as (Hc' & He & Ht').
  split; [done|]. simpl. split; [by rewrite length_insert|].
  intros j card' tj Hj Htj. destruct (decide (j = i)) as [->|Hne].
  - rewrite list_lookup_insert_eq in Htj by (by rewrite Hlen). by simplify_eq.
  - rewrite list_lookup_insert_ne in Htj by done.
    eapply task_safe_evolves; [|by eapply Ht|done].
    intros l. apply holds_full_record_stable.
Qed.

(** On a steady upstream whose cards have string ids, and from coherent
    caches, a task of the batch that returns returns the complete record
    of its name. *)
Lemma batch_records cards service schedule i card l :
  string_ids up →
  coherent (mem service) →
  cards !! i = Some card →
  tasks (sys_run upstream
           (Sys service (create_tasks rate_limit_ms py_repr cards) []) schedule) !! i
    = Some (Done (inr l)) →
  holds_full_record py_repr up card l
    (mem (rt (sys_run upstream
                (Sys service (create_tasks rate_limit_ms py_repr cards) []) schedule))).
Proof.
  intros Hids Hc Hcard Hi.
  assert (batch_inv py_repr up cards
            (sys_run upstream (Sys service (create_tasks rate_limit_ms py_repr cards) [])
               schedule)) as (_ & _ & Ht).
  { apply sys_run_ind; [|intros; by apply sys_step_batch_inv].
    split; [done|]. split; [apply length_map|]. simpl.
    intros j card' t Hj Htj. unfold create_tasks in Htj.
    rewrite list_lookup_fmap, Hj in Htj. injection Htj as <-.
    intros m' Hm' _. by apply fetch_full_card_safe. }
  exact (Ht _ _ _ Hcard Hi).
Qed.

End CoherenceProofs.

(** ** The batch *)

Section Gathering.
Context {A : Type}.
Implicit Types (s : sys A) (ts : list (task A)).

Lemma first_exception_Some ts order i e :
  i ∈ order → ts !! i = Some (Done (inl e)) →
  is_Some (first_exception ts order).
Proof.
  intros Hi Ht. induction order as [|j order IH]; [by apply elem_of_nil in Hi|].
  simpl. apply elem_of_cons in Hi as [->|Hi].
  - rewrite Ht. eauto.
  - destruct (ts !! j) as [[?|?|? ?|? ?|[?|?]]|]; eauto.
Qed.

Lemma first_exception_inv ts order e :
  first_exception ts order = Some e →
  ∃ i, i ∈ order ∧ ts !! i = Some (Done (inl e)).
Proof.
  induction order as [|j order IH]; simpl; [done|].
  destruct (ts !! j) as [[?|?|? ?|? ?|[e'|?]]|] eqn:Hj;
    try (intros [i [? ?]]%IH; exists i; split; [apply elem_of_cons; by right|done]).
  intros [= ->]. exists j. split; [apply elem_of_cons; by left|done].
Qed.

Lemma first_exception_None ts order i :
  first_exception ts order = None → i ∈ order →
  ∀ e, ts !! i ≠ Some (Done (inl e)).
Proof.
  intros Hn Hi e Ht.
  destruct (first_exception_Some ts order i e Hi Ht) as [e' He]. congruence.
Qed.

Lemma mapM_value_of ts results :
  mapM value_of ts = Some results → ts = map (λ a, Done (inr a)) results.
Proof.
  intros H. apply mapM_Some_1 in H.
  induction H as [|t a ts results Ht _ IH]; [done|].
  simpl. f_equal; [|done].
  by destruct t as [?|?|? ?|? ?|[?|?]]; simplify_eq/=.
Qed.

(** When every task is done, [completed] lists all of them. *)
Lemma completed_all s :
  completed_ok s →
  forallb is_done (tasks s) = true →
  completed s ≡ₚ seq 0 (length (tasks s)).
Proof.
  intros [Hnd Hc] Hall. apply NoDup_Permutation; [done|apply NoDup_seq|].
  intros i. rewrite Hc, elem_of_seq. split.
  - intros [r Hr]. apply lookup_lt_Some in Hr. lia.
  - intros [_ Hlt]. simpl in Hlt. apply lookup_lt_is_Some_2 in Hlt as [t Ht].
    rewrite forallb_forall in Hall.
    assert (is_done t = true) as [r ->]%is_done_true.
    { apply Hall. apply list_elem_of_In. by eapply list_elem_of_lookup_2. }
    eauto.
Qed.

(** Once every task is done, both ways of collecting have their outcome. *)
Lemma collected_when_done s :
  completed_ok s →
  forallb is_done (tasks s) = true →
  is_Some (gather s) ∧ is_Some (as_completed s).
Proof.
  intros Hok Hall. unfold gather, as_completed. rewrite Hall.
  destruct (first_exception (tasks s) (completed s)) as [e|] eqn:He; [by eauto|].
  assert (∀ i t, tasks s !! i = Some t → is_Some (value_of t)) as Hval.
  { intros i t Hi.
    assert (is_done t = true) as [r ->]%is_done_true.
    { rewrite forallb_forall in Hall. apply Hall, list_elem_of_In.
      by eapply list_elem_of_lookup_2. }
    destruct r as [e|a]; [|by eauto].
    destruct (first_exception_None _ _ i He) with e; [|done].
    apply Hok. eauto. }
  split; apply fmap_is_Some, mapM_is_Some_2, Forall_forall.
  - intros t [i Hi]%list_elem_of_lookup_1. by eapply Hval.
  - intros i Hi. simpl. apply (proj2 Hok) in Hi as [r Hr]. rewrite Hr.
    exact (Hval _ _ Hr).
Qed.

End Gathering.

Section BatchFetchProperties.
Variable rate_limit_ms : Z.
Variable py_repr : json → string.
Variable upstream : nat → request → reply.

Local Abbreviation batch_fetch_card_data :=
  (batch_fetch_card_data rate_limit_ms py_repr upstream).
Local Abbreviation create_tasks := (create_tasks rate_limit_ms py_repr).

Lemma create_tasks_lookup cards i :
  create_tasks cards !! i
  = (λ card, Ready (fetch_full_card rate_limit_ms py_repr card)) <$> cards !! i.
Proof. apply list_lookup_fmap. Qed.

Lemma batch_completed_ok cards service schedule :
  completed_ok (sys_run upstream (Sys service (create_tasks cards) []) schedule).
Proof.
  apply sys_run_completed_ok. split; [apply NoDup_nil_2|].
  intros i. simpl. rewrite create_tasks_lookup. split.
  - by intros ?%elem_of_nil.
  - intros [r Hr]. by destruct (cards !! i).
Qed.

Lemma batch_tasks_length cards service schedule :
  length (tasks (sys_run upstream (Sys service (create_tasks cards) []) schedule))
  = length cards.
Proof. rewrite sys_run_length. simpl. apply length_map. Qed.

Lemma batch_gate_inv cards service schedule :
  locked service = false →
  gate_inv rate_limit_ms (clock service) (length (sent service))
    (sys_run upstream (Sys service (create_tasks cards) []) schedule).
Proof.
  intros L. apply sys_run_gate_inv, gate_inv_init; [done|].
  apply Forall_map, Forall_forall. intros card _. eexists. split; [done|].
  apply fetch_full_card_gated.
Qed.

(** A call that returns a list has seen every task return. *)
Lemma batch_list_tasks cards progress service schedule results i card :
  (batch_fetch_card_data cards progress service schedule).1 = Some (inr results) →
  cards !! i = Some card →
  ∃ l, tasks (batch_fetch_card_data cards progress service schedule).2 !! i
       = Some (Done (inr l)).
Proof.
  unfold batch_fetch_card_data. cbn [fst snd].
  pose proof (batch_tasks_length cards service schedule) as Hlen.
  pose proof (batch_completed_ok cards service schedule) as Hok.
  set (s := sys_run upstream _ schedule) in *.
  intros Hout Hi.
  pose proof (lookup_lt_Some _ _ _ Hi) as Hlt. rewrite <- Hlen in Hlt.
  apply lookup_lt_is_Some_2 in Hlt as [t Ht].
  assert (first_exception (tasks s) (completed s) = None
          ∧ forallb is_done (tasks s) = true) as [Hnone Hall].
  { destruct progress; unfold gather, as_completed in Hout;
      destruct (first_exception _ _); try done; split; try done.
    - by destruct (forallb is_done (tasks s)).
    - destruct (mapM value_of (tasks s)) as [rs|] eqn:Hm; [|done].
      apply mapM_value_of in Hm. rewrite Hm. apply forallb_forall.
      by intros ? (? & -> & _)%list_elem_of_In%list_elem_of_fmap. }
  assert (is_done t = true) as [[e|l] ->]%is_done_true; [| |by eauto].
  { rewrite forallb_forall in Hall. apply Hall, list_elem_of_In.
    by eapply list_elem_of_lookup_2. }
  destruct (first_exception_None _ _ i Hnone) with e; [|done].
  apply Hok. eauto.
Qed.

(** Whatever has happened so far, the loop can go on until the call has
    returned or raised. *)
Lemma batch_can_finish cards progress service schedule :
  locked service = false →
  ∃ more,
    forallb is_done
      (tasks (batch_fetch_card_data cards progress service (schedule ++ more)).2) = true
    ∧ is_Some (batch_fetch_card_data cards progress service (schedule ++ more)).1.
Proof.
  intros L. unfold batch_fetch_card_data. cbn [fst snd].
  destruct (can_finish rate_limit_ms upstream _ _ _
              (batch_gate_inv cards service schedule L)) as [more Hall].
  exists more. rewrite sys_run_app. split; [done|].
  pose proof (batch_completed_ok cards service (schedule ++ more)) as Hok.
  rewrite sys_run_app in Hok.
  destruct (collected_when_done _ Hok Hall). by destruct progress.
Qed.

(** C1, as the code has it.  The call returns a list only if no task
    raised, and the list then has one entry per name.  A task that raises
    cancels no other task: a turn changes the task that takes it and no
    other.  But its exception is not kept as a result: once some task has
    raised, the call raises the exception of the task that raised first,
    and returns no list.  One or the other does happen: any run can go on
    until the call has returned or raised. *)
Theorem batch_raises_first_exception cards progress service schedule :
  let out := (batch_fetch_card_data cards progress service schedule).1 in
  let s := (batch_fetch_card_data cards progress service schedule).2 in
  (∀ results, out = Some (inr results) →
     length results = length cards
     ∧ ∀ i e, tasks s !! i ≠ Some (Done (inl e)))
  ∧ (∀ i e, tasks s !! i = Some (Done (inl e)) →
       ∃ e', first_exception (tasks s) (completed s) = Some e'
         ∧ out = Some (inl e'))
  ∧ (∀ a j, untouched a j → tasks (sys_step upstream s a) !! j = tasks s !! j)
  ∧ (locked service = false →
     ∃ more, is_Some (batch_fetch_card_data cards progress service (schedule ++ more)).1).
Proof.
  assert (locked service = false →
     ∃ more, is_Some (batch_fetch_card_data cards progress service (schedule ++ more)).1)
    as Hfinish.
  { intros L. destruct (batch_can_finish cards progress service schedule L)
      as (more & _ & H). eauto. }
  revert Hfinish.
  unfold batch_fetch_card_data. cbn [fst snd].
  pose proof (batch_completed_ok cards service schedule) as Hok.
  pose proof (batch_tasks_length cards service schedule) as Hlen.
  set (s := sys_run upstream _ schedule) in *.
  assert (∀ i e, tasks s !! i = Some (Done (inl e)) →
            is_Some (first_exception (tasks s) (completed s))) as Hfail.
  { intros i e Hi. eapply first_exception_Some; [|done].
    apply Hok. eauto. }
  intros Hfinish. split; [|split; [|split; [|done]]].
  - intros results Hout.
    assert (first_exception (tasks s) (completed s) = None) as Hnone.
    { destruct progress; unfold gather, as_completed in Hout;
        by destruct (first_exception _ _). }
    split.
    + destruct progress; unfold gather, as_completed in Hout; rewrite Hnone in Hout.
      * destruct (forallb is_done (tasks s)) eqn:Hall; [|done].
        destruct (mapM _ (completed s)) as [rs|] eqn:Hm; simplify_eq/=.
        apply length_mapM in Hm. rewrite <- Hm, <- Hlen.
        by rewrite (completed_all s Hok Hall), length_seq.
      * destruct (mapM value_of (tasks s)) as [rs|] eqn:Hm; simplify_eq/=.
        apply length_mapM in Hm. by rewrite <- Hm.
    + intros i e Hi. destruct (Hfail i e Hi) as [e' He']. congruence.
  - intros i e Hi. destruct (Hfail i e Hi) as [e' He']. exists e'.
    split; [done|].
    destruct progress; unfold gather, as_completed; by rewrite He'.
  - intros a j Hj. by apply sys_step_untouched.
Qed.

(** C2, as the code has it.  Without progress reporting, a call that
    returns returns one entry per name, and entry [i] is the value with
    which task [i], the task created for name [i], finished; the order in
    which the tasks finished plays no part.  When upstream is steady, its cards have string ids and
    the caches were coherent, that value is the complete record of name
    [i].  The call does return once all tasks are done and none has
    raised, and the tasks can always all get done. *)
Theorem gather_keeps_input_order cards service schedule :
  let out := (batch_fetch_card_data cards false service schedule).1 in
  let s := (batch_fetch_card_data cards false service schedule).2 in
  (∀ results, out = Some (inr results) →
     length results = length cards
     ∧ ∀ i card, cards !! i = Some card →
         ∃ l, results !! i = Some l
           ∧ tasks s !! i = Some (Done (inr l))
           ∧ ∀ up, (∀ n req, upstream n req = up req) →
               string_ids up →
               coherent py_repr up (mem service) →
               holds_full_record py_repr up card l (mem (rt s)))
  ∧ (forallb is_done (tasks s) = true →
     (∀ i e, tasks s !! i ≠ Some (Done (inl e))) →
     ∃ results, out = Some (inr results))
  ∧ (locked service = false →
     ∃ more,
       forallb is_done
         (tasks (batch_fetch_card_data cards false service (schedule ++ more)).2) = true).
Proof.
  assert (locked service = false →
     ∃ more,
       forallb is_done
         (tasks (batch_fetch_card_data cards false service (schedule ++ more)).2) = true)
    as Hfinish.
  { intros L. destruct (batch_can_finish cards false service schedule L)
      as (more & H & _). eauto. }
  revert Hfinish.
  unfold batch_fetch_card_data. cbn [fst snd].
  pose proof (batch_tasks_length cards service schedule) as Hlen.
  pose proof (batch_completed_ok cards service schedule) as Hok.
  intros Hfinish. split; [|split; [|done]].
  - intros results. unfold gather. destruct (first_exception _ _); [done|].
    destruct (mapM value_of _) as [rs|] eqn:Hm; [|done].
    intros [= <-]. apply mapM_value_of in Hm.
    assert (length rs = length cards) as Hl.
    { by rewrite <- Hlen, Hm, length_map. }
    split; [done|]. intros i card Hi.
    pose proof (lookup_lt_Some _ _ _ Hi) as Hlt. rewrite <- Hl in Hlt.
    apply lookup_lt_is_Some_2 in Hlt as [l Hl'].
    assert (tasks (sys_run upstream (Sys service (create_tasks cards) []) schedule) !! i
            = Some (Done (inr l))) as Hti.
    { by rewrite Hm, list_lookup_fmap, Hl'. }
    exists l. split; [done|]. split; [done|].
    intros up Hsteady Hids Hcoh.
    by eapply (batch_records rate_limit_ms py_repr up upstream Hsteady).
  - intros Hall Hnone.
    destruct (collected_when_done _ Hok Hall) as [[[e|results] Hg] _]; [|eauto].
    unfold gather in Hg.
    destruct (first_exception _ _) as [e'|] eqn:He.
    + destruct (first_exception_inv _ _ _ He) as (i & _ & Hi).
      by destruct (Hnone i e').
    + by destruct (mapM value_of _).
Qed.

End BatchFetchProperties.

(** ** More on one coroutine on its own *)

Section SequentialCalls.
Variable rate_limit_ms : Z.
Variable py_repr : json → string.
Variable upstream : nat → request → reply.

Local Abbreviation exec := (exec upstream).
Local Abbreviation fetch_card_data := (fetch_card_data rate_limit_ms).
Local Abbreviation fetch_rulings := (fetch_rulings rate_limit_ms py_repr).
Local Abbreviation fetch_full_card := (fetch_full_card rate_limit_ms py_repr).
Local Abbreviation after_call := (after_call rate_limit_ms py_repr upstream).
Local Abbreviation after_calls := (after_calls rate_limit_ms py_repr upstream).
Local Abbreviation coroutine := (coroutine rate_limit_ms py_repr).

Lemma exec_fmap {A B} (f : A → B) (p : prog A) rt :
  exec (f <$> p) rt =
  match exec p rt with
  | (Returned a, rt') => (Returned (f a), rt')
  | (Raised e, rt') => (Raised e, rt')
  | (Blocked, rt') => (Blocked, rt')
  end.
Proof. apply (exec_bind upstream p (λ a, Return (f a))). Qed.

(** What a returning [fetch_card_data] leaves behind, hit or miss. *)
Lemma fetch_card_data_returned card rt l rt1 :
  exec (fetch_card_data card) rt = (Returned l, rt1) →
  _card_cache (mem rt1) !! card = Some l
  ∧ _rulings_cache (mem rt1) = _rulings_cache (mem rt)
  ∧ locked rt1 = locked rt.
Proof.
  intros H.
  destruct (fetch_card_data_cases _ _ _ _ _ _ H)
    as [(c & C & ? & ->)|[(_ & _ & ? & _)|[(_ & _ & ? & _ & ? & _)
       |(_ & L & c & _ & ? & ->)]]]; simplify_eq; simpl.
  - done.
  - by rewrite lookup_insert_eq.
Qed.

(** What a returning [fetch_rulings] leaves behind, hit or miss. *)
Lemma fetch_rulings_returned card_id rt rulings rt1 :
  exec (fetch_rulings card_id) rt = (Returned rulings, rt1) →
  ∃ key, py_hash card_id = inr key
    ∧ _rulings_cache (mem rt1) !! key = Some rulings
    ∧ locked rt1 = locked rt
    ∧ (length (sent rt1) ≤ length (sent rt) + 1)%nat.
Proof.
  intros H.
  destruct (fetch_rulings_cases _ _ _ _ _ _ _ H)
    as [(_ & ? & _)|(key & K & [(c & C & ? & ->)|[(_ & _ & ? & _)
       |[(_ & _ & ? & _ & ? & _)|(_ & L & rs & _ & ? & ->)]]])]; simplify_eq;
    exists key; simpl.
  - split_and!; try done; lia.
  - rewrite lookup_insert_eq, length_app. simpl. split_and!; try done; lia.
Qed.

Lemma fetch_card_data_free card rt o rt1 :
  locked rt = false →
  exec (fetch_card_data card) rt = (o, rt1) →
  o ≠ Blocked ∧ locked rt1 = false.
Proof.
  intros L H.
  destruct (fetch_card_data_cases _ _ _ _ _ _ H)
    as [(c & _ & -> & ->)|[(_ & ? & _)|[(_ & _ & ? & _ & -> & ->)
       |(_ & _ & ? & _ & -> & ->)]]]; simplify_eq; (by split) || congruence.
Qed.

Lemma fetch_rulings_free card_id rt o rt1 :
  locked rt = false →
  exec (fetch_rulings card_id) rt = (o, rt1) →
  o ≠ Blocked ∧ locked rt1 = false.
Proof.
  intros L H.
  destruct (fetch_rulings_cases _ _ _ _ _ _ _ H)
    as [(_ & -> & ->)|(key & _ & [(c & _ & -> & ->)|[(_ & ? & _)
       |[(_ & _ & ? & _ & -> & ->)|(_ & _ & ? & _ & -> & ->)]]])]; simplify_eq; (by split) || congruence.
Qed.

Lemma fetch_full_card_free card rt o rt1 :
  locked rt = false →
  exec (fetch_full_card card) rt = (o, rt1) →
  o ≠ Blocked ∧ locked rt1 = false.
Proof.
  intros L H. rewrite fetch_full_card_unfold in H.
  destruct (exec (fetch_card_data card) rt)
    as [o1 rt2] eqn:H1.
  destruct (fetch_card_data_free _ _ _ _ L H1) as [Hb L2].
  destruct o1 as [l|e|]; simplify_eq; try done.
  destruct (exec (fetch_rulings _) rt2)
    as [o2 rt3] eqn:H2.
  destruct (fetch_rulings_free _ _ _ _ L2 H2) as [Hb2 L3].
  destruct o2 as [rs|e|]; by simplify_eq.
Qed.

Lemma call_free c rt :
  locked rt = false →
  (exec (coroutine c) rt).1 ≠ Blocked ∧ locked (after_call rt c) = false.
Proof.
  intros L. destruct c as [card|card_id|card]; unfold coroutine, after_call;
    rewrite exec_fmap.
  - destruct (exec (fetch_card_data card) rt)
      as [o rt1] eqn:H.
    destruct (fetch_card_data_free _ _ _ _ L H). by destruct o.
  - destruct (exec (fetch_rulings card_id) rt)
      as [o rt1] eqn:H.
    destruct (fetch_rulings_free _ _ _ _ L H). by destruct o.
  - destruct (exec (fetch_full_card card) rt)
      as [o rt1] eqn:H.
    destruct (fetch_full_card_free _ _ _ _ L H). by destruct o.
Qed.

(** X1. After a [fetch_rulings] that returned, a second call with the
    same id returns the same list from the cache and leaves the service
    as it is: no request, no sleep.  The two calls together send at most
    one request. *)
Theorem fetch_rulings_twice card_id rt rulings rt1 :
  exec (fetch_rulings card_id) rt = (Returned rulings, rt1) →
  exec (fetch_rulings card_id) rt1 = (Returned rulings, rt1)
  ∧ (length (sent rt1) ≤ length (sent rt) + 1)%nat.
Proof.
  intros H. destruct (fetch_rulings_returned _ _ _ _ H) as (key & K & C & _ & Hs).
  split; [|done]. by eapply fetch_rulings_hit.
Qed.

(** X2. The permit never stays taken.  Through any sequence of calls
    awaited one after the other on a service whose permit is free,
    whatever each call returned or raised, the permit is free again after
    each call, and no call waits for it in vain. *)
Theorem permit_is_given_back rt calls c :
  locked rt = false →
  locked (after_calls rt calls) = false
  ∧ (exec (coroutine c) (after_calls rt calls)).1 ≠ Blocked
  ∧ locked (after_calls rt (calls ++ [c])) = false.
Proof.
  intros L.
  assert (∀ calls rt, locked rt = false → locked (after_calls rt calls) = false) as Hall.
  { clear. induction calls as [|c calls IH]; intros rt L; [done|].
    cbn [after_calls foldl]. apply IH. by apply call_free. }
  split; [by apply Hall|]. split; [|by apply Hall].
  apply call_free. by apply Hall.
Qed.

(** X3. A call of [fetch_card_data] or [fetch_rulings] that raises, with
    whatever exception (a status other than 200, a failure of the
    transport, a body that is not JSON, a payload of the wrong shape, an
    id that cannot be a key), leaves both caches and all records as they
    were. *)
Theorem raising_calls_store_nothing card card_id rt :
  (∀ e rt1, exec (fetch_card_data card) rt = (Raised e, rt1) → mem rt1 = mem rt)
  ∧ (∀ e rt1, exec (fetch_rulings card_id) rt = (Raised e, rt1) → mem rt1 = mem rt).
Proof.
  split; intros e rt1 H.
  - destruct (fetch_card_data_cases _ _ _ _ _ _ H)
      as [(c & _ & ? & ->)|[(_ & _ & ? & ->)|[(_ & _ & ? & _ & ? & ->)
         |(_ & _ & ? & _ & ? & _)]]]; by simplify_eq.
  - destruct (fetch_rulings_cases _ _ _ _ _ _ _ H)
      as [(_ & _ & ->)|(key & _ & [(c & _ & ? & ->)|[(_ & _ & ? & ->)
         |[(_ & _ & ? & _ & ? & ->)|(_ & _ & ? & _ & ? & _)]]])]; by simplify_eq.
Qed.

(** X4. When the card lookup of [fetch_full_card] succeeds and the
    rulings lookup raises, [fetch_full_card] raises that exception, but
    the card stays in the name cache, as [fetch_card_data] left it: the
    next [fetch_card_data] for the name returns it without a request. *)
Theorem rulings_failure_keeps_card card rt l rt1 e rt2 :
  exec (fetch_card_data card) rt = (Returned l, rt1) →
  exec (fetch_rulings (c_id (heap (mem rt1) !!! l))) rt1 = (Raised e, rt2) →
  exec (fetch_full_card card) rt = (Raised e, rt2)
  ∧ mem rt2 = mem rt1
  ∧ exec (fetch_card_data card) rt2 = (Returned l, rt2).
Proof.
  intros H1 H2. rewrite fetch_full_card_unfold, H1, H2. split; [done|].
  assert (mem rt2 = mem rt1) as Hm.
  { destruct (fetch_rulings_cases _ _ _ _ _ _ _ H2)
      as [(_ & _ & ->)|(key & _ & [(c & _ & ? & ->)|[(_ & _ & ? & ->)
         |[(_ & _ & ? & _ & ? & ->)|(_ & _ & ? & _ & ? & _)]]])]; by simplify_eq. }
  split; [done|]. apply fetch_card_data_hit. rewrite Hm.
  by destruct (fetch_card_data_returned _ _ _ _ H1).
Qed.

(** *** Payloads of the wrong shape *)

Lemma card_metadata_literal_bad payload :
  (∀ members, payload = JObj members →
     ¬ (object_or_absent "image_uris" members ∧ object_or_absent "legalities" members)) →
  card_metadata_literal payload = inl AttributeError.
Proof.
  intros Hbad. destruct payload as [| | | | | |members]; try done.
  specialize (Hbad members eq_refl).
  unfold card_metadata_literal, object_or_absent in *. simpl.
  destruct (assoc "image_uris" members) as [[]|];
    destruct (assoc "legalities" members) as [[]|]; simpl; try done; tauto.
Qed.

(** X5. A 200 payload that is not an object, or whose ["image_uris"] or
    ["legalities"] member is present and not an object (null, say), makes
    [fetch_card_data] raise [AttributeError], after the request has been
    sent and the delay spent; the permit is given back and nothing is
    cached. *)
Theorem fetch_card_data_bad_payload card rt resp payload :
  _card_cache (mem rt) !! card = None →
  locked rt = false →
  upstream (length (sent rt)) (card_request card) = Answer resp →
  status_code resp = 200 →
  body resp = Some payload →
  (∀ members, payload = JObj members →
     ¬ (object_or_absent "image_uris" members ∧ object_or_absent "legalities" members)) →
  exec (fetch_card_data card) rt
  = (Raised AttributeError,
     Runtime (mem rt) false (clock rt + Z.max 0 rate_limit_ms)
       (sent rt ++ [card_request card])).
Proof.
  intros C L R S B Hbad.
  rewrite (fetch_card_data_miss _ _ _ _ C L), R.
  unfold card_of_reply. rewrite decide_False by (rewrite S; auto).
  by rewrite B, card_metadata_literal_bad.
Qed.

Lemma append_rulings_rendered items clean_rulings :
  append_rulings py_repr items clean_rulings
  = if forallb is_object items
    then inr (clean_rulings ++ map (rendered py_repr) items)
    else inl AttributeError.
Proof.
  revert clean_rulings. induction items as [|ruling items IH]; intros clean_rulings.
  - simpl. by rewrite app_nil_r.
  - destruct ruling as [| | | | | |members]; try done.
    cbn [append_rulings py_get forallb is_object andb map rendered].
    rewrite IH. destruct (forallb is_object items); [|done].
    by rewrite <- app_assoc.
Qed.

(** X6. How [fetch_rulings] ends on a 200 payload, by what the payload
    has under ["data"].  Something that cannot be iterated (null, a
    number): [TypeError].  Entries that are all objects: one string per
    entry, in order, a missing date or comment showing as [None]; the
    list is cached under the id.  An entry that is not an object:
    [AttributeError], and nothing is cached. *)
Theorem fetch_rulings_by_payload card_id key rt resp payload data :
  py_hash card_id = inr key →
  _rulings_cache (mem rt) !! key = None →
  locked rt = false →
  upstream (length (sent rt)) (rulings_request py_repr card_id) = Answer resp →
  status_code resp = 200 →
  body resp = Some payload →
  py_get payload "data" (JArr []) = inr data →
  let (o, rt1) := exec (fetch_rulings card_id) rt in
  match py_iter data with
  | inl _ => o = Raised TypeError ∧ _rulings_cache (mem rt1) !! key = None
  | inr items =>
      if forallb is_object items
      then o = Returned (map (rendered py_repr) items)
           ∧ _rulings_cache (mem rt1) !! key = Some (map (rendered py_repr) items)
      else o = Raised AttributeError ∧ _rulings_cache (mem rt1) !! key = None
  end.
Proof.
  intros K C L R S B D.
  rewrite (fetch_rulings_miss _ _ _ _ _ _ K C L), R.
  unfold rulings_of_reply. rewrite decide_False by (rewrite S; auto).
  rewrite B. simpl. rewrite D. simpl.
  destruct (py_iter data) as [e|items] eqn:I; simpl.
  - split; [|done]. destruct data; simpl in I; congruence.
  - rewrite append_rulings_rendered.
    destruct (forallb is_object items); simpl; [|done].
    by rewrite lookup_insert_eq.
Qed.

(** *** Ids that are not strings *)

Lemma fetch_card_data_fresh card rt resp members :
  _card_cache (mem rt) !! card = None →
  locked rt = false →
  upstream (length (sent rt)) (card_request card) = Answer resp →
  status_code resp = 200 →
  body resp = Some (JObj members) →
  object_or_absent "image_uris" members →
  object_or_absent "legalities" members →
  exec (fetch_card_data card) rt
  = (Returned (length (heap (mem rt))),
     Runtime (Memory (<[card := length (heap (mem rt))]> (_card_cache (mem rt)))
                (_rulings_cache (mem rt)) (heap (mem rt) ++ [extracted members]))
       false (clock rt + Z.max 0 rate_limit_ms)
       (sent rt ++ [card_request card])).
Proof.
  intros C L R S B Hi Hl.
  rewrite (fetch_card_data_miss _ _ _ _ C L), R.
  unfold card_of_reply. rewrite decide_False by (rewrite S; auto).
  by rewrite B, card_metadata_literal_object.
Qed.

(** X7. When the card payload has no ["id"], or has null for it,
    [fetch_full_card] goes on with the id [None]: its second request goes
    to the rulings of a card named None. *)
Theorem missing_id_asks_for_None card rt resp members :
  _card_cache (mem rt) !! card = None →
  locked rt = false →
  upstream (length (sent rt)) (card_request card) = Answer resp →
  status_code resp = 200 →
  body resp = Some (JObj members) →
  object_or_absent "image_uris" members →
  object_or_absent "legalities" members →
  member "id" members = JNull →
  _rulings_cache (mem rt) !! KNone = None →
  sent (exec (fetch_full_card card) rt).2
  = sent rt ++ [card_request card;
                Request "https://api.scryfall.com/cards/None/rulings" []].
Proof.
  intros C L R S B Hi Hl Hid C'.
  rewrite fetch_full_card_unfold, (fetch_card_data_fresh _ _ _ _ C L R S B Hi Hl).
  cbn [mem heap]. rewrite list_lookup_total_middle by done.
  change (c_id (extracted members)) with (member "id" members). rewrite Hid.
  rewrite (fetch_rulings_miss _ _ _ JNull KNone) by done.
  cbn [sent]. rewrite <- app_assoc.
  by destruct (rulings_of_reply _ _ _).
Qed.

(** X8. When the ["id"] of the card payload is a list or an object, it
    cannot be looked up in the rulings cache: [fetch_full_card] raises
    [TypeError] without a second request, and the card stays cached. *)
Theorem unhashable_id_raises card rt resp members :
  _card_cache (mem rt) !! card = None →
  locked rt = false →
  upstream (length (sent rt)) (card_request card) = Answer resp →
  status_code resp = 200 →
  body resp = Some (JObj members) →
  object_or_absent "image_uris" members →
  object_or_absent "legalities" members →
  py_hash (member "id" members) = inl TypeError →
  exec (fetch_full_card card) rt
  = (Raised TypeError,
     Runtime (Memory (<[card := length (heap (mem rt))]> (_card_cache (mem rt)))
                (_rulings_cache (mem rt)) (heap (mem rt) ++ [extracted members]))
       false (clock rt + Z.max 0 rate_limit_ms)
       (sent rt ++ [card_request card])).
Proof.
  intros C L R S B Hi Hl Hid.
  rewrite fetch_full_card_unfold, (fetch_card_data_fresh _ _ _ _ C L R S B Hi Hl).
  cbn [mem heap]. rewrite list_lookup_total_middle by done.
  change (c_id (extracted members)) with (member "id" members).
  by rewrite (fetch_rulings_unhashable _ _ _ _ _ TypeError).
Qed.

(** *** The full fetch, again *)

Lemma set_rulings_twice rulings d :
  set_rulings rulings (set_rulings rulings d) = set_rulings rulings d.
Proof. done. Qed.

Lemma assign_rulings_twice l rulings m :
  assign_rulings l rulings (assign_rulings l rulings m) = assign_rulings l rulings m.
Proof.
  unfold assign_rulings. simpl. f_equal.
  rewrite list_alter_alter_eq. apply list_alter_ext; [|done].
  intros d _. apply set_rulings_twice.
Qed.

(** X9. [fetch_full_card] is idempotent: after a call that returned, a
    second call with the same name returns the same object and leaves the
    service exactly as it is, records included; it sends nothing. *)
Theorem fetch_full_card_twice card rt l rt1 :
  wf_memory (mem rt) →
  exec (fetch_full_card card) rt = (Returned l, rt1) →
  exec (fetch_full_card card) rt1 = (Returned l, rt1).
Proof.
  intros W H. rewrite fetch_full_card_unfold in H.
  destruct (exec (fetch_card_data card) rt) as [o1 rt2] eqn:H1.
  destruct o1 as [l1|e|]; simplify_eq.
  destruct (fetch_card_data_wf _ _ _ _ _ _ W H1) as [_ Hl].
  destruct (Hl l1 eq_refl) as [Hlt _].
  destruct (fetch_card_data_returned _ _ _ _ H1) as (Hc & _ & _).
  destruct (exec (fetch_rulings _) rt2) as [o2 rt3] eqn:H2.
  destruct o2 as [rs|e|]; simplify_eq.
  destruct (fetch_rulings_mem _ _ _ _ _ _ _ H2) as [Hh Hc'].
  destruct (fetch_rulings_returned _ _ _ _ H2) as (key & K & Hr & _ & _).
  rewrite <- Hh in Hlt. apply lookup_lt_is_Some_2 in Hlt as [d Hd].
  assert (heap (mem rt2) !!! l = d) as Hd2.
  { apply list_lookup_total_correct. by rewrite <- Hh. }
  rewrite Hd2 in H2, K.
  set (rt1 := with_mem (assign_rulings l rs) rt3).
  assert (exec (fetch_card_data card) rt1 = (Returned l, rt1)) as E1.
  { apply fetch_card_data_hit. simpl. by rewrite Hc'. }
  assert (heap (mem rt1) !!! l = set_rulings rs d) as Hd1.
  { apply list_lookup_total_correct. simpl. by rewrite list_lookup_alter_eq, Hd. }
  assert (exec (fetch_rulings (c_id d)) rt1 = (Returned rs, rt1)) as E2.
  { eapply fetch_rulings_hit; [exact K|done]. }
  rewrite fetch_full_card_unfold, E1, Hd1. simpl c_id. rewrite E2.
  f_equal. subst rt1. unfold with_mem. cbn [mem locked clock sent].
  by rewrite assign_rulings_twice.
Qed.

(** *** One name, one record *)

Lemma fetch_card_data_separate card rt o rt1 :
  separate (mem rt) →
  exec (fetch_card_data card) rt = (o, rt1) →
  separate (mem rt1).
Proof.
  intros [W I] H. split; [by apply (fetch_card_data_wf _ _ _ _ _ _ W H)|].
  destruct (fetch_card_data_cases _ _ _ _ _ _ H)
    as [(l & C & -> & ->)|[(C & L & -> & ->)|[(C & L & e & R & -> & ->)
       |(C & L & c & R & -> & ->)]]]; try done.
  simpl. intros c1 c2 l.
  destruct (decide (card = c1)) as [<-|N1], (decide (card = c2)) as [<-|N2];
    rewrite ?lookup_insert_eq, ?lookup_insert_ne by done; try done.
  - intros [= <-] H2. apply W in H2. lia.
  - intros H1 [= <-]. apply W in H1. lia.
  - apply I.
Qed.

Lemma separate_same_cache m m' :
  _card_cache m' = _card_cache m → length (heap m') = length (heap m) →
  separate m → separate m'.
Proof.
  intros Hc Hh [W I]. split.
  - intros card l. rewrite Hc, Hh. apply W.
  - intros c1 c2 l. rewrite Hc. apply I.
Qed.

Lemma fetch_rulings_separate card_id rt o rt1 :
  separate (mem rt) →
  exec (fetch_rulings card_id) rt = (o, rt1) →
  separate (mem rt1).
Proof.
  intros S H. destruct (fetch_rulings_mem _ _ _ _ _ _ _ H) as [Hh Hc].
  eapply separate_same_cache; [done| |done]. by rewrite Hh.
Qed.

Lemma fetch_full_card_separate card rt o rt1 :
  separate (mem rt) →
  exec (fetch_full_card card) rt = (o, rt1) →
  separate (mem rt1).
Proof.
  intros S H. rewrite fetch_full_card_unfold in H.
  destruct (exec (fetch_card_data card) rt) as [o1 rt2] eqn:H1.
  pose proof (fetch_card_data_separate _ _ _ _ S H1) as S2.
  destruct o1 as [l|e|]; simplify_eq; try done.
  destruct (exec (fetch_rulings _) rt2) as [o2 rt3] eqn:H2.
  pose proof (fetch_rulings_separate _ _ _ _ S2 H2) as S3.
  destruct o2 as [rs|e|]; simplify_eq; try done.
  eapply separate_same_cache; [| |exact S3]; simpl; [done|apply length_alter].
Qed.

Lemma after_call_separate rt c : separate (mem rt) → separate (mem (after_call rt c)).
Proof.
  intros S. destruct c as [card|card_id|card]; unfold after_call.
  - destruct (exec (fetch_card_data card) rt) as [o rt1] eqn:H.
    by eapply fetch_card_data_separate.
  - destruct (exec (fetch_rulings card_id) rt) as [o rt1] eqn:H.
    by eapply fetch_rulings_separate.
  - destruct (exec (fetch_full_card card) rt) as [o rt1] eqn:H.
    by eapply fetch_full_card_separate.
Qed.

Lemma after_calls_separate rt calls :
  separate (mem rt) → separate (mem (after_calls rt calls)).
Proof.
  revert rt. induction calls as [|c calls IH]; intros rt S; [done|].
  cbn [after_calls foldl]. by apply IH, after_call_separate.
Qed.

Lemma fetch_card_data_others card other rt o rt1 :
  wf_memory (mem rt) → other ≠ card →
  exec (fetch_card_data card) rt = (o, rt1) →
  _card_cache (mem rt1) !! other = _card_cache (mem rt) !! other
  ∧ cached_record (mem rt1) other = cached_record (mem rt) other.
Proof.
  intros W N H.
  destruct (fetch_card_data_cases _ _ _ _ _ _ H)
    as [(l & C & -> & ->)|[(C & L & -> & ->)|[(C & L & e & R & -> & ->)
       |(C & L & c & R & -> & ->)]]]; try done.
  unfold cached_record. simpl. rewrite lookup_insert_ne by done. split; [done|].
  destruct (_card_cache (mem rt) !! other) as [l|] eqn:Hl; [|done]. simpl.
  apply lookup_app_l, (W _ _ Hl).
Qed.

(** X10. Every name has a record of its own, and a call about one name
    leaves the others alone.  Started from a service in which no two
    names share a record (a new service, say), after any calls awaited
    one after the other, a call that looks up some name changes neither
    the binding nor the record, rulings included, of any other name; and
    [fetch_rulings] changes no card record at all. *)
Theorem calls_leave_other_names_alone rt0 calls c other :
  separate (mem rt0) →
  name_of c ≠ Some other →
  let rt := after_calls rt0 calls in
  _card_cache (mem (after_call rt c)) !! other = _card_cache (mem rt) !! other
  ∧ cached_record (mem (after_call rt c)) other = cached_record (mem rt) other.
Proof.
  intros S0 N rt.
  assert (separate (mem rt)) as S by by apply after_calls_separate.
  clearbody rt. clear S0.
  destruct c as [card|card_id|card]; unfold after_call; simpl in N.
  - destruct (exec (fetch_card_data card) rt) as [o rt1] eqn:H.
    apply (fetch_card_data_others card other rt o rt1); [apply S|by intros ->|done].
  - destruct (exec (fetch_rulings card_id) rt) as [o rt1] eqn:H.
    destruct (fetch_rulings_mem _ _ _ _ _ _ _ H) as [Hh Hc].
    unfold cached_record. cbn [snd]. by rewrite Hh, Hc.
  - assert (other ≠ card) as N' by by intros ->.
    destruct (exec (fetch_full_card card) rt) as [o rt1] eqn:H. cbn [snd].
    rewrite fetch_full_card_unfold in H.
    destruct (exec (fetch_card_data card) rt) as [o1 rt2] eqn:H1.
    destruct (fetch_card_data_others _ _ _ _ _ (proj1 S) N' H1) as [Hc2 Hr2].
    pose proof (fetch_card_data_separate _ _ _ _ S H1) as S2.
    destruct o1 as [l|e|]; simplify_eq; try done.
    destruct (fetch_card_data_returned _ _ _ _ H1) as (Hl & _ & _).
    destruct (exec (fetch_rulings _) rt2) as [o2 rt3] eqn:H2.
    destruct (fetch_rulings_mem _ _ _ _ _ _ _ H2) as [Hh Hc].
    assert (_card_cache (mem rt3) !! other = _card_cache (mem rt) !! other
            ∧ cached_record (mem rt3) other = cached_record (mem rt) other) as [Hc3 Hr3].
    { unfold cached_record in *. by rewrite Hh, Hc. }
    destruct o2 as [rs|e|]; simplify_eq; try done.
    simpl. split; [done|]. rewrite <- Hr3. unfold cached_record. simpl.
    destruct (_card_cache (mem rt3) !! other) as [lo|] eqn:Ho; [|done]. simpl.
    apply list_lookup_alter_ne. intros <-.
    apply N'. apply (proj2 S2 other card l); [by rewrite <- Hc|done].
Qed.

End SequentialCalls.

(** ** What the tasks do to the service, under any schedule *)

Section Footprint.
Variable R : memory → memory → Prop.
Variable P : request → Prop.
Hypothesis R_refl : ∀ m, R m m.
Hypothesis R_trans : ∀ m1 m2 m3, R m1 m2 → R m2 m3 → R m1 m3.

Local Abbreviation within := (within R P).
Local Abbreviation task_within := (task_within R P).
Local Abbreviation footprint_inv := (footprint_inv R P).

Lemma within_weaken {A} n n' (p : prog A) :
  within n p → (n ≤ n')%nat → within n' p.
Proof.
  intros Hp. revert n'. induction Hp; intros n' Hle; try (constructor; by eauto).
  destruct n' as [|n']; [lia|]. constructor; [done|]. intros r. eauto with lia.
Qed.

Lemma within_bind {A B} n n' (p : prog A) (f : A → prog B) :
  within n p → (∀ a, within n' (f a)) → within (n + n') (p ≫= f).
Proof.
  intros Hp Hf. unfold mbind, prog_bind.
  induction Hp; simpl; try (constructor; by eauto).
  eapply within_weaken; [apply Hf|lia].
Qed.

Lemma within_fmap {A B} n (g : A → B) (p : prog A) :
  within n p → within n (g <$> p).
Proof.
  intros Hp. rewrite <- (Nat.add_0_r n).
  apply (within_bind n 0 p (λ a, Return (g a))); [done|]. intros a. constructor.
Qed.

Lemma within_releasing {A} n (p : prog A) : within n p → within n (releasing p).
Proof. induction 1; simpl; repeat (constructor; eauto). Qed.

Lemma within_lift {A} n (r : result A) : within n (lift r).
Proof. destruct r; constructor. Qed.

Section Service.
Variable rate_limit_ms : Z.
Variable py_repr : json → string.
Hypothesis R_alloc : ∀ c m, R m (alloc c m).
Hypothesis R_store_card : ∀ card l m, R m (store_card card l m).
Hypothesis R_store_rulings : ∀ key rulings m, R m (store_rulings key rulings m).
Hypothesis R_assign_rulings : ∀ l rulings m, R m (assign_rulings l rulings m).
Hypothesis P_rulings : ∀ card_id, P (rulings_request py_repr card_id).

Lemma fetch_card_data_within card :
  P (card_request card) → within 1 (fetch_card_data rate_limit_ms card).
Proof.
  intros HP. unfold fetch_card_data. constructor. intros m.
  destruct (_card_cache m !! card); [constructor|].
  apply (within_bind 1 0).
  - constructor. apply within_releasing. constructor.
    unfold client_get. simpl. constructor; [done|].
    intros [resp|e]; simpl; [|constructor].
    destruct (decide _); [constructor|].
    unfold response_json. destruct (body resp) as [data|]; simpl; [|constructor].
    destruct (card_metadata_literal data) as [e|c]; simpl; [constructor|].
    repeat (constructor; auto).
  - intros l. repeat (constructor; auto).
Qed.

Lemma fetch_rulings_within card_id :
  within 1 (fetch_rulings rate_limit_ms py_repr card_id).
Proof.
  unfold fetch_rulings. destruct (py_hash card_id) as [e|key]; [constructor|].
  constructor. intros m.
  destruct (_rulings_cache m !! key); [constructor|].
  apply (within_bind 1 0).
  - constructor. apply within_releasing. constructor.
    unfold client_get. simpl. constructor; [apply P_rulings|].
    intros [resp|e]; simpl; [|constructor].
    destruct (decide _); [constructor|].
    unfold response_json. destruct (body resp) as [payload|]; simpl; [|constructor].
    destruct (py_get payload "data" (JArr [])) as [e|data]; simpl; [constructor|].
    destruct (py_iter data) as [e|items]; simpl; [constructor|].
    apply within_lift.
  - intros rs. repeat (constructor; auto).
Qed.

Lemma fetch_full_card_within card :
  P (card_request card) → within 2 (fetch_full_card rate_limit_ms py_repr card).
Proof.
  intros HP. unfold fetch_full_card.
  apply (within_bind 1 1); [by apply fetch_card_data_within|].
  intros l. constructor. intros m.
  apply (within_bind 1 0); [apply fetch_rulings_within|].
  intros rs. repeat (constructor; auto).
Qed.

End Service.

Section OnTheLoop.
Variable upstream : nat → request → reply.
Context {A : Type}.
Implicit Types (s : sys A) (t : task A) (p : prog A).

Lemma run_within queue n p st t st' :
  within n p →
  run upstream queue p st = (t, st') →
  R (mem st) (mem st')
  ∧ ∃ extra n', sent st' = sent st ++ extra ∧ Forall P extra
      ∧ task_within n' t ∧ (length extra + n' ≤ n)%nat.
Proof.
  intros Hp. revert st.
  induction Hp as [n a|n e|n k _ IH|n f k Hf _ IH|n k Hk IH|n k _ IH|n ms k Hk _
                   |n req k HP Hk _]; intros st Hrun; simpl in Hrun.
  - injection Hrun as <- <-. split; [done|]. exists [], 0%nat.
    rewrite app_nil_r. split_and!; try done. simpl. lia.
  - injection Hrun as <- <-. split; [done|]. exists [], 0%nat.
    rewrite app_nil_r. split_and!; try done. simpl. lia.
  - by apply (IH (mem st)).
  - destruct (IH _ Hrun) as [HR H]. split; [|done].
    eapply R_trans; [apply Hf|exact HR].
  - destruct (locked st || queue).
    + injection Hrun as <- <-. split; [done|]. exists [], n.
      rewrite app_nil_r. split_and!; try done.
    + by apply (IH (with_locked true st)).
  - by apply (IH (with_locked false st)).
  - injection Hrun as <- <-. split; [done|]. exists [], n.
    rewrite app_nil_r. split_and!; try done.
  - injection Hrun as <- <-. split; [done|]. exists [req], n.
    split_and!; try done.
    + by apply Forall_singleton.
    + apply Hk.
Qed.

Lemma resume_within queue n t st t' st' :
  task_within n t →
  resume upstream queue t st = Some (t', st') →
  R (mem st) (mem st')
  ∧ ∃ extra n', sent st' = sent st ++ extra ∧ Forall P extra
      ∧ task_within n' t' ∧ (length extra + n' ≤ n)%nat.
Proof.
  intros Ht Hr. destruct t as [p|k|wake k|r k|r]; simpl in *.
  - injection Hr as Hr. by eapply run_within.
  - destruct (locked st); [done|]. injection Hr as Hr.
    by apply (run_within queue n k (with_locked true st)).
  - destruct (decide _); [|done]. injection Hr as Hr. by eapply run_within.
  - injection Hr as Hr. by eapply run_within.
  - done.
Qed.

Lemma sum_list_insert (budgets : list nat) i n n' :
  budgets !! i = Some n →
  (sum_list (<[i:=n']> budgets) + n = sum_list budgets + n')%nat.
Proof.
  revert i. induction budgets as [|b budgets IH]; intros [|i] Hi; simplify_eq/=.
  - lia.
  - specialize (IH _ Hi). lia.
Qed.

Lemma sys_step_footprint_inv service total s a :
  footprint_inv service total s →
  footprint_inv service total (sys_step upstream s a).
Proof.
  intros (HR & extra & budgets & Hsent & HP & Hts & Hsum).
  destruct a as [i queue|ms]; simpl.
  - destruct (tasks s !! i) as [t|] eqn:Hi; [|by split; eauto 10].
    destruct (resume upstream queue t (rt s)) as [[t' st']|] eqn:Hr;
      [|by split; eauto 10].
    destruct (Forall2_lookup_r _ _ _ _ _ Hts Hi) as (n & Hn & Ht).
    destruct (resume_within queue n t (rt s) t' st' Ht Hr)
      as (HR' & more & n' & Hsent' & HP' & Ht' & Hle).
    split; simpl; [by eapply R_trans|].
    exists (extra ++ more), (<[i:=n']> budgets). split_and!.
    + by rewrite Hsent', Hsent, app_assoc.
    + by apply Forall_app.
    + by apply Forall2_insert.
    + pose proof (sum_list_insert budgets i n n' Hn). rewrite length_app. lia.
  - split; [done|]. by exists extra, budgets.
Qed.

Lemma sys_run_footprint_inv service total s schedule :
  footprint_inv service total s →
  footprint_inv service total (sys_run upstream s schedule).
Proof.
  intros H. apply sys_run_ind; [done|]. intros. by apply sys_step_footprint_inv.
Qed.

Lemma footprint_inv_init service (ts : list (task A)) (budgets : list nat) :
  Forall2 task_within budgets ts →
  footprint_inv service (sum_list budgets) (Sys service ts []).
Proof.
  intros H. split; [apply R_refl|]. exists [], budgets. simpl.
  rewrite app_nil_r. split_and!; done.
Qed.

End OnTheLoop.

End Footprint.

Section Traffic.
Variable rate_limit_ms : Z.
Variable py_repr : json → string.
Variable upstream : nat → request → reply.

Local Abbreviation batch_fetch_card_data :=
  (batch_fetch_card_data rate_limit_ms py_repr upstream).
Local Abbreviation create_tasks := (create_tasks rate_limit_ms py_repr).
Local Abbreviation coroutine := (coroutine rate_limit_ms py_repr).
Local Abbreviation sys_run := (sys_run upstream).

Lemma keeps_refl m : keeps m m.
Proof. split_and!; try done. intros l d H. exists d. split; [done|by left]. Qed.

Lemma keeps_trans m1 m2 m3 : keeps m1 m2 → keeps m2 m3 → keeps m1 m3.
Proof.
  intros (A1 & B1 & C1) (A2 & B2 & C2). split_and!; eauto.
  intros l d H. destruct (C1 _ _ H) as (d' & H' & S').
  destruct (C2 _ _ H') as (d'' & H'' & S''). eauto using same_card_trans.
Qed.

Lemma keeps_alloc c m : keeps m (alloc c m).
Proof.
  split_and!; try done. intros l d H. exists d. split; [|by left].
  by apply lookup_app_l_Some.
Qed.

Lemma keeps_store_card card l m : keeps m (store_card card l m).
Proof.
  split_and!; simpl; [|done|].
  - intros card' H. destruct (decide (card = card')) as [<-|N].
    + rewrite lookup_insert_eq. eauto.
    + by rewrite lookup_insert_ne.
  - intros l' d H. exists d. split; [done|by left].
Qed.

Lemma keeps_store_rulings key rulings m : keeps m (store_rulings key rulings m).
Proof.
  split_and!; simpl; [done| |].
  - intros key' H. destruct (decide (key = key')) as [<-|N].
    + rewrite lookup_insert_eq. eauto.
    + by rewrite lookup_insert_ne.
  - intros l' d H. exists d. split; [done|by left].
Qed.

Lemma keeps_assign_rulings l rulings m : keeps m (assign_rulings l rulings m).
Proof.
  split_and!; simpl; [done..|].
  intros l' d H. destruct (decide (l = l')) as [->|N].
  - exists (set_rulings rulings d). rewrite list_lookup_alter_eq, H. split; [done|].
    right. eauto.
  - exists d. rewrite list_lookup_alter_ne by done. split; [done|by left].
Qed.

Lemma sum_list_twos {A} (l : list A) :
  sum_list ((λ _, 2%nat) <$> l) = (2 * length l)%nat.
Proof. induction l as [|x l IH]; [done|]. rewrite fmap_cons. simpl. rewrite IH. lia. Qed.

(** X11. Under every schedule, a batch adds to the requests sent at most
    two per name, and each of them is the card request of one of the names,
    with the name as it was given, or a rulings request, without
    parameters. *)
Theorem batch_sends_at_most_two_per_name cards progress service schedule :
  let s := (batch_fetch_card_data cards progress service schedule).2 in
  ∃ extra, sent (rt s) = sent service ++ extra
    ∧ (length extra ≤ 2 * length cards)%nat
    ∧ Forall (batch_request py_repr cards) extra.
Proof.
  unfold batch_fetch_card_data. cbn [snd].
  destruct (sys_run_footprint_inv (λ _ _, True) (batch_request py_repr cards)
              (λ _, I) (λ _ _ _ _ _, I) upstream service (2 * length cards)
              (Sys service (create_tasks cards) []) schedule)
    as (_ & extra & budgets & Hsent & HP & _ & Hle).
  - rewrite <- (sum_list_twos cards).
    apply footprint_inv_init; [done|].
    apply Forall2_fmap, Forall_Forall2_diag, Forall_forall. intros card Hcard.
    apply fetch_full_card_within; try done.
    + intros card_id. right. eauto.
    + left. eauto.
  - exists extra. split_and!; [done|lia|done].
Qed.

(** X12. Nothing is evicted.  Under every schedule of any calls of the
    service's coroutines, a key of the name cache or of the rulings cache
    stays a key, an object stays where it is, and it changes in nothing
    but its rulings. *)
Theorem nothing_is_evicted service (calls : list call) schedule :
  let s := sys_run (Sys service (map (λ c, Ready (coroutine c)) calls) []) schedule in
  keeps (mem service) (mem (rt s)).
Proof.
  intros s.
  destruct (sys_run_footprint_inv keeps (λ _, True) keeps_refl keeps_trans upstream service
              (sum_list (request_budget <$> calls))
              (Sys service (map (λ c, Ready (coroutine c)) calls) []) schedule)
    as (H & _); [|done].
  apply footprint_inv_init; [apply keeps_refl|].
  apply Forall2_fmap, Forall_Forall2_diag, Forall_forall. intros c _.
  destruct c as [card|card_id|card]; unfold coroutine; apply within_fmap.
  - apply fetch_card_data_within; auto using keeps_alloc, keeps_store_card.
  - apply (fetch_rulings_within _ _ rate_limit_ms py_repr);
      auto using keeps_store_rulings.
  - apply fetch_full_card_within;
      auto using keeps_alloc, keeps_store_card, keeps_store_rulings,
        keeps_assign_rulings.
Qed.

(** X19. The batch is rate limited.  From a service whose permit is
    free, under every schedule: at most one task of the batch is pacing or
    has a request in flight, the permit being taken exactly then; and the
    time that has passed is at least [rate_limit_ms] for every request
    the batch has sent. *)
Theorem batch_is_rate_limited cards progress service schedule :
  locked service = false →
  let s := (batch_fetch_card_data cards progress service schedule).2 in
  exclusive s
  ∧ (rate_limit_ms * Z.of_nat (length (sent (rt s)) - length (sent service))
     ≤ clock (rt s) - clock service)%Z.
Proof.
  intros L. unfold batch_fetch_card_data. cbn [snd].
  destruct (gated_tasks_serialise rate_limit_ms upstream service
              (create_tasks cards) schedule L) as (Hex & _ & Htime); [|done].
  apply Forall_map, Forall_forall. intros card _. eexists. split; [done|].
  apply fetch_full_card_gated.
Qed.

End Traffic.

(** ** More on the batch *)

Section Collecting.
Variable rate_limit_ms : Z.
Variable py_repr : json → string.
Variable upstream : nat → request → reply.

Local Abbreviation batch_fetch_card_data :=
  (batch_fetch_card_data rate_limit_ms py_repr upstream).
Local Abbreviation create_tasks := (create_tasks rate_limit_ms py_repr).
Local Abbreviation sys_run := (sys_run upstream).
Local Abbreviation sys_step := (sys_step upstream).

Lemma lookups_of_seq (l : list nat) : (λ i, l !!! i) <$> seq 0 (length l) = l.
Proof.
  apply list_eq. intros i. rewrite list_lookup_fmap.
  destruct (decide (i < length l)%nat) as [Hlt|Hge].
  - rewrite lookup_seq_lt by done. simpl.
    by rewrite list_lookup_lookup_total_lt.
  - rewrite lookup_seq_ge by lia. simpl. symmetry. apply lookup_ge_None_2. lia.
Qed.

(** X13. With progress reporting, a call that returns returns the values
    in the order in which the tasks finished: entry [k] is the value of the
    [k]-th task to finish.  It is a rearrangement of the list the call
    returns without progress reporting on the same run. *)
Theorem progress_collects_in_completion_order cards service schedule results :
  let s := (batch_fetch_card_data cards true service schedule).2 in
  (batch_fetch_card_data cards true service schedule).1 = Some (inr results) →
  Forall2 (λ i l, tasks s !! i = Some (Done (inr l))) (completed s) results
  ∧ ∃ ordered,
      (batch_fetch_card_data cards false service schedule).1 = Some (inr ordered)
      ∧ results ≡ₚ ordered.
Proof.
  unfold batch_fetch_card_data. cbn [fst snd].
  pose proof (batch_completed_ok rate_limit_ms py_repr upstream cards service schedule)
    as Hok.
  set (s := sys_run _ schedule) in *.
  unfold as_completed, gather.
  destruct (first_exception (tasks s) (completed s)) eqn:He; [done|].
  destruct (forallb is_done (tasks s)) eqn:Hall; [|done].
  destruct (mapM _ (completed s)) as [rs|] eqn:Hm; [|done]. intros [= ->].
  apply mapM_Some_1 in Hm.
  assert (Forall2 (λ i l, tasks s !! i = Some (Done (inr l))) (completed s) results)
    as HF.
  { eapply Forall2_impl; [exact Hm|]. intros i l Hi. simpl in Hi.
    destruct (tasks s !! i) as [[?|?|? ?|? ?|[?|?]]|]; by simplify_eq/=. }
  split; [done|].
  destruct (collected_when_done s Hok Hall) as [[g Hg] _].
  unfold gather in Hg. rewrite He in Hg.
  destruct (mapM value_of (tasks s)) as [ordered|] eqn:Hv; [|done].
  exists ordered. split; [done|].
  apply mapM_value_of in Hv.
  assert (results = (λ i, ordered !!! i) <$> completed s) as ->.
  { symmetry. apply list_eq_Forall2, Forall2_fmap_l.
    eapply Forall2_impl; [exact HF|]. intros i l Hi. simpl.
    rewrite Hv, list_lookup_fmap in Hi.
    destruct (ordered !! i) as [l'|] eqn:Hl; simplify_eq/=.
    by apply list_lookup_total_correct. }
  rewrite (completed_all s Hok Hall), Hv, length_map.
  by rewrite lookups_of_seq.
Qed.

(** X14. A batch of no names returns the empty list, in either mode and
    at once, and leaves the service as it is: nothing is sent, nothing is
    cached, the permit is not touched. *)
Theorem batch_of_no_names progress service schedule :
  let out := (batch_fetch_card_data [] progress service schedule).1 in
  let s := (batch_fetch_card_data [] progress service schedule).2 in
  out = Some (inr [])
  ∧ mem (rt s) = mem service
  ∧ sent (rt s) = sent service
  ∧ locked (rt s) = locked service.
Proof.
  unfold batch_fetch_card_data. cbn [fst snd].
  assert (∃ st, sys_run (Sys service (create_tasks []) []) schedule = Sys st [] []
            ∧ mem st = mem service ∧ sent st = sent service
            ∧ locked st = locked service) as (st & -> & Hm & Hs & Hl).
  { apply (sys_run_ind upstream (λ s, ∃ st, s = Sys st [] []
            ∧ mem st = mem service ∧ sent st = sent service
            ∧ locked st = locked service)).
    - by exists service.
    - intros s' a (st & -> & ? & ? & ?). destruct a as [i q|ms]; simpl.
      + by exists st.
      + by exists (advance ms st). }
  split; [by destruct progress|done].
Qed.

End Collecting.

(** ** Names given twice *)

Section Owing.
Variable upstream : nat → request → reply.
Variable req : request.
Context {A : Type}.
Implicit Types (s : sys A) (t : task A) (p : prog A).

Lemma run_appends queue p st t st' :
  run upstream queue p st = (t, st') → ∃ extra, sent st' = sent st ++ extra.
Proof.
  revert st. induction p as [a|e|k IH|f k IH|k IH|k IH|ms k IH|req' k IH];
    intros st Hrun; simpl in Hrun.
  - injection Hrun as <- <-. exists []. by rewrite app_nil_r.
  - injection Hrun as <- <-. exists []. by rewrite app_nil_r.
  - by apply (IH (mem st)).
  - by apply (IH (with_mem f st)).
  - destruct (locked st || queue).
    + injection Hrun as <- <-. exists []. by rewrite app_nil_r.
    + by apply (IH (with_locked true st)).
  - by apply (IH (with_locked false st)).
  - injection Hrun as <- <-. exists []. by rewrite app_nil_r.
  - injection Hrun as <- <-. by exists [req'].
Qed.

Lemma run_owes queue p st t st' :
  owes req p →
  run upstream queue p st = (t, st') →
  ∃ extra, sent st' = sent st ++ extra ∧ (task_owes req t ∨ req ∈ extra).
Proof.
  intros Hp. revert st.
  induction Hp as [k _ IH|f k _ IH|k Hk IH|k _ IH|ms k Hk _|k|req' k Hk _];
    intros st Hrun; simpl in Hrun.
  - by apply (IH (mem st)).
  - by apply (IH (with_mem f st)).
  - destruct (locked st || queue).
    + injection Hrun as <- <-. exists []. rewrite app_nil_r. by split; [|left].
    + by apply (IH (with_locked true st)).
  - by apply (IH (with_locked false st)).
  - injection Hrun as <- <-. exists []. rewrite app_nil_r. by split; [|left].
  - injection Hrun as <- <-. exists [req]. split; [done|]. right.
    by apply list_elem_of_singleton.
  - injection Hrun as <- <-. exists [req']. split; [done|]. left. apply Hk.
Qed.

Lemma resume_appends queue t st t' st' :
  resume upstream queue t st = Some (t', st') → ∃ extra, sent st' = sent st ++ extra.
Proof.
  intros Hr. destruct t as [p|k|wake k|r k|r]; simpl in *.
  - injection Hr as Hr. by eapply run_appends.
  - destruct (locked st); [done|]. injection Hr as Hr.
    by apply (run_appends queue k (with_locked true st) t' st').
  - destruct (decide _); [|done]. injection Hr as Hr. by eapply run_appends.
  - injection Hr as Hr. by eapply run_appends.
  - done.
Qed.

Lemma resume_owes queue t st t' st' :
  task_owes req t →
  resume upstream queue t st = Some (t', st') →
  ∃ extra, sent st' = sent st ++ extra ∧ (task_owes req t' ∨ req ∈ extra).
Proof.
  intros Ht Hr. destruct t as [p|k|wake k|r k|r]; simpl in *.
  - injection Hr as Hr. by eapply run_owes.
  - destruct (locked st); [done|]. injection Hr as Hr.
    by apply (run_owes queue k (with_locked true st) t' st').
  - destruct (decide _); [|done]. injection Hr as Hr. by eapply run_owes.
  - injection Hr as Hr. by eapply run_owes.
  - done.
Qed.

Lemma times_sent_app reqs more :
  times_sent req (reqs ++ more) = (times_sent req reqs + times_sent req more)%nat.
Proof. unfold times_sent. by rewrite filter_app, length_app. Qed.

Lemma times_sent_elem reqs : req ∈ reqs → (1 ≤ times_sent req reqs)%nat.
Proof.
  intros H. unfold times_sent.
  assert (req ∈ filter (eq req) reqs) as Hin by by apply list_elem_of_filter.
  destruct (filter (eq req) reqs); [by apply elem_of_nil in Hin|simpl; lia].
Qed.

Lemma sys_step_owing_inv service n among s a :
  owing_inv req service n among s →
  owing_inv req service n among (sys_step upstream s a).
Proof.
  intros (extra & owing & Hsent & Hsub & Howes & Hle).
  destruct a as [i queue|ms]; simpl; [|by exists extra, owing].
  destruct (tasks s !! i) as [t|] eqn:Hi; [|by exists extra, owing].
  destruct (resume upstream queue t (rt s)) as [[t' st']|] eqn:Hr;
    [|by exists extra, owing].
  assert (i < length (tasks s))%nat as Hlt by by eapply lookup_lt_Some.
  destruct (decide (i ∈ owing)) as [Hin|Hout].
  - destruct (Howes i Hin) as (t0 & Ht0 & Ho). rewrite Hi in Ht0.
    injection Ht0 as <-.
    destruct (resume_owes queue t (rt s) t' st' Ho Hr) as (more & Hmore & [Ho'|Hreq]).
    + exists (extra ++ more), owing. simpl. split_and!; try done.
      * by rewrite Hmore, Hsent, app_assoc.
      * intros k Hk. destruct (decide (k = i)) as [->|Hne].
        -- rewrite list_lookup_insert_eq by done. eauto.
        -- rewrite list_lookup_insert_ne by done. by apply Howes.
      * rewrite times_sent_app. lia.
    + exists (extra ++ more), (owing ∖ {[i]}). simpl. split_and!.
      * by rewrite Hmore, Hsent, app_assoc.
      * intros k [Hk _]%elem_of_difference. by apply Hsub.
      * intros k [Hk Hne]%elem_of_difference.
        rewrite list_lookup_insert_ne by (intros ->; by apply Hne, elem_of_singleton).
        by apply Howes.
      * rewrite times_sent_app. pose proof (times_sent_elem more Hreq).
        assert (size ({[i]} : gset nat) = 1%nat) as H1 by apply size_singleton.
        assert (size (owing ∖ {[i]}) = (size owing - 1)%nat) as ->.
        { rewrite size_difference by by apply singleton_subseteq_l. by rewrite H1. }
        assert (1 ≤ size owing)%nat.
        { rewrite <- H1. by apply subseteq_size, singleton_subseteq_l. }
        lia.
  - destruct (resume_appends queue t (rt s) t' st' Hr) as (more & Hmore).
    exists (extra ++ more), owing. simpl. split_and!; try done.
    + by rewrite Hmore, Hsent, app_assoc.
    + intros k Hk. rewrite list_lookup_insert_ne by (intros ->; done).
      by apply Howes.
    + rewrite times_sent_app. lia.
Qed.

Lemma sys_run_owing_inv service n among s schedule :
  owing_inv req service n among s →
  owing_inv req service n among (sys_run upstream s schedule).
Proof.
  intros H. apply sys_run_ind; [done|]. intros. by apply sys_step_owing_inv.
Qed.

End Owing.

Section Duplicates.
Variable rate_limit_ms : Z.
Variable py_repr : json → string.
Variable upstream : nat → request → reply.

Local Abbreviation batch_fetch_card_data :=
  (batch_fetch_card_data rate_limit_ms py_repr upstream).
Local Abbreviation create_tasks := (create_tasks rate_limit_ms py_repr).
Local Abbreviation fetch_full_card := (fetch_full_card rate_limit_ms py_repr).
Local Abbreviation sys_run := (sys_run upstream).
Local Abbreviation sys_step := (sys_step upstream).

(** The first turn of a task whose name is not cached: it has looked at
    the cache for the last time, and goes for the permit. *)
Lemma first_turn_after_miss queue card st t st' :
  _card_cache (mem st) !! card = None →
  run upstream queue (fetch_full_card card) st = (t, st') →
  task_owes (card_request card) t ∧ mem st' = mem st ∧ sent st' = sent st.
Proof.
  intros C Hrun. unfold fetch_full_card, fetch_card_data in Hrun.
  simpl in Hrun. rewrite C in Hrun. simpl in Hrun.
  destruct (locked st || queue); injection Hrun as <- <-.
  - split; [|done]. simpl. repeat constructor.
  - split; [|done]. simpl. repeat constructor.
Qed.

(** X15. A name given twice is fetched twice.  When two tasks of a batch
    have the same name, not cached, and each has had its first turn before
    anything else happens, then both send the card request, whatever the
    schedule after that: the task that comes second does not look at the
    cache again when it gets the permit. *)
Theorem names_given_twice_are_fetched_twice
    cards progress service i j card qi qj rest ri rj :
  _card_cache (mem service) !! card = None →
  cards !! i = Some card →
  cards !! j = Some card →
  i ≠ j →
  let s := (batch_fetch_card_data cards progress service
              (Turn i qi :: Turn j qj :: rest)).2 in
  tasks s !! i = Some (Done ri) →
  tasks s !! j = Some (Done rj) →
  ∃ extra, sent (rt s) = sent service ++ extra
    ∧ (2 ≤ times_sent (card_request card) extra)%nat.
Proof.
  intros C Hi Hj Hne. unfold batch_fetch_card_data. cbn [snd].
  unfold sys_run. cbn [foldl].
  change (foldl sys_step ?x rest) with (sys_run x rest).
  set (s0 := Sys service (create_tasks cards) []).
  assert (i < length (create_tasks cards))%nat as Hlti.
  { unfold create_tasks. rewrite length_map. by eapply lookup_lt_Some. }
  assert (j < length (create_tasks cards))%nat as Hltj.
  { unfold create_tasks. rewrite length_map. by eapply lookup_lt_Some. }
  (* the first turn of task [i] *)
  destruct (run upstream qi (fetch_full_card card) service) as [ti st1] eqn:R1.
  destruct (first_turn_after_miss _ _ _ _ _ C R1) as (Oi & M1 & S1).
  rewrite (sys_step_turn upstream s0 i qi (Ready (fetch_full_card card)) ti st1);
    [|by unfold s0; cbn [tasks]; rewrite create_tasks_lookup, Hi
     |by unfold s0; cbn [rt resume]; rewrite R1].
  set (s1 := Sys st1 _ _).
  (* the first turn of task [j] *)
  destruct (run upstream qj (fetch_full_card card) st1) as [tj st2] eqn:R2.
  destruct (first_turn_after_miss _ _ _ _ _ (eq_ind_r (λ m, _card_cache m !! card = None)
              C M1) R2) as (Oj & M2 & S2).
  rewrite (sys_step_turn upstream s1 j qj (Ready (fetch_full_card card)) tj st2);
    [|by unfold s1, s0; cbn [tasks]; rewrite list_lookup_insert_ne by done;
         rewrite create_tasks_lookup, Hj
     |by unfold s1; cbn [rt resume]; rewrite R2].
  set (s2 := Sys st2 _ _).
  assert (owing_inv (card_request card) service 2 {[i; j]} s2) as Hinv.
  { exists [], {[i; j]}. split_and!.
    - unfold s2. cbn [rt]. by rewrite app_nil_r, S2, S1.
    - done.
    - intros k [->%elem_of_singleton| ->%elem_of_singleton]%elem_of_union;
        unfold s2, s1, s0; cbn [tasks].
      + exists ti. rewrite list_lookup_insert_ne by done.
        by rewrite list_lookup_insert_eq.
      + exists tj. by rewrite list_lookup_insert_eq by by rewrite length_insert.
    - rewrite size_union by (by apply disjoint_singleton_l, not_elem_of_singleton).
      by rewrite !size_singleton. }
  apply (sys_run_owing_inv upstream _ _ _ _ _ rest) in Hinv
    as (extra & owing & Hsent & Hsub & Howes & Hle).
  intros Di Dj. exists extra. split; [done|].
  assert (owing = ∅) as ->.
  { apply elem_of_equiv_empty_L. intros k Hk.
    destruct (Howes k Hk) as (t & Ht & Ho).
    apply Hsub in Hk.
    apply elem_of_union in Hk as [->%elem_of_singleton| ->%elem_of_singleton].
    - rewrite Di in Ht. by injection Ht as <-.
    - rewrite Dj in Ht. by injection Ht as <-. }
  rewrite size_empty in Hle. lia.
Qed.

End Duplicates.

(** ** The full fetch, step by step *)

Section FullFetch.
Variable rate_limit_ms : Z.
Variable py_repr : json → string.
Variable upstream : nat → request → reply.

Local Abbreviation exec := (exec upstream).
Local Abbreviation fetch_card_data := (fetch_card_data rate_limit_ms).
Local Abbreviation fetch_rulings := (fetch_rulings rate_limit_ms py_repr).
Local Abbreviation fetch_full_card := (fetch_full_card rate_limit_ms py_repr).

Lemma assign_rulings_last rulings c (cache : gmap string loc)
    (rcache : gmap pykey (list string)) (records : list card_metadata) :
  assign_rulings (length records) rulings (Memory cache rcache (records ++ [c]))
  = Memory cache rcache (records ++ [set_rulings rulings c]).
Proof.
  unfold assign_rulings. cbn [_card_cache _rulings_cache heap]. f_equal.
  rewrite <- (Nat.add_0_r (length records)). by rewrite alter_app_r.
Qed.

(** X16. The full fetch of a name on cold caches, from start to end: the
    card request, then the rulings request for the ["id"] of the payload,
    each after one delay; the record built from the payload is stored
    under the name, the rulings under the id, and the record that is
    returned, the one in the cache, carries the rulings. *)
Theorem cold_full_fetch card rt resp members key rulings :
  _card_cache (mem rt) !! card = None →
  locked rt = false →
  upstream (length (sent rt)) (card_request card) = Answer resp →
  status_code resp = 200 →
  body resp = Some (JObj members) →
  object_or_absent "image_uris" members →
  object_or_absent "legalities" members →
  py_hash (member "id" members) = inr key →
  _rulings_cache (mem rt) !! key = None →
  rulings_of_reply py_repr (member "id" members)
    (upstream (S (length (sent rt))) (rulings_request py_repr (member "id" members)))
    = inr rulings →
  exec (fetch_full_card card) rt
  = (Returned (length (heap (mem rt))),
     Runtime (Memory (<[card := length (heap (mem rt))]> (_card_cache (mem rt)))
                (<[key := rulings]> (_rulings_cache (mem rt)))
                (heap (mem rt) ++ [set_rulings rulings (extracted members)]))
       false (clock rt + Z.max 0 rate_limit_ms + Z.max 0 rate_limit_ms)
       (sent rt ++ [card_request card;
                    rulings_request py_repr (member "id" members)])).
Proof.
  intros C L R S B Hi Hl K C' R'.
  rewrite fetch_full_card_unfold,
    (fetch_card_data_fresh _ _ _ _ _ _ C L R S B Hi Hl).
  cbn [mem heap]. rewrite list_lookup_total_middle by done.
  change (c_id (extracted members)) with (member "id" members).
  rewrite (fetch_rulings_miss _ _ _ _ key) by done.
  cbn [sent]. rewrite length_app, Nat.add_1_r, R'.
  unfold with_mem. cbn [mem locked clock sent _card_cache _rulings_cache heap].
  by rewrite assign_rulings_last, <- app_assoc.
Qed.

(** X17. Rulings are cached by id, not by name.  When the rulings of the
    payload's id are in the rulings cache already (the card was fetched
    under another name, say), the full fetch of a name that is not cached
    sends the card request and nothing else, and returns the record with
    the cached rulings. *)
Theorem cached_rulings_are_reused card rt resp members key rulings :
  _card_cache (mem rt) !! card = None →
  locked rt = false →
  upstream (length (sent rt)) (card_request card) = Answer resp →
  status_code resp = 200 →
  body resp = Some (JObj members) →
  object_or_absent "image_uris" members →
  object_or_absent "legalities" members →
  py_hash (member "id" members) = inr key →
  _rulings_cache (mem rt) !! key = Some rulings →
  exec (fetch_full_card card) rt
  = (Returned (length (heap (mem rt))),
     Runtime (Memory (<[card := length (heap (mem rt))]> (_card_cache (mem rt)))
                (_rulings_cache (mem rt))
                (heap (mem rt) ++ [set_rulings rulings (extracted members)]))
       false (clock rt + Z.max 0 rate_limit_ms)
       (sent rt ++ [card_request card])).
Proof.
  intros C L R S B Hi Hl K C'.
  rewrite fetch_full_card_unfold,
    (fetch_card_data_fresh _ _ _ _ _ _ C L R S B Hi Hl).
  cbn [mem heap]. rewrite list_lookup_total_middle by done.
  change (c_id (extracted members)) with (member "id" members).
  rewrite (fetch_rulings_hit _ _ _ _ key _ rulings) by done.
  unfold with_mem. cbn [mem locked clock sent _card_cache _rulings_cache heap].
  by rewrite assign_rulings_last.
Qed.

End FullFetch.

(** ** A batch on warm caches *)

Section WarmBatch.
Variable rate_limit_ms : Z.
Variable py_repr : json → string.
Variable upstream : nat → request → reply.

Local Abbreviation batch_fetch_card_data :=
  (batch_fetch_card_data rate_limit_ms py_repr upstream).
Local Abbreviation create_tasks := (create_tasks rate_limit_ms py_repr).
Local Abbreviation fetch_full_card := (fetch_full_card rate_limit_ms py_repr).
Local Abbreviation sys_run := (sys_run upstream).
Local Abbreviation sys_step := (sys_step upstream).

(** The only turn of a task whose name is warm: whether the permit is
    free or not, the task ends with the cached object. *)
Lemma run_warm queue card l st :
  warm card l (mem st) →
  ∃ rulings,
    run upstream queue (fetch_full_card card) st
    = (Done (inr l), with_mem (assign_rulings l rulings) st).
Proof.
  intros (C & d & key & rulings & Hd & K & Hr). exists rulings.
  unfold fetch_full_card, fetch_card_data. simpl. rewrite C. simpl.
  rewrite (list_lookup_total_correct _ _ _ Hd).
  unfold fetch_rulings. rewrite K. simpl. by rewrite Hr.
Qed.

Lemma warm_assign_rulings card l l' rulings m :
  warm card l m → warm card l (assign_rulings l' rulings m).
Proof.
  intros (C & d & key & rs & Hd & K & Hr). split; [done|]. simpl.
  destruct (decide (l' = l)) as [->|Hne].
  - exists (set_rulings rulings d), key, rs.
    by rewrite list_lookup_alter_eq, Hd.
  - exists d, key, rs. by rewrite list_lookup_alter_ne.
Qed.

(** The invariant of a batch on warm caches. *)
Lemma warm_batch_inv cards locs service schedule :
  Forall2 (λ card l, warm card l (mem service)) cards locs →
  let s := sys_run (Sys service (create_tasks cards) []) schedule in
  sent (rt s) = sent service
  ∧ locked (rt s) = locked service
  ∧ Forall2 (λ card l, warm card l (mem (rt s))) cards locs
  ∧ ∀ i card l, cards !! i = Some card → locs !! i = Some l →
      tasks s !! i = Some (Ready (fetch_full_card card))
      ∨ tasks s !! i = Some (Done (inr l)).
Proof.
  intros Hw s.
  pose proof (batch_tasks_length rate_limit_ms py_repr upstream cards service) as Hlen.
  assert (∀ schedule,
    let s := sys_run (Sys service (create_tasks cards) []) schedule in
    length (tasks s) = length cards →
    sent (rt s) = sent service
    ∧ locked (rt s) = locked service
    ∧ Forall2 (λ card l, warm card l (mem (rt s))) cards locs
    ∧ ∀ i card l, cards !! i = Some card → locs !! i = Some l →
        tasks s !! i = Some (Ready (fetch_full_card card))
        ∨ tasks s !! i = Some (Done (inr l))) as H; [|by apply H].
  clear s schedule. intros schedule.
  induction schedule as [|a schedule IH] using rev_ind; intros s _.
  { split_and!; try done. intros i card l Hi _. left. unfold s. simpl.
    by rewrite create_tasks_lookup, Hi. }
  unfold s. rewrite sys_run_snoc.
  destruct (IH (Hlen schedule)) as (Hs & Hl & Hws & Hts).
  specialize (Hlen schedule).
  set (s1 := sys_run _ schedule) in *.
  destruct a as [i queue|ms]; [|simpl; done].
  destruct (tasks s1 !! i) as [t|] eqn:Hi; [|simpl; by rewrite Hi].
  assert (i < length (tasks s1))%nat as Hlt by by eapply lookup_lt_Some.
  assert (is_Some (cards !! i)) as [card Hcard].
  { apply lookup_lt_is_Some_2. by rewrite <- Hlen. }
  destruct (Forall2_lookup_l _ _ _ _ _ Hws Hcard) as (l & Hloc & Hwarm).
  destruct (Hts i card l Hcard Hloc) as [Ht|Ht]; rewrite Hi in Ht;
    injection Ht as ->; [|simpl; by rewrite Hi].
  destruct (run_warm queue card l (rt s1) Hwarm) as [rulings Hrun].
  rewrite (sys_step_turn upstream s1 i queue _ _ _ Hi)
    by (cbn [resume]; by rewrite Hrun).
  cbn [rt tasks with_mem sent locked mem].
  split_and!; try done.
  - eapply Forall2_impl; [exact Hws|]. intros card' l' H'.
    by apply warm_assign_rulings.
  - intros j card' l' Hj Hj'. destruct (decide (j = i)) as [->|Hne].
    + rewrite list_lookup_insert_eq by done. right. congruence.
    + rewrite list_lookup_insert_ne by done. by apply Hts.
Qed.

(** X18. A batch on warm caches.  When every name is cached and the
    rulings of its record's id are cached too, then under every schedule,
    and whether the permit is free or taken, the batch sends nothing and
    does not touch the permit; no task ever waits or sleeps: a task is
    done, with the cached object of its name, after its first turn; and
    once every task has had its turn, the call without progress reporting
    returns the cached objects in the order of the names. *)
Theorem warm_batch_needs_no_request cards locs progress service schedule :
  Forall2 (λ card l, warm card l (mem service)) cards locs →
  let out := (batch_fetch_card_data cards progress service schedule).1 in
  let s := (batch_fetch_card_data cards progress service schedule).2 in
  sent (rt s) = sent service
  ∧ locked (rt s) = locked service
  ∧ (∀ i card l, cards !! i = Some card → locs !! i = Some l →
       (tasks s !! i = Some (Ready (fetch_full_card card))
        ∨ tasks s !! i = Some (Done (inr l)))
       ∧ ∀ queue, tasks (sys_step s (Turn i queue)) !! i = Some (Done (inr l)))
  ∧ (forallb is_done (tasks s) = true → progress = false → out = Some (inr locs)).
Proof.
  intros Hw. unfold batch_fetch_card_data. cbn [fst snd].
  pose proof (batch_tasks_length rate_limit_ms py_repr upstream cards service schedule)
    as Hlen.
  pose proof (batch_completed_ok rate_limit_ms py_repr upstream cards service schedule)
    as Hok.
  destruct (warm_batch_inv cards locs service schedule Hw) as (Hs & Hl & Hws & Hts).
  set (s := sys_run _ schedule) in *.
  split_and!; try done.
  - intros i card l Hi Hloc. split; [by apply Hts|]. intros queue.
    destruct (warm_batch_inv cards locs service (schedule ++ [Turn i queue]) Hw)
      as (_ & _ & _ & Hts').
    rewrite sys_run_snoc in Hts'. fold s in Hts'.
    destruct (Hts' i card l Hi Hloc) as [Hr|Hd]; [|done].
    exfalso. destruct (Hts i card l Hi Hloc) as [Ht|Ht].
    + pose proof (Forall2_lookup_lr _ _ _ _ _ _ Hws Hi Hloc) as Hwarm.
      destruct (run_warm queue card l (rt s) Hwarm) as [rulings Hrun].
      rewrite (sys_step_turn upstream s i queue _ _ _ Ht) in Hr
        by (cbn [resume]; by rewrite Hrun).
      cbn [tasks] in Hr.
      rewrite list_lookup_insert_eq in Hr by (by eapply lookup_lt_Some). done.
    + rewrite (sys_step_done upstream s _ i _ Ht) in Hr. done.
  - intros Hall ->.
    assert (tasks s = (λ l, Done (inr l)) <$> locs) as Htasks.
    { apply list_eq. intros i. rewrite list_lookup_fmap.
      destruct (cards !! i) as [card|] eqn:Hi.
      - destruct (Forall2_lookup_l _ _ _ _ _ Hws Hi) as (l & Hloc & _).
        rewrite Hloc. simpl. destruct (Hts i card l Hi Hloc) as [Ht|Ht]; [|done].
        rewrite forallb_forall in Hall.
        assert (is_done (Ready (fetch_full_card card)) = true); [|done].
        apply Hall, list_elem_of_In. by eapply list_elem_of_lookup_2.
      - apply lookup_ge_None in Hi.
        rewrite (lookup_ge_None_2 (tasks s)) by lia.
        rewrite (lookup_ge_None_2 locs); [done|].
        apply Forall2_length in Hws. lia. }
    unfold gather.
    destruct (first_exception (tasks s) (completed s)) as [e|] eqn:He.
    { destruct (first_exception_inv _ _ _ He) as (i & _ & Hi).
      rewrite Htasks, list_lookup_fmap in Hi. by destruct (locs !! i). }
    rewrite Htasks. by rewrite mapM_fmap_Some.
Qed.

End WarmBatch.

(** ** Records under concurrency, whatever upstream replies *)

Section SoundProofs.
Variable I : memory → Prop.
Variable G : memory → memory → Prop.
Hypothesis G_refl : ∀ m, G m m.
Hypothesis G_trans : ∀ m1 m2 m3, G m1 m2 → G m2 m3 → G m1 m3.

Local Abbreviation sound := (sound I G).
Local Abbreviation task_sound := (task_sound I G).
Local Abbreviation sound_inv := (sound_inv I G).

Lemma sound_bind {A B} (Q1 : A → memory → Prop) (Q2 : B → memory → Prop)
    m (p : prog A) (f : A → prog B) :
  sound Q1 m p →
  (∀ a m', Q1 a m' → sound Q2 m' (f a)) →
  sound Q2 m (p ≫= f).
Proof.
  intros Hp Hf. unfold mbind, prog_bind.
  induction Hp; simpl; try (econstructor; by eauto). by apply Hf.
Qed.

Lemma sound_releasing {A} (Q : A → memory → Prop) m (p : prog A) :
  sound Q m p → sound Q m (releasing p).
Proof. induction 1; simpl; repeat (econstructor; eauto). Qed.

(** A property that steps of [G] cannot undo can be carried along. *)
Lemma sound_frame {A} (Q : A → memory → Prop) (F : memory → Prop) m (p : prog A) :
  (∀ m1 m2, F m1 → G m1 m2 → F m2) →
  sound Q m p → F m → sound (λ a m', Q a m' ∧ F m') m p.
Proof.
  intros HF. induction 1; intros Hm; econstructor; eauto.
Qed.

Section OnTheLoop.
Variable upstream : nat → request → reply.
Context {A : Type}.
Implicit Types (s : sys A) (t : task A) (p : prog A).

Lemma run_sound (Q : A → memory → Prop) queue m p :
  sound Q m p →
  ∀ st t st', mem st = m → I m →
    run upstream queue p st = (t, st') →
    I (mem st') ∧ G m (mem st') ∧ task_sound Q (mem st') t.
Proof.
  induction 1 as [m a Ha|m e|m k _ IH|m f k Hi Hg _ IH|m k Hk IH|m k _ IH
                  |m ms k Hk _|m req k Hk _];
    intros st t st' Hm HI Hrun; simpl in Hrun.
  - injection Hrun as <- <-. subst m. split_and!; done.
  - injection Hrun as <- <-. subst m. split_and!; done.
  - subst m. by eapply IH.
  - subst m. destruct (IH (with_mem f st) t st' eq_refl Hi Hrun) as (? & ? & ?).
    split_and!; [done| |done]. by eapply G_trans.
  - destruct (locked st || queue).
    + injection Hrun as <- <-. subst m. split_and!; [done|done|]. exact Hk.
    + by eapply (IH m HI (G_refl m) (with_locked true st)).
  - by eapply (IH (with_locked false st)).
  - injection Hrun as <- <-. subst m. split_and!; [done|done|]. exact Hk.
  - injection Hrun as <- <-. subst m. split_and!; [done|done|].
    intros m'. apply Hk.
Qed.

Lemma resume_sound (Q : A → memory → Prop) queue t st t' st' :
  task_sound Q (mem st) t → I (mem st) →
  resume upstream queue t st = Some (t', st') →
  I (mem st') ∧ G (mem st) (mem st') ∧ task_sound Q (mem st') t'.
Proof.
  intros Ht HI Hr. destruct t as [p|k|wake k|r k|r]; simpl in *.
  - injection Hr as Hr.
    by eapply (run_sound Q queue (mem st) p (Ht _ HI (G_refl _)) st).
  - destruct (locked st); [done|]. injection Hr as Hr.
    by eapply (run_sound Q queue (mem st) k (Ht _ HI (G_refl _)) (with_locked true st)).
  - destruct (decide _); [|done]. injection Hr as Hr.
    by eapply (run_sound Q queue (mem st) k (Ht _ HI (G_refl _)) st).
  - injection Hr as Hr.
    by eapply (run_sound Q queue (mem st) (k r) (Ht _ HI (G_refl _)) st).
  - done.
Qed.

Lemma task_sound_step (Q : A → memory → Prop) m m' t :
  (∀ a m1 m2, Q a m1 → G m1 m2 → Q a m2) →
  task_sound Q m t → G m m' → task_sound Q m' t.
Proof.
  intros HQ Ht Hg. destruct t as [p|k|wake k|r k|[e|a]]; simpl in *;
    try (intros m'' ? ?; apply Ht; [done|by eapply G_trans]); [done|].
  by eapply HQ.
Qed.

Lemma sys_step_sound_inv (Q : A → memory → Prop) s a :
  (∀ a m1 m2, Q a m1 → G m1 m2 → Q a m2) →
  sound_inv Q s → sound_inv Q (sys_step upstream s a).
Proof.
  intros HQ (HI & Ht). destruct a as [i queue|ms]; simpl; [|done].
  destruct (tasks s !! i) as [t|] eqn:Hi; [|done].
  destruct (resume upstream queue t (rt s)) as [[t' st']|] eqn:Hr; [|done].
  destruct (resume_sound Q queue t (rt s) t' st' (Ht _ _ Hi) HI Hr)
    as (HI' & Hg & Ht').
  split; [done|]. simpl.
  intros j tj Htj. destruct (decide (j = i)) as [->|Hne].
  - rewrite list_lookup_insert_eq in Htj by (by eapply lookup_lt_Some).
    by injection Htj as <-.
  - rewrite list_lookup_insert_ne in Htj by done.
    eapply task_sound_step; [done|by eapply Ht|done].
Qed.

Lemma sys_run_sound_inv (Q : A → memory → Prop) s schedule :
  (∀ a m1 m2, Q a m1 → G m1 m2 → Q a m2) →
  sound_inv Q s → sound_inv Q (sys_run upstream s schedule).
Proof.
  intros HQ H. apply sys_run_ind; [done|]. intros. by apply sys_step_sound_inv.
Qed.

End OnTheLoop.

End SoundProofs.

Section CompleteRecords.
Variable rate_limit_ms : Z.
Variable py_repr : json → string.
Variable upstream : nat → request → reply.

Local Abbreviation batch_fetch_card_data :=
  (batch_fetch_card_data rate_limit_ms py_repr upstream).
Local Abbreviation create_tasks := (create_tasks rate_limit_ms py_repr).
Local Abbreviation sound := (sound wf_memory outlives).

Lemma outlives_refl m : outlives m m.
Proof. intros l d H. exists d. split; [done|by left]. Qed.

Lemma outlives_trans m1 m2 m3 : outlives m1 m2 → outlives m2 m3 → outlives m1 m3.
Proof.
  intros H12 H23 l d H. destruct (H12 _ _ H) as (d' & H' & S').
  destruct (H23 _ _ H') as (d'' & H'' & S''). eauto using same_card_trans.
Qed.

Lemma outlives_heap m m' : heap m' = heap m → outlives m m'.
Proof. intros Hh l d H. exists d. rewrite Hh. split; [done|by left]. Qed.

Lemma outlives_valid l m m' :
  is_Some (heap m !! l) → outlives m m' → is_Some (heap m' !! l).
Proof. intros [d Hd] H. destruct (H _ _ Hd) as (d' & Hd' & _). eauto. Qed.

Lemma outlives_has_rulings l m m' :
  has_rulings l m → outlives m m' → has_rulings l m'.
Proof.
  intros (d & rs & Hd & Hr) H. destruct (H _ _ Hd) as (d' & Hd' & [->|[rs' ->]]).
  - by exists d, rs.
  - by exists (set_rulings rs' d), rs'.
Qed.

Lemma fetch_card_data_sound card m :
  wf_memory m →
  sound (λ l m', wf_memory m' ∧ is_Some (heap m' !! l)) m
    (fetch_card_data rate_limit_ms card).
Proof.
  intros Hm. unfold fetch_card_data. apply sound_read.
  destruct (_card_cache m !! card) as [l|] eqn:Hl.
  { apply sound_return. split; [done|]. apply lookup_lt_is_Some_2. by eapply Hm. }
  eapply sound_bind.
  - apply sound_acquire. intros m1 _ _. apply sound_releasing.
    apply sound_sleep. intros m2 _ _. apply sound_get. intros r m3 Hm3 _.
    destruct r as [resp|e]; simpl; [|apply sound_raise].
    destruct (decide (status_code resp ≠ 200)) as [Hs|Hs]; [apply sound_raise|].
    unfold response_json.
    destruct (body resp) as [data|] eqn:Hb; simpl; [|apply sound_raise].
    destruct (card_metadata_literal data) as [e|c] eqn:Hc; simpl; [apply sound_raise|].
    apply sound_read.
    assert (wf_memory (alloc c m3)) as Hm4.
    { intros card' l' Hl'. simpl in *. rewrite length_app. apply Hm3 in Hl'. lia. }
    apply sound_modify; [done| |].
    { intros l d Hd. exists d. split; [by apply lookup_app_l_Some|by left]. }
    apply (sound_return _ _ (λ l m', wf_memory m' ∧ is_Some (heap m' !! l))).
    split; [done|]. apply lookup_lt_is_Some_2. simpl. rewrite length_app. simpl. lia.
  - intros l m' (Hm' & Hv). simpl.
    assert (wf_memory (store_card card l m')) as Hm''.
    { intros card' l'. simpl. destruct (decide (card = card')) as [<-|Hne].
      - rewrite lookup_insert_eq. intros [= <-]. by apply lookup_lt_is_Some_1.
      - rewrite lookup_insert_ne by done. apply Hm'. }
    apply sound_modify; [done|by apply outlives_heap|].
    by apply sound_return.
Qed.

Lemma fetch_rulings_sound card_id m :
  wf_memory m →
  sound (λ _ m', wf_memory m') m (fetch_rulings rate_limit_ms py_repr card_id).
Proof.
  intros Hm. unfold fetch_rulings.
  destruct (py_hash card_id) as [e|key]; [apply sound_raise|].
  apply sound_read.
  destruct (_rulings_cache m !! key) as [rulings|] eqn:Hl; [by apply sound_return|].
  eapply (sound_bind _ _ (λ _ m', wf_memory m')).
  - apply sound_acquire. intros m1 _ _. apply sound_releasing.
    apply sound_sleep. intros m2 _ _. apply sound_get. intros r m3 Hm3 _.
    destruct r as [resp|e]; simpl; [|apply sound_raise].
    destruct (decide (status_code resp ≠ 200)) as [Hs|Hs]; [apply sound_raise|].
    unfold response_json.
    destruct (body resp) as [payload|]; simpl; [|apply sound_raise].
    destruct (py_get payload "data" (JArr [])) as [e|data]; simpl; [apply sound_raise|].
    destruct (py_iter data) as [e|items]; simpl; [apply sound_raise|].
    destruct (append_rulings py_repr items []) as [e|rulings]; simpl;
      [apply sound_raise|].
    by apply sound_return.
  - intros rulings m' Hm'. simpl.
    apply sound_modify; [done|by apply outlives_heap|]. by apply sound_return.
Qed.

Lemma fetch_full_card_sound card m :
  wf_memory m →
  sound has_rulings m (fetch_full_card rate_limit_ms py_repr card).
Proof.
  intros Hm. unfold fetch_full_card.
  eapply sound_bind; [by apply fetch_card_data_sound|].
  intros l m1 (Hm1 & Hv). simpl. apply sound_read.
  eapply (sound_bind _ _ (λ _ m', wf_memory m' ∧ is_Some (heap m' !! l))).
  - apply (sound_frame wf_memory outlives (λ _ m', wf_memory m')
             (λ m', is_Some (heap m' !! l)));
      [intros; by eapply outlives_valid|by apply fetch_rulings_sound|done].
  - intros rulings m2 (Hm2 & [d Hd]). simpl.
    apply sound_modify.
    + intros card' l'. simpl. rewrite length_alter. apply Hm2.
    + intros l' d' Hd'. simpl. destruct (decide (l = l')) as [<-|Hne].
      * rewrite list_lookup_alter_eq, Hd'. eexists. split; [done|]. right. eauto.
      * rewrite list_lookup_alter_ne by done. exists d'. split; [done|by left].
    + apply sound_return. exists (set_rulings rulings d), rulings. split; [|done].
      simpl. by rewrite list_lookup_alter_eq, Hd.
Qed.

(** X20. A batch hands out complete records only, whatever upstream
    replies.  From a service whose cached references are valid, under
    every schedule: the references stay valid, and the object with which a
    task has returned has its rulings, then and ever after; so every
    entry of a list that the call returns, in either mode, is a record
    with rulings. *)
Theorem batch_results_have_rulings cards progress service schedule :
  wf_memory (mem service) →
  let out := (batch_fetch_card_data cards progress service schedule).1 in
  let s := (batch_fetch_card_data cards progress service schedule).2 in
  wf_memory (mem (rt s))
  ∧ (∀ i l, tasks s !! i = Some (Done (inr l)) → has_rulings l (mem (rt s)))
  ∧ (∀ results, out = Some (inr results) →
       Forall (λ l, has_rulings l (mem (rt s))) results).
Proof.
  intros W. unfold batch_fetch_card_data. cbn [fst snd].
  pose proof (batch_completed_ok rate_limit_ms py_repr upstream cards service schedule)
    as Hok.
  destruct (sys_run_sound_inv wf_memory outlives outlives_refl outlives_trans upstream
              has_rulings (Sys service (create_tasks cards) []) schedule)
    as (W' & Ht).
  { intros l m1 m2. apply outlives_has_rulings. }
  { split; [done|]. simpl. intros i t Hi. rewrite create_tasks_lookup in Hi.
    destruct (cards !! i) as [card|]; [|done]. injection Hi as <-.
    intros m' Hm' _. by apply fetch_full_card_sound. }
  set (s := sys_run upstream _ schedule) in *.
  assert (∀ i l, tasks s !! i = Some (Done (inr l)) → has_rulings l (mem (rt s)))
    as Hdone.
  { intros i l Hi. exact (Ht _ _ Hi). }
  split; [done|]. split; [done|].
  intros results Hout. apply Forall_forall. intros l Hl.
  destruct progress; unfold as_completed, gather in Hout;
    destruct (first_exception _ _); try done.
  - destruct (forallb is_done (tasks s)); [|done].
    destruct (mapM _ (completed s)) as [rs|] eqn:Hm; [|done].
    injection Hout as ->. apply mapM_Some_1 in Hm.
    apply list_elem_of_lookup_1 in Hl as [k Hk].
    destruct (Forall2_lookup_r _ _ _ _ _ Hm Hk) as (i & _ & Hi).
    simpl in Hi. destruct (tasks s !! i) as [[?|?|? ?|? ?|[?|?]]|] eqn:Hti;
      simplify_eq/=. by eapply Hdone.
  - destruct (mapM value_of (tasks s)) as [rs|] eqn:Hm; [|done].
    injection Hout as ->. apply mapM_value_of in Hm.
    apply list_elem_of_lookup_1 in Hl as [k Hk].
    apply (Hdone k). by rewrite Hm, list_lookup_fmap, Hk.
Qed.

End CompleteRecords.

(** ** Worked examples *)

Lemma fetch_card_data_twice_witness :
  let rt1 := (exec example_upstream (fetch_card_data 100 "Lightning Bolt") new_service).2 in
  exec example_upstream (fetch_card_data 100 "Lightning Bolt") rt1 = (Returned 0%nat, rt1)
  ∧ sent (exec example_upstream (fetch_card_data 100 "Lightning Bolt") rt1).2 = sent rt1
  ∧ (length (sent rt1) ≤ length (sent new_service) + 1)%nat.
Proof.
  intros rt1.
  apply (fetch_card_data_twice 100 example_upstream "Lightning Bolt" new_service).
  vm_compute. reflexivity.
Defined.

Lemma fetch_rulings_formats_witness :
  (exec example_upstream (fetch_rulings 100 example_repr (JStr "77c6fa74")) new_service).1
    = Returned ["[2004-10-04] The target is chosen on cast.";
                "[2020-08-07] It can target a planeswalker."]
  ∧ length (map formatted [("2004-10-04", "The target is chosen on cast.");
                           ("2020-08-07", "It can target a planeswalker.")])
    = length lightning_bolt_ruling_entries.
Proof.
  eapply (fetch_rulings_formats 100 example_repr example_upstream
            (JStr "77c6fa74") (KStr "77c6fa74") new_service
            (Response 200 (Some lightning_bolt_rulings)) lightning_bolt_rulings
            lightning_bolt_ruling_entries
            [("2004-10-04", "The target is chosen on cast.");
               ("2020-08-07", "It can target a planeswalker.")]);
    try reflexivity.
  repeat constructor; eexists; repeat split; reflexivity.
Defined.

Lemma fetch_full_card_all_or_nothing_witness :
  wf_memory (mem new_service)
  ∧ (let rt1 := (exec example_upstream (fetch_card_data 100 "UnknownCard123") new_service).2 in
     exec example_upstream (fetch_full_card 100 example_repr "UnknownCard123") new_service
       = (Raised (CardFetchError "Card 'UnknownCard123' not found in Scryfall database."), rt1)
     ∧ sent rt1 = sent new_service ++ [card_request "UnknownCard123"]).
Proof.
  assert (wf_memory (mem new_service)) as W by (intros card l; simpl; by rewrite lookup_empty).
  split; [exact W|].
  intros rt1.
  apply (proj1 (fetch_full_card_all_or_nothing 100 example_repr example_upstream
                  "UnknownCard123" new_service W)).
  vm_compute. reflexivity.
Defined.

(** Each half of C10 where the other lookup succeeds: the name
    [UnknownCard123] is unknown while the rulings of [77c6fa74] are served,
    and the id [0000] is unknown while [Lightning Bolt] is served. *)
Lemma failed_lookups_are_not_cached_witness :
  (let (o1, rt1) := exec example_upstream (fetch_card_data 100 "UnknownCard123") new_service in
   o1 = Raised (CardFetchError "Card 'UnknownCard123' not found in Scryfall database.")
   ∧ mem rt1 = mem new_service
   ∧ _card_cache (mem rt1) !! "UnknownCard123" = None
   ∧ sent (exec example_upstream (fetch_card_data 100 "UnknownCard123") rt1).2
       = sent rt1 ++ [card_request "UnknownCard123"])
  ∧ (∃ rulings,
       (exec example_upstream (fetch_rulings 100 example_repr (JStr "77c6fa74")) new_service).1
         = Returned rulings)
  ∧ (let (o2, rt2) := exec example_upstream (fetch_rulings 100 example_repr (JStr "0000")) new_service in
     o2 = Raised (CardFetchError "Card ID '0000' not found in Scryfall database.")
     ∧ mem rt2 = mem new_service
     ∧ _rulings_cache (mem rt2) !! KStr "0000" = None
     ∧ sent (exec example_upstream (fetch_rulings 100 example_repr (JStr "0000")) rt2).2
         = sent rt2 ++ [rulings_request example_repr (JStr "0000")])
  ∧ ∃ l, (exec example_upstream (fetch_card_data 100 "Lightning Bolt") new_service).1
           = Returned l.
Proof.
  split; [|split; [|split]].
  - eapply (proj1 (failed_lookups_are_not_cached 100 example_repr example_upstream)
              "UnknownCard123" new_service);
      first [reflexivity | by vm_compute].
  - eexists. by vm_compute.
  - eapply (proj2 (failed_lookups_are_not_cached 100 example_repr example_upstream)
              (JStr "0000") (KStr "0000") new_service);
      first [reflexivity | by vm_compute].
  - eexists. by vm_compute.
Defined.

(** C6 as the spec has it fails: the empty name and a malformed id are sent
    upstream, and the calls end with the error for a non-200 status. *)
Lemma malformed_input_reaches_upstream :
  exec example_upstream (fetch_card_data 100 "") new_service
    = (Raised (CardFetchError "Card '' not found in Scryfall database."),
       Runtime (mem new_service) false 100 [card_request ""])
  ∧ exec example_upstream (fetch_rulings 100 example_repr (JStr "not-an-id")) new_service
    = (Raised (CardFetchError "Card ID 'not-an-id' not found in Scryfall database."),
       Runtime (mem new_service) false 100
         [Request "https://api.scryfall.com/cards/not-an-id/rulings" []]).
Proof. split; reflexivity. Qed.

Lemma input_is_not_validated_witness :
  let (o1, rt1) := exec example_upstream (fetch_card_data 100 "") new_service in
  let (o2, rt2) := exec example_upstream (fetch_rulings 100 example_repr (JStr "not-an-id")) new_service in
  (sent rt1 = sent new_service ++ [card_request ""]
   ∧ o1 = match card_of_reply "" (example_upstream (length (sent new_service)) (card_request "")) with
          | inl e => Raised e
          | inr _ => Returned (length (heap (mem new_service)))
          end)
  ∧ (sent rt2 = sent new_service ++ [rulings_request example_repr (JStr "not-an-id")]
     ∧ o2 = match rulings_of_reply example_repr (JStr "not-an-id")
                  (example_upstream (length (sent new_service))
                     (rulings_request example_repr (JStr "not-an-id"))) with
            | inl e => Raised e
            | inr rulings => Returned rulings
            end).
Proof.
  apply (input_is_not_validated 100 example_repr example_upstream "" "not-an-id" new_service);
    reflexivity.
Defined.

(** C7 as the spec has it fails: a 200 payload whose ["image_uris"] is
    null makes the extraction raise. *)
Lemma null_image_uris_raises :
  exec (always_answers (JObj [("name", JStr "Lightning Bolt"); ("image_uris", JNull)]))
    (fetch_card_data 100 "Lightning Bolt") new_service
  = (Raised AttributeError,
     Runtime (mem new_service) false 100 [card_request "Lightning Bolt"]).
Proof. reflexivity. Qed.

Lemma fetch_card_data_extracts_witness :
  ∃ l rt', exec example_upstream (fetch_card_data 100 "delver of secrets") new_service
             = (Returned l, rt')
    ∧ heap (mem rt') !! l = Some (extracted delver_members)
    ∧ (∀ key, assoc key delver_members = None → member key delver_members = JNull)
    ∧ (assoc "image_uris" delver_members = None →
       c_image_url (extracted delver_members) = ImageUrl JNull JNull JNull).
Proof.
  eapply (fetch_card_data_extracts 100 example_upstream "delver of secrets" new_service
            (Response 200 (Some (JObj delver_members))) delver_members);
    first [reflexivity | exact I].
Defined.

(** C8 as the spec has it fails: the record that [fetch_card_data] put in
    the name cache has no rulings; a later [fetch_full_card] assigns them
    on that same object, so the cached record changes and holds them. *)
Lemma cached_record_is_updated :
  let rt1 := after_call 100 example_repr example_upstream new_service
               (FetchCardData "Lightning Bolt") in
  let rt2 := after_call 100 example_repr example_upstream rt1
               (FetchFullCard "Lightning Bolt") in
  c_rulings <$> cached_record (mem rt1) "Lightning Bolt" = Some None
  ∧ c_rulings <$> cached_record (mem rt2) "Lightning Bolt"
    = Some (Some ["[2004-10-04] The target is chosen on cast.";
                  "[2020-08-07] It can target a planeswalker."]).
Proof. split; vm_compute; reflexivity. Qed.

Lemma cache_entries_persist_witness :
  let rt := after_calls 100 example_repr example_upstream new_service
              [FetchCardData "Lightning Bolt"] in
  let calls := [FetchFullCard "Lightning Bolt"; FetchCardData "UnknownCard123";
                FetchRulings (JStr "77c6fa74"); FetchFullCard "delver of secrets"] in
  wf_memory (mem rt)
  ∧ (∀ l rt1, exec example_upstream (fetch_card_data 100 "delver of secrets") rt
                = (Returned l, rt1) →
       _card_cache (mem rt1) !! "delver of secrets" = Some l)
  ∧ persists (mem rt) (mem (after_calls 100 example_repr example_upstream rt calls))
  ∧ (∀ l rt1, exec example_upstream (fetch_full_card 100 example_repr "delver of secrets") rt
                = (Returned l, rt1) →
       _card_cache (mem rt1) !! "delver of secrets" = Some l
       ∧ ∃ d rulings, cached_record (mem rt1) "delver of secrets" = Some d
           ∧ c_rulings d = Some rulings).
Proof.
  intros rt calls.
  assert (wf_memory (mem rt)) as W.
  { apply after_calls_persists. intros card l. simpl. by rewrite lookup_empty. }
  split; [exact W|].
  exact (cache_entries_persist 100 example_repr example_upstream
           "delver of secrets" rt calls W).
Defined.

Lemma example_upstream_string_ids : string_ids (example_upstream 0).
Proof.
  intros card d0. unfold card_of, card_of_reply, example_upstream.
  repeat case_decide; simpl; intros Hcard; try done;
    vm_compute in Hcard; injection Hcard as <-; simpl; eauto.
Qed.

Lemma gather_keeps_input_order_witness :
  let batch := batch_fetch_card_data 100 example_repr example_upstream
                 ["Lightning Bolt"; "delver of secrets"] false new_service
                 second_first_schedule in
  completed batch.2 = [1; 0]%nat
  ∧ batch.1 = Some (inr [1; 0]%nat)
  ∧ length [1; 0]%nat = length ["Lightning Bolt"; "delver of secrets"]
  ∧ ∃ l, [1; 0]%nat !! 0%nat = Some l
      ∧ tasks batch.2 !! 0%nat = Some (Done (inr l))
      ∧ holds_full_record example_repr (example_upstream 0) "Lightning Bolt" l
          (mem (rt batch.2)).
Proof.
  intros batch.
  assert (batch.1 = Some (inr [1; 0]%nat)) as Hout by (vm_compute; reflexivity).
  split; [vm_compute; reflexivity|]. split; [done|].
  destruct (proj1 (gather_keeps_input_order 100 example_repr example_upstream
                     ["Lightning Bolt"; "delver of secrets"] new_service
                     second_first_schedule) _ Hout) as [Hlen Hall].
  split; [done|].
  destruct (Hall 0%nat "Lightning Bolt" eq_refl) as (l & Hl & Ht & Hrec).
  exists l. split; [done|]. split; [done|].
  apply Hrec.
  - reflexivity.
  - apply example_upstream_string_ids.
  - split; intros ? ?; simpl; by rewrite lookup_empty.
Defined.

(** Upstream does not know this name: no schedule lets a batch that
    contains it return a list. *)
Lemma unknown_card_never_returns cards progress schedule i results :
  cards !! i = Some "UnknownCard123" →
  (batch_fetch_card_data 100 example_repr example_upstream cards progress
     new_service schedule).1 ≠ Some (inr results).
Proof.
  intros Hi Hout.
  destruct (batch_list_tasks 100 example_repr example_upstream _ _ _ _ _ _ _ Hout Hi)
    as [l Hl].
  assert (coherent example_repr (example_upstream 0) (mem new_service)) as Hcoh.
  { split; intros ? ?; simpl; by rewrite lookup_empty. }
  destruct (batch_records 100 example_repr (example_upstream 0) example_upstream
              (λ _ _, eq_refl) cards new_service schedule i "UnknownCard123" l
              example_upstream_string_ids Hcoh Hi Hl)
    as (d & _ & d0 & rulings & Hcard & _).
  vm_compute in Hcard. discriminate Hcard.
Qed.

(** C1 as the spec has it fails: on the spec's own scenario the call raises
    the second task's error, as soon as that task fails and while the first
    task is still at work; it raises it all the same once the first task
    has finished with its record, and with progress reporting too.  No
    schedule makes the call return a list. *)
Lemma batch_raises_for_unknown_card :
  let batch := batch_fetch_card_data 100 example_repr example_upstream
                 ["Lightning Bolt"; "UnknownCard123"] in
  let not_found := CardFetchError "Card 'UnknownCard123' not found in Scryfall database." in
  let early := batch false new_service two_task_schedule in
  let late := batch false new_service (two_task_schedule ++ two_task_schedule_end) in
  early.1 = Some (inl not_found)
  ∧ map is_done (tasks early.2) = [false; true]
  ∧ late.1 = Some (inl not_found)
  ∧ map value_of (tasks late.2) = [Some 0%nat; None]
  ∧ (batch true new_service (two_task_schedule ++ two_task_schedule_end)).1
    = Some (inl not_found)
  ∧ ∀ progress schedule results,
      (batch progress new_service schedule).1 ≠ Some (inr results).
Proof.
  split_and!; try (vm_compute; reflexivity).
  intros progress schedule results.
  by apply (unknown_card_never_returns _ progress schedule 1%nat results).
Qed.

(** C2 as the spec has it fails: with a name that upstream does not know
    among the names, the call without progress reporting returns no
    results at all, in any order: it raises. *)
Lemma gather_returns_no_list_on_failure :
  let batch := batch_fetch_card_data 100 example_repr example_upstream
                 ["UnknownCard123"; "Lightning Bolt"] false new_service in
  (batch [Turn 0 false; Tick 100; Turn 0 false; Turn 0 false]).1
    = Some (inl (CardFetchError "Card 'UnknownCard123' not found in Scryfall database."))
  ∧ ∀ schedule results, (batch schedule).1 ≠ Some (inr results).
Proof.
  split; [vm_compute; reflexivity|].
  intros schedule results.
  by apply (unknown_card_never_returns _ false schedule 0%nat results).
Qed.

Lemma rate_limit_serialises_witness :
  let calls := [FetchFullCard "Lightning Bolt"; FetchFullCard "delver of secrets"] in
  let s := sys_run example_upstream
             (Sys new_service (map (λ c, Ready (coroutine 100 example_repr c)) calls) [])
             second_first_schedule in
  (length (sent (rt s)) = 4%nat ∧ clock (rt s) = 400)
  ∧ Forall (λ c, gated 100 Outside (coroutine 100 example_repr c)) calls
  ∧ exclusive s
  ∧ (length (sent new_service) ≤ length (sent (rt s)))%nat
  ∧ (100 * Z.of_nat (length (sent (rt s)) - length (sent new_service))
     ≤ clock (rt s) - clock new_service)%Z.
Proof.
  intros calls s. split; [split; vm_compute; reflexivity|].
  apply (rate_limit_serialises 100 example_repr example_upstream new_service calls
           second_first_schedule).
  reflexivity.
Defined.

(** ** More worked examples *)

Lemma new_service_separate : separate (mem new_service).
Proof. split; intros ? ?; simpl; by rewrite lookup_empty. Qed.

Lemma fetch_rulings_twice_witness :
  let rt1 := (exec example_upstream (fetch_rulings 100 example_repr (JStr "77c6fa74"))
                new_service).2 in
  exec example_upstream (fetch_rulings 100 example_repr (JStr "77c6fa74")) rt1
    = (Returned ["[2004-10-04] The target is chosen on cast.";
                 "[2020-08-07] It can target a planeswalker."], rt1)
  ∧ (length (sent rt1) ≤ length (sent new_service) + 1)%nat.
Proof.
  intros rt1.
  apply (fetch_rulings_twice 100 example_repr example_upstream (JStr "77c6fa74")
           new_service).
  vm_compute. reflexivity.
Defined.

Lemma permit_is_given_back_witness :
  let calls := [FetchFullCard "UnknownCard123"; FetchCardData "Lightning Bolt";
                FetchRulings (JArr [])] in
  let after := after_calls 100 example_repr example_upstream new_service in
  locked (after calls) = false
  ∧ (exec example_upstream (coroutine 100 example_repr (FetchRulings (JStr "0000")))
       (after calls)).1 ≠ Blocked
  ∧ locked (after (calls ++ [FetchRulings (JStr "0000")])) = false.
Proof.
  intros calls after.
  apply (permit_is_given_back 100 example_repr example_upstream new_service calls
           (FetchRulings (JStr "0000"))).
  reflexivity.
Defined.

Lemma raising_calls_store_nothing_witness :
  let rt1 := (exec example_upstream (fetch_card_data 100 "UnknownCard123")
                new_service).2 in
  let rt2 := (exec example_upstream (fetch_rulings 100 example_repr (JArr []))
                new_service).2 in
  mem rt1 = mem new_service ∧ mem rt2 = mem new_service.
Proof.
  intros rt1 rt2.
  destruct (raising_calls_store_nothing 100 example_repr example_upstream
              "UnknownCard123" (JArr []) new_service) as [H1 H2].
  split.
  - apply (H1 (CardFetchError "Card 'UnknownCard123' not found in Scryfall database.")).
    vm_compute. reflexivity.
  - apply (H2 TypeError). vm_compute. reflexivity.
Defined.

Lemma rulings_failure_keeps_card_witness :
  let upstream := always_answers (JObj [("id", JStr "x"); ("data", JNull)]) in
  let rt1 := (exec upstream (fetch_card_data 100 "Any") new_service).2 in
  let rt2 := (exec upstream (fetch_rulings 100 example_repr (JStr "x")) rt1).2 in
  exec upstream (fetch_full_card 100 example_repr "Any") new_service
    = (Raised TypeError, rt2)
  ∧ mem rt2 = mem rt1
  ∧ exec upstream (fetch_card_data 100 "Any") rt2 = (Returned 0%nat, rt2).
Proof.
  intros upstream rt1 rt2.
  apply (rulings_failure_keeps_card 100 example_repr upstream "Any" new_service
           0%nat rt1 TypeError rt2); vm_compute; reflexivity.
Defined.

Lemma fetch_card_data_bad_payload_witness :
  exec (always_answers (JObj [("name", JStr "X"); ("legalities", JArr [])]))
    (fetch_card_data 100 "X") new_service
  = (Raised AttributeError,
     Runtime (mem new_service) false (clock new_service + Z.max 0 100)
       (sent new_service ++ [card_request "X"])).
Proof.
  apply (fetch_card_data_bad_payload 100
           (always_answers (JObj [("name", JStr "X"); ("legalities", JArr [])]))
           "X" new_service
           (Response 200 (Some (JObj [("name", JStr "X"); ("legalities", JArr [])])))
           (JObj [("name", JStr "X"); ("legalities", JArr [])]));
    try reflexivity.
  intros members [= <-] [_ H]. exact H.
Defined.

Lemma fetch_rulings_by_payload_witness :
  let entries := [JObj [("comment", JStr "No date.")];
                  JObj [("published_at", JStr "2020-01-01"); ("comment", JNull)]] in
  let upstream := always_answers (JObj [("data", JArr entries)]) in
  let (o, rt1) := exec upstream (fetch_rulings 100 example_repr (JStr "x")) new_service in
  match py_iter (JArr entries) with
  | inl _ => o = Raised TypeError ∧ _rulings_cache (mem rt1) !! KStr "x" = None
  | inr items =>
      if forallb is_object items
      then o = Returned (map (rendered example_repr) items)
           ∧ _rulings_cache (mem rt1) !! KStr "x"
             = Some (map (rendered example_repr) items)
      else o = Raised AttributeError ∧ _rulings_cache (mem rt1) !! KStr "x" = None
  end.
Proof.
  intros entries upstream.
  apply (fetch_rulings_by_payload 100 example_repr upstream (JStr "x") (KStr "x")
           new_service (Response 200 (Some (JObj [("data", JArr entries)])))
           (JObj [("data", JArr entries)]) (JArr entries));
    reflexivity.
Defined.

Lemma missing_id_asks_for_None_witness :
  sent (exec (always_answers (JObj [("name", JStr "Nameless")]))
          (fetch_full_card 100 example_repr "Nameless") new_service).2
  = sent new_service
    ++ [card_request "Nameless";
        Request "https://api.scryfall.com/cards/None/rulings" []].
Proof.
  apply (missing_id_asks_for_None 100 example_repr
           (always_answers (JObj [("name", JStr "Nameless")])) "Nameless" new_service
           (Response 200 (Some (JObj [("name", JStr "Nameless")])))
           [("name", JStr "Nameless")]);
    first [reflexivity | exact I].
Defined.

Lemma unhashable_id_raises_witness :
  exec (always_answers (JObj [("id", JArr [JInt 1])]))
    (fetch_full_card 100 example_repr "Odd") new_service
  = (Raised TypeError,
     Runtime (Memory (<["Odd" := length (heap (mem new_service))]>
                        (_card_cache (mem new_service)))
                (_rulings_cache (mem new_service))
                (heap (mem new_service) ++ [extracted [("id", JArr [JInt 1])]]))
       false (clock new_service + Z.max 0 100)
       (sent new_service ++ [card_request "Odd"])).
Proof.
  apply (unhashable_id_raises 100 example_repr
           (always_answers (JObj [("id", JArr [JInt 1])])) "Odd" new_service
           (Response 200 (Some (JObj [("id", JArr [JInt 1])])))
           [("id", JArr [JInt 1])]);
    first [reflexivity | exact I].
Defined.

Lemma fetch_full_card_twice_witness :
  let rt1 := (exec example_upstream (fetch_full_card 100 example_repr "Lightning Bolt")
                new_service).2 in
  exec example_upstream (fetch_full_card 100 example_repr "Lightning Bolt") rt1
  = (Returned 0%nat, rt1).
Proof.
  intros rt1.
  apply (fetch_full_card_twice 100 example_repr example_upstream "Lightning Bolt"
           new_service 0%nat rt1).
  - exact (proj1 new_service_separate).
  - vm_compute. reflexivity.
Defined.

Lemma calls_leave_other_names_alone_witness :
  let rt := after_calls 100 example_repr example_upstream new_service
              [FetchFullCard "Lightning Bolt"] in
  let rt' := after_call 100 example_repr example_upstream rt
               (FetchFullCard "delver of secrets") in
  _card_cache (mem rt') !! "Lightning Bolt" = _card_cache (mem rt) !! "Lightning Bolt"
  ∧ cached_record (mem rt') "Lightning Bolt" = cached_record (mem rt) "Lightning Bolt".
Proof.
  apply (calls_leave_other_names_alone 100 example_repr example_upstream new_service
           [FetchFullCard "Lightning Bolt"] (FetchFullCard "delver of secrets")
           "Lightning Bolt").
  - exact new_service_separate.
  - discriminate.
Defined.

Lemma progress_collects_in_completion_order_witness :
  let batch := batch_fetch_card_data 100 example_repr example_upstream
                 ["Lightning Bolt"; "delver of secrets"] in
  let s := (batch true new_service second_first_schedule).2 in
  completed s = [1; 0]%nat
  ∧ Forall2 (λ i l, tasks s !! i = Some (Done (inr l))) (completed s) [0; 1]%nat
  ∧ ∃ ordered, (batch false new_service second_first_schedule).1 = Some (inr ordered)
      ∧ [0; 1]%nat ≡ₚ ordered.
Proof.
  intros batch s. split; [vm_compute; reflexivity|].
  apply (progress_collects_in_completion_order 100 example_repr example_upstream
           ["Lightning Bolt"; "delver of secrets"] new_service second_first_schedule
           [0; 1]%nat).
  vm_compute. reflexivity.
Defined.

Lemma names_given_twice_are_fetched_twice_witness :
  let rest := [Tick 100; Turn 0 false; Turn 0 false;
               Tick 100; Turn 0 false; Turn 0 false;
               Turn 1 false; Tick 100; Turn 1 false; Turn 1 false] in
  let s := (batch_fetch_card_data 100 example_repr example_upstream
              ["Lightning Bolt"; "Lightning Bolt"] false new_service
              (Turn 0 false :: Turn 1 false :: rest)).2 in
  sent (rt s) = [card_request "Lightning Bolt";
                 rulings_request example_repr (JStr "77c6fa74");
                 card_request "Lightning Bolt"]
  ∧ _card_cache (mem (rt s)) !! "Lightning Bolt" = Some 1%nat
  ∧ ∃ extra, sent (rt s) = sent new_service ++ extra
      ∧ (2 ≤ times_sent (card_request "Lightning Bolt") extra)%nat.
Proof.
  intros rest s. split; [vm_compute; reflexivity|]. split; [vm_compute; reflexivity|].
  apply (names_given_twice_are_fetched_twice 100 example_repr example_upstream
           ["Lightning Bolt"; "Lightning Bolt"] false new_service 0%nat 1%nat
           "Lightning Bolt" false false rest (inr 0%nat) (inr 1%nat));
    first [reflexivity | discriminate | vm_compute; reflexivity].
Defined.

Lemma cold_full_fetch_witness :
  exec example_upstream (fetch_full_card 100 example_repr "delver of secrets") new_service
  = (Returned (length (heap (mem new_service))),
     Runtime (Memory (<["delver of secrets" := length (heap (mem new_service))]>
                        (_card_cache (mem new_service)))
                (<[KStr "11bf83bb" := []]> (_rulings_cache (mem new_service)))
                (heap (mem new_service) ++ [set_rulings [] (extracted delver_members)]))
       false (clock new_service + Z.max 0 100 + Z.max 0 100)
       (sent new_service
          ++ [card_request "delver of secrets";
              rulings_request example_repr (member "id" delver_members)])).
Proof.
  apply (cold_full_fetch 100 example_repr example_upstream "delver of secrets"
           new_service (Response 200 (Some (JObj delver_members))) delver_members
           (KStr "11bf83bb") []);
    first [reflexivity | exact I].
Defined.

Lemma cached_rulings_are_reused_witness :
  let rt := after_call 100 example_repr example_upstream new_service
              (FetchRulings (JStr "77c6fa74")) in
  sent rt = [rulings_request example_repr (JStr "77c6fa74")]
  ∧ sent (exec example_upstream (fetch_full_card 100 example_repr "Lightning Bolt") rt).2
    = sent rt ++ [card_request "Lightning Bolt"].
Proof.
  intros rt. split; [reflexivity|].
  assert (∃ members, lightning_bolt = JObj members) as [members Hm] by by eexists.
  rewrite (cached_rulings_are_reused 100 example_repr example_upstream "Lightning Bolt"
             rt (Response 200 (Some lightning_bolt)) members (KStr "77c6fa74")
             ["[2004-10-04] The target is chosen on cast.";
              "[2020-08-07] It can target a planeswalker."]);
    try (injection Hm as <-); first [reflexivity | exact I].
Defined.

Lemma warm_batch_needs_no_request_witness :
  let service := after_calls 100 example_repr example_upstream new_service
                   [FetchFullCard "Lightning Bolt"; FetchFullCard "delver of secrets"] in
  let cards := ["delver of secrets"; "Lightning Bolt"; "delver of secrets"] in
  let schedule := [Turn 2 false; Turn 0 true; Turn 1 false] in
  let out := (batch_fetch_card_data 100 example_repr example_upstream cards false
                (with_locked true service) schedule).1 in
  let s := (batch_fetch_card_data 100 example_repr example_upstream cards false
              (with_locked true service) schedule).2 in
  out = Some (inr [1; 0; 1]%nat)
  ∧ sent (rt s) = sent service
  ∧ locked (rt s) = true.
Proof.
  intros service cards schedule out s.
  destruct (warm_batch_needs_no_request 100 example_repr example_upstream cards
              [1; 0; 1]%nat false (with_locked true service) schedule)
    as (Hs & Hl & _ & Hout).
  - repeat constructor; eexists _, _, _; split_and!; vm_compute; reflexivity.
  - split; [|split; [exact Hs|exact Hl]].
    apply Hout; [vm_compute|]; reflexivity.
Defined.

Lemma batch_is_rate_limited_witness :
  let s := (batch_fetch_card_data 100 example_repr example_upstream
              ["Lightning Bolt"; "delver of secrets"] false new_service
              second_first_schedule).2 in
  (length (sent (rt s)) = 4%nat ∧ clock (rt s) = 400)
  ∧ exclusive s
  ∧ (100 * Z.of_nat (length (sent (rt s)) - length (sent new_service))
     ≤ clock (rt s) - clock new_service)%Z.
Proof.
  intros s. split; [split; vm_compute; reflexivity|].
  apply (batch_is_rate_limited 100 example_repr example_upstream
           ["Lightning Bolt"; "delver of secrets"] false new_service
           second_first_schedule).
  reflexivity.
Defined.

Lemma batch_results_have_rulings_witness :
  let s := (batch_fetch_card_data 100 example_repr example_upstream
              ["Lightning Bolt"; "delver of secrets"] false new_service
              second_first_schedule).2 in
  wf_memory (mem (rt s))
  ∧ has_rulings 1%nat (mem (rt s))
  ∧ has_rulings 0%nat (mem (rt s)).
Proof.
  intros s.
  destruct (batch_results_have_rulings 100 example_repr example_upstream
              ["Lightning Bolt"; "delver of secrets"] false new_service
              second_first_schedule (proj1 new_service_separate)) as (W & Hdone & _).
  split; [exact W|].
  split; [apply (Hdone 0%nat)|apply (Hdone 1%nat)]; vm_compute; reflexivity.
Defined.
